(** * Link-time symbol resolution and meta-DCE root marking of [tools/shared.py]

    A shallow embedding of the archive-aware linker ([Building.link] and its
    nested closures), of the [llvm-nm] output parser ([Building.parse_symbols]),
    of archive extraction ([extract_archive_contents],
    [warn_if_duplicate_entries]), of the graph preparation done by
    [Building.metadce], of the caches of [Building.llvm_nm] and of some
    helpers ([line_splitter], the quoting of arguments, [JS.align],
    [JS.legalize_sig], [JS.escape_for_js_string], [WebAssembly.lebify]),
    followed by the properties proved about them.

    Python sets of symbol names and of paths are [gset string]; Python lists
    are [list]; exceptions are the [Err] branch of [result].  The
    process-wide caches ([uninternal_nm_cache], [ar_contents],
    [_is_ar_cache]) memoise functions of a file system that does not change
    during a run, so they are modelled read-through, as for a run that starts
    with empty caches. *)

From Stdlib Require Import Ascii String.
From stdpp Require Import base decidable option list sets gmap strings.

(** ** Exceptions *)

Inductive exn :=
| AssertionError (msg : string)
| IOError (path : string)
| IndexError
| Exception (msg : string)
| OutOfFuel.

Inductive result (A : Type) :=
| Ok (a : A)
| Err (e : exn).
Arguments Ok {A} a.
Arguments Err {A} e.

Definition bind {A B} (m : result A) (k : A → result B) : result B :=
  match m with
  | Ok a => k a
  | Err e => Err e
  end.

Notation "'do' x <- m ; k" := (bind m (fun x => k))
  (at level 10, x name, m at level 100, k at level 200,
   format "'[v' 'do'  x  <-  m ; '/' k ']'").
Notation "'do' ' p <- m ; k" := (bind m (fun '(p) => k))
  (at level 10, p pattern, m at level 100, k at level 200,
   format "'[v' 'do'  ' p  <-  m ; '/' k ']'").

Definition raises {A} (m : result A) : Prop := ∃ e, m = Err e.

(** ** Strings as Python uses them *)

Module Str.

(** [s.split(sep)] for a one-character separator: never the empty list. *)
Fixpoint split (sep : ascii) (s : string) : list string :=
  match s with
  | EmptyString => [EmptyString]
  | String c s' =>
      if Ascii.eqb c sep then EmptyString :: split sep s'
      else match split sep s' with
           | [] => [String c EmptyString]
           | w :: ws => String c w :: ws
           end
  end.

(** [c in s] for a one-character [c]. *)
Fixpoint contains (c : ascii) (s : string) : bool :=
  match s with
  | EmptyString => false
  | String d s' => Ascii.eqb d c || contains c s'
  end.

Definition is_lower (c : ascii) : bool :=
  let n := nat_of_ascii c in (97 <=? n)%nat && (n <=? 122)%nat.

Definition upper_char (c : ascii) : ascii :=
  if is_lower c then ascii_of_nat (nat_of_ascii c - 32) else c.

(** [s.upper()] on byte strings, as Python 2 has them: only the letters [a]
    to [z] change.  On text of ASCII characters this is also the [str.upper]
    of Python 3, which differs on other characters; the status column of
    [llvm-nm] holds ASCII, and the properties that rest on [upper] are stated
    for ASCII output. *)
Fixpoint upper (s : string) : string :=
  match s with
  | EmptyString => EmptyString
  | String c s' => String (upper_char c) (upper s')
  end.

(** [s.startswith('-')] *)
Definition startswith_dash (s : string) : bool :=
  match s with
  | String "-"%char _ => true
  | _ => false
  end.

(** [s[1:]] *)
Definition tail (s : string) : string :=
  match s with
  | EmptyString => EmptyString
  | String _ s' => s'
  end.

Definition nonempty (s : string) : bool :=
  match s with
  | EmptyString => false
  | _ => true
  end.

End Str.

(** ** Symbol tables: [ObjectFileInfo] and [Building.parse_symbols] *)

Record ObjectFileInfo := mkObjectFileInfo {
  returncode : Z;
  defs : gset string;
  undefs : gset string;
  commons : gset string
}.

Definition is_valid_for_nm (info : ObjectFileInfo) : bool :=
  bool_decide (returncode info = 0%Z).

(** The three lists that [parse_symbols] appends to while it reads lines. *)
Record SymLists := mkSymLists {
  l_defs : list string;
  l_undefs : list string;
  l_commons : list string
}.

(** [parts = [seg for seg in line.split(' ') if len(seg)]] *)
Definition line_parts (line : string) : list string :=
  List.filter Str.nonempty (Str.split " "%char line).

(** [if len(parts) == 3 and parts[0] in ["00000000", "--------"]: parts.pop(0)] *)
Definition pop_offset (parts : list string) : list string :=
  match parts with
  | [p0; p1; p2] =>
      if bool_decide (p0 ∈ ["00000000"; "--------"]) then [p1; p2] else parts
  | _ => parts
  end.

Definition is_defined_status (include_internal : bool) (status : string) : bool :=
  (negb include_internal && bool_decide (status = Str.upper status))
  || (include_internal && bool_decide (status ∈ ["W"; "t"; "T"; "d"; "D"])).

(** The body of the loop over the lines of the output. *)
Definition parse_line (include_internal : bool) (acc : SymLists) (line : string)
  : SymLists :=
  if negb (Str.nonempty line) then acc
  else if Str.contains ":"%char line then acc
  else
    match pop_offset (line_parts line) with
    | [status; symbol] =>
        if bool_decide (status = "U") then
          mkSymLists (l_defs acc) (l_undefs acc ++ [symbol]) (l_commons acc)
        else if bool_decide (status = "C") then
          mkSymLists (l_defs acc) (l_undefs acc) (l_commons acc ++ [symbol])
        else if is_defined_status include_internal status then
          mkSymLists (l_defs acc ++ [symbol]) (l_undefs acc) (l_commons acc)
        else acc
    | _ => acc
    end.

Definition output_lines (output : string) : list string :=
  Str.split "010"%char output.

Definition parse_symbols (output : string) (include_internal : bool)
  : ObjectFileInfo :=
  let acc := foldl (parse_line include_internal) (mkSymLists [] [] [])
                   (output_lines output) in
  mkObjectFileInfo 0 (list_to_set (l_defs acc)) (list_to_set (l_undefs acc))
                   (list_to_set (l_commons acc)).

Definition nl : string := String "010"%char EmptyString.

(** ** The world outside the driver

    The file system and the external tools, as one run sees them.  Files on
    disk are assumed stable for the run, and [file_bytes] already holds the
    members that [llvm-ar xo] writes into the extraction directories. *)

Record World := mkWorld {
  (** [abspath cwd p]: [os.path.abspath(p)] while the working directory is [cwd] *)
  abspath : string → string → string;
  (** [os.getcwd()] of the driver *)
  cwd : string;
  (** the directory [tempfile.mkdtemp] makes for the extraction of an archive *)
  mkdtemp : string → string;
  (** content of a file, [None] if it cannot be opened *)
  file_bytes : string → option (list Z);
  (** stdout of [llvm-ar t f], [None] if [run_process] raises *)
  llvm_ar_t : string → option string;
  (** whether [llvm-ar xo f] exits with code 0 *)
  llvm_ar_xo : string → bool;
  (** return code and stdout of [llvm-nm f] *)
  llvm_nm_run : string → Z * string
}.

Record SettingsT := mkSettings {
  EXPORTED_FUNCTIONS : list string;
  WASM_BACKEND : bool;
  EXPORT_ALL : bool
}.

Section Driver.

Context (w : World).

(** [Building.make_paths_absolute] *)
Definition make_paths_absolute (f : string) : string :=
  if Str.startswith_dash f then f else abspath w (cwd w) f.

Definition byte_is (b : list Z) (i : nat) (v : Z) : bool :=
  bool_decide (b !! i = Some v).

(** [Building.is_ar]: any exception, an index past the end of the bytes
    read included, is caught and gives [False]. *)
Definition is_ar (filename : string) : bool :=
  match file_bytes w filename with
  | None => false
  | Some content =>
      let b := take 8 content in
      byte_is b 0 33 && byte_is b 1 60 && byte_is b 2 97 && byte_is b 3 114
      && byte_is b 4 99 && byte_is b 5 104 && byte_is b 6 62 && byte_is b 7 10
  end.

(** [Building.is_bitcode]: nothing is caught here. *)
Definition is_bitcode (filename : string) : result bool :=
  match file_bytes w filename with
  | None => Err (IOError filename)
  | Some content =>
      let b := take 4 content in
      if (length b <? 4)%nat then Ok false
      else if byte_is b 0 66 && byte_is b 1 67 then Ok true
      else if is_ar filename then Ok true
      else if byte_is b 0 222 && byte_is b 1 192 && byte_is b 2 23
              && byte_is b 3 11 then
        let b := take 24 content in
        match b !! 20%nat with
        | None => Err IndexError
        | Some x =>
            if bool_decide (x = 66%Z) then
              match b !! 21%nat with
              | None => Err IndexError
              | Some y => Ok (bool_decide (y = 67%Z))
              end
            else Ok false
        end
      else Ok false
  end.

(** [Building.llvm_nm_uncached] with [include_internal=False]; a failed run
    keeps the constructor's default empty sets. *)
Definition llvm_nm_uncached (filename : string) : ObjectFileInfo :=
  let '(rc, out) := llvm_nm_run w filename in
  if bool_decide (rc = 0%Z) then parse_symbols out false
  else mkObjectFileInfo rc ∅ ∅ ∅.

(** [Building.llvm_nm]: the cache is keyed by the absolute path. *)
Definition llvm_nm (filename : string) : ObjectFileInfo :=
  llvm_nm_uncached (abspath w (cwd w) filename).

End Driver.

(** ** Archive extraction *)

Definition duplicate_header (archive_filename_hint : string) : string :=
  "loading from archive " +:+ archive_filename_hint +:+
  ", which has duplicate entries (files with identical base names). this is dangerous as only the last will be taken into account, and you may see surprising undefined symbols later. you should rename source files to avoid this problem (or avoid .a archives, and just link bitcode together to form libraries for later linking)".

Definition duplicate_line (curr : string) : string := "   duplicate: " +:+ curr.

(** The loop [for i in range(len(archive_contents))]: [rest] is
    [archive_contents[i:]]. *)
Fixpoint duplicate_lines (warned : gset string) (rest : list string)
  : list string :=
  match rest with
  | [] => []
  | curr :: later =>
      if bool_decide (curr ∉ warned) && bool_decide (curr ∈ later) then
        duplicate_line curr :: duplicate_lines ({[curr]} ∪ warned) later
      else duplicate_lines warned later
  end.

(** [warn_if_duplicate_entries]: the warnings it logs, in order. *)
Definition warn_if_duplicate_entries (archive_contents : list string)
    (archive_filename_hint : string) : list string :=
  if bool_decide (length archive_contents
                  ≠ size (list_to_set archive_contents : gset string)) then
    duplicate_header archive_filename_hint
      :: duplicate_lines ∅ archive_contents
  else [].

Record Extracted := mkExtracted {
  x_returncode : Z;
  x_dir : option string;
  x_files : list string;
  x_warnings : list string
}.

Definition extract_failed (warns : list string) : Extracted :=
  mkExtracted 1 None [] warns.

(** [extract_archive_contents]: every exception ends in the failure record. *)
Definition extract_archive_contents (w : World) (f : string) : Extracted :=
  let temp_dir := mkdtemp w f in
  match llvm_ar_t w f with
  | None => extract_failed []
  | Some out =>
      let contents := List.filter Str.nonempty (output_lines out) in
      let warns := warn_if_duplicate_entries contents f in
      if bool_decide (length contents = 0%nat) then
        mkExtracted 0 (Some temp_dir) [] warns
      else if negb (llvm_ar_xo w f) then extract_failed warns
      else
        let contents := abspath w temp_dir <$> contents in
        let nonexisting_contents :=
          List.filter (fun x => bool_decide (file_bytes w x = None)) contents in
        if negb (bool_decide (length nonexisting_contents = 0%nat)) then
          extract_failed warns
        else mkExtracted 0 (Some temp_dir) contents warns
  end.

(** [Building.ar_contents[f]] once [read_link_inputs] has filled it. *)
Definition ar_contents (w : World) (f : string) : list string :=
  x_files (extract_archive_contents w f).

(** ** The resolver: [Building.link]

    The variables that the closures of [link] share are the fields of
    [LinkState]; [log] collects the [logging.warning] messages. *)

Record LinkState := mkLinkState {
  actual_files : list string;
  unresolved_symbols : gset string;
  resolved_symbols : gset string;
  added_contents : gset string;
  current_archive_group : option (list string);
  log : list string
}.

Definition warn (msg : string) (st : LinkState) : LinkState :=
  mkLinkState (actual_files st) (unresolved_symbols st) (resolved_symbols st)
              (added_contents st) (current_archive_group st) (log st ++ [msg]).

Definition add_content (content : string) (st : LinkState) : LinkState :=
  mkLinkState (actual_files st) (unresolved_symbols st) (resolved_symbols st)
              ({[content]} ∪ added_contents st) (current_archive_group st)
              (log st).

Definition set_group (g : option (list string)) (st : LinkState) : LinkState :=
  mkLinkState (actual_files st) (unresolved_symbols st) (resolved_symbols st)
              (added_contents st) g (log st).

Definition append_file (f : string) (st : LinkState) : LinkState :=
  mkLinkState (actual_files st ++ [f]) (unresolved_symbols st)
              (resolved_symbols st) (added_contents st)
              (current_archive_group st) (log st).

Definition provided_by (info : ObjectFileInfo) : gset string :=
  defs info ∪ commons info.

(** The symbol-table update of an object that is added. *)
Definition add_object (f : string) (new_symbols : ObjectFileInfo)
    (st : LinkState) : LinkState :=
  let provided := provided_by new_symbols in
  let resolved := resolved_symbols st ∪ provided in
  let unresolved :=
    (unresolved_symbols st ∪ (undefs new_symbols ∖ resolved)) ∖ provided in
  mkLinkState (actual_files st ++ [f]) unresolved resolved (added_contents st)
              (current_archive_group st) (log st).

Definition not_valid_msg (f : string) : string :=
  "object " +:+ f +:+ " is not valid according to llvm-nm, cannot link".

Definition not_bitcode_msg (f : string) : string :=
  "object " +:+ f +:+ " is not LLVM bitcode, cannot link".

(** [unique_ordered] *)
Fixpoint unique_ordered_from (seen : gset string) (values : list string)
  : list string :=
  match values with
  | [] => []
  | value :: rest =>
      if bool_decide (value ∈ seen) then unique_ordered_from seen rest
      else value :: unique_ordered_from ({[value]} ∪ seen) rest
  end.

Definition unique_ordered (values : list string) : list string :=
  unique_ordered_from ∅ values.

Section Link.

Context (w : World) (settings : SettingsT).

(** [force_add_all], fixed before the scan starts *)
Context (force_add_all : bool).

Definition consider_object (f : string) (force_add : bool) (st : LinkState)
  : result (bool * LinkState) :=
  let new_symbols := llvm_nm w f in
  if negb (is_valid_for_nm new_symbols) then
    Ok (false, warn (not_valid_msg f) st)
  else
    do bitcode <- is_bitcode w f;
    if negb bitcode then Ok (false, warn (not_bitcode_msg f) st)
    else
      let provided := provided_by new_symbols in
      let do_add :=
        force_add || negb (bool_decide (unresolved_symbols st ## provided)) in
      if do_add then Ok (true, add_object f new_symbols st)
      else Ok (false, st).

(** One traversal [for content in contents] of [consider_archive]; the
    flag is [loop_again]. *)
Fixpoint consider_archive_pass (contents : list string) (loop_again : bool)
    (st : LinkState) : result (bool * LinkState) :=
  match contents with
  | [] => Ok (loop_again, st)
  | content :: rest =>
      if bool_decide (content ∈ added_contents st) then
        consider_archive_pass rest loop_again st
      else
        do '(added, st1) <- consider_object content force_add_all st;
        if added then consider_archive_pass rest true (add_content content st1)
        else consider_archive_pass rest loop_again st1
  end.

(** [while loop_again] of [consider_archive], with the number of traversals
    it may still make. *)
Fixpoint consider_archive_loop (fuel : nat) (contents : list string)
    (added_any_objects : bool) (st : LinkState) : result (bool * LinkState) :=
  match fuel with
  | O => Err OutOfFuel
  | S fuel' =>
      do '(loop_again, st1) <- consider_archive_pass contents false st;
      if loop_again then consider_archive_loop fuel' contents true st1
      else Ok (added_any_objects, st1)
  end.

Definition consider_archive (f : string) (st : LinkState)
  : result (bool * LinkState) :=
  let contents := ar_contents w f in
  consider_archive_loop (S (length contents)) contents false st.

(** One traversal [for archive in group] of [scan_archive_group]. *)
Fixpoint scan_group_pass (group : list string) (loop_again : bool)
    (st : LinkState) : result (bool * LinkState) :=
  match group with
  | [] => Ok (loop_again, st)
  | archive :: rest =>
      do '(added, st1) <- consider_archive archive st;
      scan_group_pass rest (added || loop_again) st1
  end.

Fixpoint scan_group_loop (fuel : nat) (group : list string) (st : LinkState)
  : result LinkState :=
  match fuel with
  | O => Err OutOfFuel
  | S fuel' =>
      do '(loop_again, st1) <- scan_group_pass group false st;
      if loop_again then scan_group_loop fuel' group st1 else Ok st1
  end.

Definition group_members (group : list string) : list string :=
  concat (ar_contents w <$> group).

Definition scan_archive_group (group : list string) (st : LinkState)
  : result LinkState :=
  scan_group_loop (S (length (group_members group))) group st.

(** The body of the main loop [for f in files]. *)
Definition link_input (has_ar : bool) (f : string) (st : LinkState)
  : result LinkState :=
  let absolute_path_f := make_paths_absolute w f in
  if Str.startswith_dash f then
    if bool_decide (f ∈ ["--start-group"; "-("]) then
      match current_archive_group st with
      | Some _ => Err (AssertionError "Nested --start-group, missing --end-group?")
      | None => Ok (set_group (Some []) st)
      end
    else if bool_decide (f ∈ ["--end-group"; "-)"]) then
      match current_archive_group st with
      | None => Err (AssertionError "--end-group without --start-group")
      | Some group =>
          do st1 <- scan_archive_group group st;
          Ok (set_group None st1)
      end
    else Err (AssertionError ("unsupported link flag: " +:+ f))
  else if negb (is_ar w absolute_path_f) then
    do bitcode <- is_bitcode w absolute_path_f;
    if bitcode then
      if has_ar then
        do '(added, st1) <- consider_object absolute_path_f true st;
        Ok st1
      else Ok (append_file f st)
    else Ok st
  else
    do '(added, st1) <- consider_archive absolute_path_f st;
    match current_archive_group st1 with
    | Some group => Ok (set_group (Some (group ++ [absolute_path_f])) st1)
    | None => Ok st1
    end.

Fixpoint link_inputs (has_ar : bool) (files : list string) (st : LinkState)
  : result LinkState :=
  match files with
  | [] => Ok st
  | f :: rest =>
      do st1 <- link_input has_ar f st;
      link_inputs has_ar rest st1
  end.

End Link.

Section LinkTop.

Context (w : World) (settings : SettingsT).

(** The part of [Building.read_link_inputs] that can stop the link: probing
    every input that is not a flag, then extracting every archive. *)
Fixpoint probe_inputs (files : list string) : result (list string) :=
  match files with
  | [] => Ok []
  | f :: rest =>
      let absolute_path_f := make_paths_absolute w f in
      if is_ar w absolute_path_f then
        do archive_names <- probe_inputs rest;
        Ok (absolute_path_f :: archive_names)
      else
        do _ <- is_bitcode w absolute_path_f;
        probe_inputs rest
  end.

Fixpoint check_extracted (archive_names : list string) : result unit :=
  match archive_names with
  | [] => Ok ()
  | name :: rest =>
      if bool_decide (x_returncode (extract_archive_contents w name) ≠ 0%Z)
      then Err (Exception ("llvm-ar failed on archive " +:+ name +:+ "!"))
      else check_extracted rest
  end.

(** [Building.read_link_inputs].  The call of [Building.parallel_llvm_nm]
    that ends it runs [llvm-nm] on every direct object and on every
    extracted member and stores the symbol tables in the cache; it raises
    nothing, and with the cache read through, as [llvm_nm] has it, it has no
    effect on the scan, so it does not appear here ([Cached.parallel_llvm_nm]
    has it). *)
Definition read_link_inputs (files : list string) : result unit :=
  do archive_names <- probe_inputs files;
  check_extracted archive_names.

Definition non_flags (files : list string) : list string :=
  List.filter (fun x => negb (Str.startswith_dash x)) files.

(** [unresolved_symbols = set([func[1:] for func in Settings.EXPORTED_FUNCTIONS])] *)
Definition root_symbols : gset string :=
  list_to_set (Str.tail <$> EXPORTED_FUNCTIONS settings).

Definition initial_state : LinkState :=
  mkLinkState [] root_symbols ∅ ∅ None [].

Definition compute_has_ar (files : list string) : bool :=
  foldl (fun has_ar f =>
           if negb (Str.startswith_dash f)
           then has_ar || is_ar w (make_paths_absolute w f) else has_ar)
        false files.

(** The scan of [Building.link] up to the end of the command line, with the
    rescan of a group that was left open. *)
Definition link_scan (files : list string) (force_archive_contents : bool)
  : result LinkState :=
  let has_ar := compute_has_ar files in
  let force_add_all :=
    bool_decide (length files = 1%nat) || force_archive_contents in
  do _ <- read_link_inputs (non_flags files);
  do st <- link_inputs w force_add_all has_ar files initial_state;
  match current_archive_group st with
  | Some (a :: g) =>
      do st1 <- scan_archive_group w force_add_all (a :: g) st;
      Ok (set_group None st1)
  | _ => Ok st
  end.

(** The final list of files of [Building.link], before the command line is
    spilled to a response file. *)
Definition link (files : list string) (force_archive_contents : bool)
  : result (list string) :=
  do st <- link_scan files force_archive_contents;
  Ok (unique_ordered (actual_files st)).

End LinkTop.

(** ** The reachability graph prepared by [Building.metadce]

    An item of the JSON graph written by the [emitDCEGraph] pass: the keys
    [export], [import] and [root] may be absent; [import] holds the pair
    [[module, name]]. *)

Record GraphItem := mkGraphItem {
  g_name : string;
  g_export : option string;
  g_import : option (string * string);
  g_root : option bool;
  g_reaches : list string
}.

Definition set_root (item : GraphItem) : GraphItem :=
  mkGraphItem (g_name item) (g_export item) (g_import item) (Some true)
              (g_reaches item).

Definition set_import (imp : string * string) (item : GraphItem) : GraphItem :=
  mkGraphItem (g_name item) (g_export item) (Some imp) (g_root item)
              (g_reaches item).

Section Metadce.

Context (settings : SettingsT) (user_requested_exports : list string).

(** The name under which an export of the graph is looked up among the
    requested exports. *)
Definition export_key (export : string) : string :=
  if WASM_BACKEND settings then "_" +:+ export else export.

(** Body of the first loop [for item in graph]. *)
Definition mark_root (item : GraphItem) : GraphItem :=
  match g_export item with
  | Some export =>
      if bool_decide (export_key export ∈ user_requested_exports)
         || EXPORT_ALL settings
      then set_root item else item
  | None => item
  end.

(** Body of the second loop, run for the wasm backend only;
    [item['import'][1][0]] raises on an empty name. *)
Definition strip_import (item : GraphItem) : result GraphItem :=
  match g_import item with
  | Some (module, name) =>
      match name with
      | EmptyString => Err IndexError
      | String c name' =>
          if Ascii.eqb c "_"%char then Ok (set_import (module, name') item)
          else Ok item
      end
  | None => Ok item
  end.

Fixpoint strip_imports (graph : list GraphItem) : result (list GraphItem) :=
  match graph with
  | [] => Ok []
  | item :: rest =>
      do item' <- strip_import item;
      do rest' <- strip_imports rest;
      Ok (item' :: rest')
  end.

(** The graph that [metadce] hands to [wasm-metadce]. *)
Definition metadce_graph (graph : list GraphItem) : result (list GraphItem) :=
  let graph := mark_root <$> graph in
  if WASM_BACKEND settings then strip_imports graph else Ok graph.

End Metadce.

(** ** Notions used to state the properties *)

(** What a line contributes: its status and symbol columns, if it has them. *)
Definition line_entry (line : string) : option (string * string) :=
  if negb (Str.nonempty line) then None
  else if Str.contains ":"%char line then None
  else match pop_offset (line_parts line) with
       | [status; symbol] => Some (status, symbol)
       | _ => None
       end.

(** The same, in the words of the specification: a line that is not empty
    and is not a file-name header, of two columns, or of three columns the
    first of which is the all-zero or the placeholder offset. *)
Definition two_columns (line status symbol : string) : Prop :=
  line ≠ "" ∧ Str.contains ":"%char line = false
  ∧ (line_parts line = [status; symbol]
     ∨ ∃ offset, offset ∈ ["00000000"; "--------"]
                 ∧ line_parts line = [offset; status; symbol]).

Definition defines (status : string) : Prop :=
  status ≠ "U" ∧ status ≠ "C" ∧ status = Str.upper status.

(** A status in which no character is one of the lower-case letters [a] to
    [z], given by their codes. *)
Definition no_lower_case (status : string) : Prop :=
  Forall (λ c, ¬ (97 ≤ nat_of_ascii c ≤ 122)) (list_ascii_of_string status).

(** Text of ASCII characters only. *)
Definition ascii_text (s : string) : Prop :=
  Forall (λ c, nat_of_ascii c < 128) (list_ascii_of_string s).

(** [name] is listed at two places of [contents]. *)
Definition duplicated (name : string) (contents : list string) : Prop :=
  ∃ before after, contents = before ++ name :: after ∧ name ∈ after.

(** An import name without the underscore that the wasm backend's glue code
    puts in front of it. *)
Definition strip_underscore (name : string) : string :=
  match name with
  | String "_"%char name' => name'
  | _ => name
  end.

Definition valid_object (w : World) (f : string) : Prop :=
  is_valid_for_nm (llvm_nm w f) = true ∧ is_bitcode w f = Ok true.

(** How many members of [members] are not yet in [added_contents]. *)
Definition pending (members : list string) (st : LinkState) : nat :=
  size (list_to_set members ∖ added_contents st : gset string).

(** [added_contents] only grows, and only by members of [members]. *)
Definition grows (members : list string) (st st' : LinkState) : Prop :=
  added_contents st ⊆ added_contents st'
  ∧ added_contents st' ⊆ added_contents st ∪ list_to_set members.

Definition tables_disjoint (st : LinkState) : Prop :=
  unresolved_symbols st ## resolved_symbols st.

(** The same world with another answer of [llvm-nm]. *)
Definition with_nm (w : World) (nm : string → Z * string) : World :=
  mkWorld (abspath w) (cwd w) (mkdtemp w) (file_bytes w) (llvm_ar_t w)
          (llvm_ar_xo w) nm.

Definition is_Ok_true (r : result bool) : bool :=
  match r with
  | Ok true => true
  | _ => false
  end.

(** The inputs that are not flags and that [is_bitcode] accepts. *)
Definition bitcode_inputs (w : World) (files : list string) : list string :=
  List.filter (fun f => is_Ok_true (is_bitcode w (make_paths_absolute w f)))
              (non_flags files).

(** No group is open, or the open group holds no archive. *)
Definition group_idle (st : LinkState) : Prop :=
  current_archive_group st = None ∨ current_archive_group st = Some [].

Definition not_archive (w : World) (f : string) : Prop :=
  Str.startswith_dash f = false → is_ar w (make_paths_absolute w f) = false.

(** Every member recorded in [added_contents] is in the list of files. *)
Definition added_are_linked (st : LinkState) : Prop :=
  ∀ m, m ∈ added_contents st → m ∈ actual_files st.

(** The two properties that every step of the scan keeps. *)
Definition keeps (x : option string) (st : LinkState) : Prop :=
  added_are_linked st ∧ ∀ y, x = Some y → y ∈ actual_files st.

(** Whether [consider_object] takes an object with these symbols. *)
Definition wanted (w : World) (force : bool) (st : LinkState) (m : string) : bool :=
  force
  || negb (bool_decide (unresolved_symbols st ## provided_by (llvm_nm w m))).

(** ** Worlds to run the definitions on *)

Module Sample.

Definition bitcode_bytes : list Z := [66; 67; 192; 222]%Z.
Definition archive_bytes : list Z := [33; 60; 97; 114; 99; 104; 62; 10]%Z.
Definition native_bytes : list Z := [127; 69; 76; 70]%Z.

Definition table {A} (default : A) (entries : list (string * A)) (key : string)
  : A :=
  match List.find (fun kv => bool_decide (kv.1 = key)) entries with
  | Some kv => kv.2
  | None => default
  end.

(** [os.path.abspath] on paths that need no normalisation. *)
Definition join_abspath (cwd p : string) : string :=
  match p with
  | String "/"%char _ => p
  | _ => cwd +:+ "/" +:+ p
  end.

Definition lines (ls : list string) : string :=
  foldr (fun l acc => l +:+ nl +:+ acc) "" ls.

(** An archive whose listing names two members by their paths, and one whose
    listing shows the same base name twice. *)
Definition w_dup : World :=
  mkWorld join_abspath "/src" (fun f => "/tmp/emscripten_temp_" +:+ Str.tail f)
    (table None
       [("/paths.a", Some archive_bytes); ("/names.a", Some archive_bytes);
        ("/tmp/emscripten_temp_paths.a/a/x.o", Some bitcode_bytes);
        ("/tmp/emscripten_temp_paths.a/b/x.o", Some bitcode_bytes);
        ("/tmp/emscripten_temp_names.a/x.o", Some bitcode_bytes);
        ("/tmp/emscripten_temp_names.a/y.o", Some bitcode_bytes)])
    (table None
       [("/paths.a", Some (lines ["a/x.o"; "b/x.o"]));
        ("/names.a", Some (lines ["x.o"; "y.o"; "x.o"]))])
    (fun _ => true)
    (fun _ => (0%Z, "")).

(** [os.path.abspath] that also drops a leading [./] of a relative path. *)
Definition norm_abspath (cwd p : string) : string :=
  match p with
  | String "."%char (String "/"%char p') => join_abspath cwd p'
  | _ => join_abspath cwd p
  end.

(** An archive whose listing spells one path in two ways. *)
Definition w_dot : World :=
  mkWorld norm_abspath "/src" (fun f => "/tmp/emscripten_temp_" +:+ Str.tail f)
    (table None
       [("/dot.a", Some archive_bytes);
        ("/tmp/emscripten_temp_dot.a/x.o", Some bitcode_bytes)])
    (table None [("/dot.a", Some (lines ["x.o"; "./x.o"]))])
    (fun _ => true)
    (fun _ => (0%Z, "")).

End Sample.

Module SampleLink.

Import Sample.

Definition tmp (archive member : string) : string :=
  "/tmp/emscripten_temp_" +:+ Str.tail archive +:+ "/" +:+ member.

(** Two objects, one object that [llvm-nm] rejects, one native object, two
    archives whose single members need each other, and an archive with a
    valid member, a native member and a member that [llvm-nm] rejects. *)
Definition world : World :=
  mkWorld join_abspath "/src" (fun f => "/tmp/emscripten_temp_" +:+ Str.tail f)
    (table None
       [("/src/main.o", Some bitcode_bytes);
        ("/src/util.o", Some bitcode_bytes);
        ("/src/bad.o", Some bitcode_bytes);
        ("/src/native.o", Some native_bytes);
        ("/src/libA.a", Some archive_bytes);
        ("/src/libB.a", Some archive_bytes);
        ("/src/libmix.a", Some archive_bytes);
        (tmp "/src/libA.a" "a.o", Some bitcode_bytes);
        (tmp "/src/libB.a" "b.o", Some bitcode_bytes);
        (tmp "/src/libmix.a" "good.o", Some bitcode_bytes);
        (tmp "/src/libmix.a" "elf.o", Some native_bytes);
        (tmp "/src/libmix.a" "broken.o", Some bitcode_bytes)])
    (table None
       [("/src/libA.a", Some (lines ["a.o"]));
        ("/src/libB.a", Some (lines ["b.o"]));
        ("/src/libmix.a", Some (lines ["good.o"; "elf.o"; "broken.o"]))])
    (fun _ => true)
    (table (1%Z, "")
       [("/src/main.o", (0%Z, lines ["-------- T main"; "         U f"]));
        ("/src/util.o", (0%Z, lines ["-------- T util"]));
        ("/src/native.o", (0%Z, lines ["0000000000000000 T native"]));
        (tmp "/src/libA.a" "a.o", (0%Z, lines ["-------- T f"; "         U g"]));
        (tmp "/src/libB.a" "b.o", (0%Z, lines ["-------- T g"; "         U f"]));
        (tmp "/src/libmix.a" "good.o", (0%Z, lines ["-------- T good"]));
        (tmp "/src/libmix.a" "elf.o", (0%Z, lines ["-------- T elf"]))]).

Definition exports (names : list string) : SettingsT :=
  mkSettings names false false.

End SampleLink.

(** The files of [st0] are the first files of [st], in the same order. *)
Definition extends_files (st0 st : LinkState) : Prop :=
  actual_files st0 `prefix_of` actual_files st.

(** The symbols provided by a list of objects, and the symbols they
    reference. *)
Definition provided_of (w : World) (files : list string) : gset string :=
  ⋃ ((fun f => provided_by (llvm_nm w f)) <$> files).

Definition undefs_of (w : World) (files : list string) : gset string :=
  ⋃ ((fun f => undefs (llvm_nm w f)) <$> files).

(** The symbol tables say what the linked files say. *)
Definition tables_account (w : World) (roots : gset string) (st : LinkState)
  : Prop :=
  resolved_symbols st = provided_of w (actual_files st)
  ∧ unresolved_symbols st
    = (roots ∪ undefs_of w (actual_files st)) ∖ resolved_symbols st.

(** [x] is the absolute path of a direct input of [files], or a member of
    an archive of [files]. *)
Definition from_inputs (w : World) (files : list string) (x : string) : Prop :=
  ∃ f, f ∈ files ∧ Str.startswith_dash f = false
       ∧ if is_ar w (make_paths_absolute w f)
         then x ∈ ar_contents w (make_paths_absolute w f)
         else x = make_paths_absolute w f.

(** The archives of the open group hold only objects that [A] allows. *)
Definition group_allowed (w : World) (A : string → Prop) (st : LinkState)
  : Prop :=
  ∀ g a m, current_archive_group st = Some g → a ∈ g →
           m ∈ ar_contents w a → A m.

(** What an input of the command line may bring in is allowed by [A]. *)
Definition input_allowed (w : World) (A : string → Prop) (f : string) : Prop :=
  Str.startswith_dash f = false →
  if is_ar w (make_paths_absolute w f)
  then ∀ m, m ∈ ar_contents w (make_paths_absolute w f) → A m
  else A (make_paths_absolute w f).

(** Two states with the same files, tables and considered members. *)
Definition same_link (st st' : LinkState) : Prop :=
  actual_files st' = actual_files st
  ∧ unresolved_symbols st' = unresolved_symbols st
  ∧ resolved_symbols st' = resolved_symbols st
  ∧ added_contents st' = added_contents st.

(** A valid member is taken, or provides nothing that is unresolved. *)
Definition settled (w : World) (force_add_all : bool) (st : LinkState)
    (m : string) : Prop :=
  valid_object w m →
  m ∈ added_contents st
  ∨ (force_add_all = false
     ∧ unresolved_symbols st ## provided_by (llvm_nm w m)).

(** The first bytes of an LLVM bitcode wrapper, as [is_bitcode] tests them. *)
Definition wrapper_magic : list Z := [222; 192; 23; 11]%Z.

(** An input of [read_link_inputs] that it can take in: an archive that
    extracts, or a file that [is_bitcode] can read. *)
Definition readable_input (w : World) (f : string) : Prop :=
  if is_ar w (make_paths_absolute w f)
  then x_returncode (extract_archive_contents w (make_paths_absolute w f)) = 0%Z
  else ∃ b, is_bitcode w (make_paths_absolute w f) = Ok b.






(** ** Helpers of the [JS] and [WebAssembly] classes *)

(** [WebAssembly.lebify]: the loop [while 1], with the number of bytes it
    may still emit. *)
Fixpoint lebify_loop (fuel : nat) (x : Z) : result (list Z) :=
  match fuel with
  | O => Err OutOfFuel
  | S fuel' =>
      let byte := Z.land x 127 in
      let x := Z.shiftr x 7 in
      let more := negb (x =? 0)%Z in
      if more then
        do ret <- lebify_loop fuel' x;
        Ok (Z.lor byte 128 :: ret)
      else Ok [byte]
  end.

(** [bytearray(ret)] accepts the integers of a byte only. *)
Definition bytearray (l : list Z) : result (list Z) :=
  if forallb (λ b, (0 <=? b)%Z && (b <? 256)%Z) l then Ok l
  else Err (Exception "ValueError: byte must be in range(0, 256)").

Definition lebify (x : Z) : result (list Z) :=
  if (x <? 0)%Z then Err (AssertionError "TODO: signed")
  else
    do ret <- lebify_loop (S (Z.to_nat (Z.log2 x))) x;
    bytearray ret.

(** The number that a sequence of LEB128 bytes stands for. *)
Fixpoint leb_value (bytes : list Z) : Z :=
  match bytes with
  | [] => 0
  | b :: rest => Z.land b 127 + 128 * leb_value rest
  end.

(** Bytes with the continuation bit on all but the last of them, and a last
    byte that is not a needless zero. *)
Fixpoint leb_canonical (bytes : list Z) : Prop :=
  match bytes with
  | [] => False
  | [b] => (0 ≤ b < 128)%Z
  | b :: rest =>
      (128 ≤ b < 256)%Z ∧ leb_canonical rest ∧ leb_value rest ≠ 0%Z
  end.

(** [JS.align]: the loop [while x % by != 0]; Python's [%] takes the sign of
    the divisor, as [Z.modulo] does, and raises on a zero divisor. *)
Fixpoint align_loop (fuel : nat) (x by_ : Z) : result Z :=
  match fuel with
  | O => Err OutOfFuel
  | S fuel' =>
      if negb (x mod by_ =? 0)%Z then align_loop fuel' (x + 1) by_
      else Ok x
  end.

Definition align (x by_ : Z) : result Z :=
  if (by_ =? 0)%Z
  then Err (Exception "ZeroDivisionError: integer division or modulo by zero")
  else align_loop (S (Z.to_nat (Z.abs by_))) x by_.

(** [JS.legalize_sig]: the loop over [sig[1:]]. *)
Fixpoint legalize_tail (s : string) : string :=
  match s with
  | EmptyString => EmptyString
  | String c rest =>
      if negb (Ascii.eqb c "j"%char) then String c (legalize_tail rest)
      else String "i"%char (String "i"%char (legalize_tail rest))
  end.

Definition legalize_sig (sig : string) : result string :=
  match sig with
  | EmptyString => Err IndexError
  | String c rest => Ok (String c (legalize_tail rest))
  end.

Fixpoint count_char (c : ascii) (s : string) : nat :=
  match s with
  | EmptyString => 0
  | String d rest => (if Ascii.eqb d c then 1 else 0) + count_char c rest
  end.

(** ** Quoting of command-line arguments and of JS strings *)

Module PyStr.

(** The characters that a literal cannot hold here. *)
Definition dquote : ascii := "034"%char.
Definition squote : ascii := "039"%char.
Definition backslash : ascii := "092"%char.

(** [s.startswith(p)] *)
Fixpoint startswith (p s : string) : bool :=
  match p, s with
  | EmptyString, _ => true
  | String a p', String b s' => Ascii.eqb a b && startswith p' s'
  | String _ _, EmptyString => false
  end.

(** [s.endswith(c)] for a one-character [c]. *)
Fixpoint endswith_char (c : ascii) (s : string) : bool :=
  match s with
  | EmptyString => false
  | String d EmptyString => Ascii.eqb d c
  | String _ s' => endswith_char c s'
  end.

(** [s[:-1]] *)
Fixpoint drop_last (s : string) : string :=
  match s with
  | EmptyString => EmptyString
  | String _ EmptyString => EmptyString
  | String c s' => String c (drop_last s')
  end.

(** [s.replace(old, new)] for an [old] that is not empty: the occurrences
    of [old] are taken from the left and do not overlap; [skip] counts the
    characters of the occurrence just replaced that are still to pass. *)
Fixpoint replace_from (old new : string) (skip : nat) (s : string) : string :=
  match s with
  | EmptyString => EmptyString
  | String c s' =>
      match skip with
      | S k => replace_from old new k s'
      | O =>
          if startswith old (String c s')
          then new +:+ replace_from old new (String.length old - 1) s'
          else String c (replace_from old new 0 s')
      end
  end.

Definition replace (old new s : string) : string := replace_from old new 0 s.

Definition char (c : ascii) : string := String c EmptyString.

End PyStr.

(** Whether [arg] starts and ends with the quote [q], as
    [arg.startswith(q) and arg.endswith(q)]. *)
Definition quoted_with (q : ascii) (arg : string) : bool :=
  PyStr.startswith (PyStr.char q) arg && PyStr.endswith_char q arg.

(** [Building.doublequote_spaces] on a string. *)
Definition doublequote_spaces (arg : string) : string :=
  if Str.contains " " arg && negb (quoted_with PyStr.dquote arg)
     && negb (quoted_with PyStr.squote arg)
  then
    PyStr.char PyStr.dquote
    +:+ PyStr.replace (PyStr.char PyStr.dquote)
          (String PyStr.backslash (PyStr.char PyStr.dquote)) arg
    +:+ PyStr.char PyStr.dquote
  else arg.

(** [Building.remove_quotes] on a string. *)
Definition remove_quotes (arg : string) : string :=
  if quoted_with PyStr.dquote arg then
    PyStr.replace (String PyStr.backslash (PyStr.char PyStr.dquote))
      (PyStr.char PyStr.dquote) (PyStr.drop_last (Str.tail arg))
  else if quoted_with PyStr.squote arg then
    PyStr.replace (String PyStr.backslash (PyStr.char PyStr.squote))
      (PyStr.char PyStr.squote) (PyStr.drop_last (Str.tail arg))
  else arg.

(** [JS.escape_for_js_string] *)
Definition escape_for_js_string (s : string) : string :=
  let s := PyStr.replace (PyStr.char PyStr.backslash) "/" s in
  let s := PyStr.replace (PyStr.char PyStr.squote)
             (String PyStr.backslash (PyStr.char PyStr.squote)) s in
  PyStr.replace (PyStr.char PyStr.dquote)
    (String PyStr.backslash (PyStr.char PyStr.dquote)) s.

(** What [JS.escape_for_js_string] makes of one character. *)
Definition js_escape_char (c : ascii) : string :=
  if Ascii.eqb c PyStr.backslash then "/"
  else if Ascii.eqb c PyStr.squote
       then String PyStr.backslash (PyStr.char PyStr.squote)
  else if Ascii.eqb c PyStr.dquote
       then String PyStr.backslash (PyStr.char PyStr.dquote)
  else PyStr.char c.

(** A text that can stand between the quotes of a JS string literal of
    either kind: every quote in it follows a backslash, and every backslash
    is followed by a quote. *)
Fixpoint js_string_safe (s : string) : bool :=
  match s with
  | EmptyString => true
  | String c rest =>
      if Ascii.eqb c PyStr.backslash then
        match rest with
        | EmptyString => false
        | String d rest' =>
            (Ascii.eqb d PyStr.squote || Ascii.eqb d PyStr.dquote)
            && js_string_safe rest'
        end
      else
        negb (Ascii.eqb c PyStr.squote || Ascii.eqb c PyStr.dquote)
        && js_string_safe rest
  end.

(** [line_splitter]: the loop over [range(len(data))], with [counter]. *)
Fixpoint line_splitter_loop (data : string) (counter : nat) : string :=
  match data with
  | EmptyString => EmptyString
  | String c rest =>
      if Ascii.eqb c " " && (60 <? counter)%nat
      then String c (String "010" (line_splitter_loop rest 0))
      else String c (line_splitter_loop rest (S counter))
  end.

Definition line_splitter (data : string) : string := line_splitter_loop data 0.

(** The text without its line breaks. *)
Fixpoint unbroken (s : string) : string :=
  match s with
  | EmptyString => EmptyString
  | String c rest =>
      if Ascii.eqb c "010" then unbroken rest else String c (unbroken rest)
  end.

(** ** The caches of [llvm-nm] results *)

Module Cached.

(** [Building.internal_nm_cache], [Building.uninternal_nm_cache], and the
    runs of [llvm-nm] so far, the latest first, each with the file and the
    [include_internal] it was run for. *)
Record Caches := mkCaches {
  internal_nm_cache : gmap string ObjectFileInfo;
  uninternal_nm_cache : gmap string ObjectFileInfo;
  nm_runs : list (string * bool)
}.

Definition no_caches : Caches := mkCaches ∅ ∅ [].

(** What [Building.llvm_nm_uncached] returns. *)
Definition nm_result (w : World) (filename : string) (include_internal : bool)
  : ObjectFileInfo :=
  let '(rc, out) := llvm_nm_run w filename in
  if bool_decide (rc = 0%Z) then parse_symbols out include_internal
  else mkObjectFileInfo rc ∅ ∅ ∅.

(** [Building.llvm_nm_uncached], with the run it makes. *)
Definition llvm_nm_uncached (w : World) (filename : string)
    (include_internal : bool) (c : Caches) : ObjectFileInfo * Caches :=
  (nm_result w filename include_internal,
   mkCaches (internal_nm_cache c) (uninternal_nm_cache c)
            ((filename, include_internal) :: nm_runs c)).

(** [Building.llvm_nm] *)
Definition llvm_nm (w : World) (filename : string) (include_internal : bool)
    (c : Caches) : ObjectFileInfo * Caches :=
  let filename := abspath w (cwd w) filename in
  match include_internal,
        internal_nm_cache c !! filename, uninternal_nm_cache c !! filename with
  | true, Some ret, _ => (ret, c)
  | false, _, Some ret => (ret, c)
  | _, _, _ =>
      let '(ret, c) := llvm_nm_uncached w filename include_internal c in
      if include_internal
      then (ret, mkCaches (<[filename := ret]> (internal_nm_cache c))
                          (uninternal_nm_cache c) (nm_runs c))
      else (ret, mkCaches (internal_nm_cache c)
                          (<[filename := ret]> (uninternal_nm_cache c))
                          (nm_runs c))
  end.

(** [pool.map(g_llvm_nm_uncached, files)] *)
Fixpoint map_llvm_nm_uncached (w : World) (files : list string) (c : Caches)
  : list ObjectFileInfo * Caches :=
  match files with
  | [] => ([], c)
  | f :: files' =>
      let '(info, c) := llvm_nm_uncached w f false c in
      let '(infos, c) := map_llvm_nm_uncached w files' c in
      (info :: infos, c)
  end.

(** [Building.parallel_llvm_nm]: the loop over [range(len(files))] stores
    [object_contents[i]] under [files[i]]. *)
Definition parallel_llvm_nm (w : World) (files : list string) (c : Caches)
  : list ObjectFileInfo * Caches :=
  let '(object_contents, c) := map_llvm_nm_uncached w files c in
  (object_contents,
   foldl (λ c '(f, info),
            mkCaches (internal_nm_cache c)
                     (<[f := info]> (uninternal_nm_cache c)) (nm_runs c))
         c (zip files object_contents)).

(** A sequence of calls of [Building.llvm_nm]. *)
Fixpoint llvm_nm_calls (w : World) (calls : list (string * bool)) (c : Caches)
  : list ObjectFileInfo * Caches :=
  match calls with
  | [] => ([], c)
  | (f, include_internal) :: calls' =>
      let '(info, c) := llvm_nm w f include_internal c in
      let '(infos, c) := llvm_nm_calls w calls' c in
      (info :: infos, c)
  end.

(** Caches that hold only what [llvm-nm] gives for the file. *)
Definition coherent (w : World) (c : Caches) : Prop :=
  (∀ f info, internal_nm_cache c !! f = Some info → info = nm_result w f true) ∧
  (∀ f info, uninternal_nm_cache c !! f = Some info →
             info = nm_result w f false).

(** The cache that [llvm_nm] reads for [include_internal]. *)
Definition cache_of (include_internal : bool) (c : Caches)
  : gmap string ObjectFileInfo :=
  if include_internal then internal_nm_cache c else uninternal_nm_cache c.

End Cached.

(** ** Tactics *)

(** Takes apart the disjunctions, conjunctions and witnesses among the
    hypotheses, and the membership in a list with a head. *)
Ltac break_hyps :=
  repeat match goal with
    | H : _ ∨ _ |- _ => destruct H
    | H : ∃ _, _ |- _ => destruct H
    | H : _ ∧ _ |- _ => destruct H
    | H : _ ∈ _ :: _ |- _ => apply elem_of_cons in H
    end; simplify_eq; try congruence.

(** Reduces the field reads of a state built by the steps of the scan. *)
Ltac state_simpl :=
  cbn [actual_files added_contents unresolved_symbols resolved_symbols
       current_archive_group log add_content add_object set_group warn
       append_file initial_state bind].

(** Reduces the field reads of the caches of [llvm-nm] results. *)
Ltac caches_simpl :=
  cbn [Cached.internal_nm_cache Cached.uninternal_nm_cache Cached.nm_runs
       Cached.cache_of].

(** * Properties *)

(** ** The error monad *)

Lemma bind_Ok {A B} (m : result A) (k : A → result B) (b : B) :
  bind m k = Ok b ↔ ∃ a, m = Ok a ∧ k a = Ok b.
Proof.
  destruct m as [a|e]; simpl; split.
  - eauto.
  - intros (a' & [= <-] & Hk). done.
  - done.
  - intros (a' & ? & _). done.
Qed.

Lemma bind_Err {A B} (m : result A) (k : A → result B) (e : exn) :
  bind m k = Err e ↔ m = Err e ∨ ∃ a, m = Ok a ∧ k a = Err e.
Proof.
  destruct m as [a|e']; simpl; split.
  - eauto.
  - intros [?|(a' & [= <-] & Hk)]; done.
  - intros [= <-]. by left.
  - intros [[= <-]|(a' & ? & _)]; done.
Qed.

(** ** Parsing the symbol table *)

Example parse_symbols_ex :
  let r := parse_symbols ("lib.o:" +:+ nl +:+ "-------- T f" +:+ nl +:+
                          "         U g" +:+ nl +:+ "00000630 t h" +:+ nl +:+
                          "00000000 C k" +:+ nl +:+ "d q" +:+ nl) false in
  elements (defs r) = ["f"] ∧ elements (undefs r) = ["g"]
  ∧ elements (commons r) = ["k"].
Proof. vm_compute. done. Qed.

Section ParseSymbols.

Lemma pop_offset_two parts status symbol :
  pop_offset parts = [status; symbol]
  ↔ parts = [status; symbol]
    ∨ ∃ offset, offset ∈ ["00000000"; "--------"]
                ∧ parts = [offset; status; symbol].
Proof.
  unfold pop_offset.
  destruct parts as [|p0 [|p1 [|p2 [|p3 ps]]]];
    try (split; [intros [=]|intros [[=]|(? & _ & [=])]]; fail).
  - split; [intros [= -> ->]; by left|].
    intros [[= -> ->]|(? & _ & [=])]. done.
  - case_bool_decide as Hoff.
    + split.
      * intros [= -> ->]. right. by exists p0.
      * intros [[=]|(off & _ & [= -> -> ->])]. done.
    + split; [intros [=]|].
      intros [[=]|(off & Hin & [= <- -> ->])]. done.
Qed.

Lemma nonempty_false line : Str.nonempty line = false ↔ line = "".
Proof. destruct line; simpl; split; done. Qed.

Lemma line_entry_two_columns line status symbol :
  line_entry line = Some (status, symbol) ↔ two_columns line status symbol.
Proof.
  unfold line_entry, two_columns.
  destruct (Str.nonempty line) eqn:Hne; simpl.
  - assert (line ≠ "") as Hl by (intros ->; done).
    destruct (Str.contains ":"%char line) eqn:Hc.
    + split; [done|]. intros (_ & ? & _). done.
    + rewrite <- pop_offset_two.
      split.
      * intros He. split_and!; [done..|].
        destruct (pop_offset (line_parts line)) as [|? [|? [|]]]; naive_solver.
      * intros (_ & _ & ->). done.
  - apply nonempty_false in Hne as ->. split; [done|]. intros (? & _). done.
Qed.

Lemma parse_line_entry include_internal acc line :
  parse_line include_internal acc line =
  match line_entry line with
  | Some (status, symbol) =>
      if bool_decide (status = "U") then
        mkSymLists (l_defs acc) (l_undefs acc ++ [symbol]) (l_commons acc)
      else if bool_decide (status = "C") then
        mkSymLists (l_defs acc) (l_undefs acc) (l_commons acc ++ [symbol])
      else if is_defined_status include_internal status then
        mkSymLists (l_defs acc ++ [symbol]) (l_undefs acc) (l_commons acc)
      else acc
  | None => acc
  end.
Proof.
  unfold parse_line, line_entry.
  destruct (negb (Str.nonempty line)); [done|].
  destruct (Str.contains ":"%char line); [done|].
  by destruct (pop_offset (line_parts line)) as [|? [|? [|]]].
Qed.

Lemma parse_lines_spec lines : ∀ acc symbol,
  let r := foldl (parse_line false) acc lines in
  (symbol ∈ l_undefs r ↔
     symbol ∈ l_undefs acc
     ∨ ∃ line, line ∈ lines ∧ line_entry line = Some ("U", symbol))
  ∧ (symbol ∈ l_commons r ↔
     symbol ∈ l_commons acc
     ∨ ∃ line, line ∈ lines ∧ line_entry line = Some ("C", symbol))
  ∧ (symbol ∈ l_defs r ↔
     symbol ∈ l_defs acc
     ∨ ∃ line status, line ∈ lines ∧ line_entry line = Some (status, symbol)
                      ∧ defines status).
Proof.
  induction lines as [|line lines IH]; intros acc symbol; simpl.
  - split_and!; (split; [by left|intros [?|H]; [done|]]);
      [destruct H as (? & H & _) | destruct H as (? & H & _)
      | destruct H as (? & ? & H & _)]; by apply elem_of_nil in H.
  - destruct (IH (parse_line false acc line) symbol) as (IHu & IHc & IHd).
    rewrite IHu, IHc, IHd. clear IH IHu IHc IHd.
    rewrite parse_line_entry. unfold defines, is_defined_status. simpl.
    destruct (line_entry line) as [[status sym]|] eqn:He.
    + repeat case_bool_decide; subst; simpl;
        rewrite ?elem_of_app, ?list_elem_of_singleton;
        split_and!; split; intros Hx; break_hyps;
        eauto 10 using list_elem_of_here, list_elem_of_further.
    + split_and!; split; intros Hx; break_hyps;
        eauto 10 using list_elem_of_here, list_elem_of_further.
Qed.

End ParseSymbols.

(** A status is its own upper-casing exactly when it holds no lower-case
    letter. *)
Lemma upper_fixed status : status = Str.upper status ↔ no_lower_case status.
Proof.
  unfold no_lower_case.
  induction status as [|c status IH]; [split; [constructor|done]|].
  cbn [Str.upper list_ascii_of_string]. rewrite Forall_cons, <- IH.
  assert (c = Str.upper_char c ↔ ¬ (97 ≤ nat_of_ascii c ≤ 122)) as <-.
  { unfold Str.upper_char, Str.is_lower.
    destruct (Nat.leb_spec 97 (nat_of_ascii c)) as [H1|H1];
      destruct (Nat.leb_spec (nat_of_ascii c) 122) as [H2|H2]; cbn [andb];
      try (split; [lia|done]).
    split; [|lia]. intros Hc. apply (f_equal nat_of_ascii) in Hc.
    rewrite nat_ascii_embedding in Hc by lia. lia. }
  split; [intros [= ? ?]; done|intros [<- <-]; done].
Qed.

(** C8, as the specification states it, fails: a status that is no letter
    at all, such as [?], is equal to its own upper-casing, and its symbol
    enters the defined set. *)
Lemma status_without_letter_defines :
  defs (parse_symbols "? sym" false) = {["sym"]}
  ∧ ¬ (65 ≤ nat_of_ascii "?" ≤ 90).
Proof.
  split; [apply (bool_decide_unpack _); by vm_compute|].
  change (nat_of_ascii "?") with 63. lia.
Qed.

(** C8, amended.  In its default, external-only mode [parse_symbols] reads
    each line of an ASCII tool output that is neither empty nor a file-name
    header as follows: a line of two columns is status and symbol; a line
    of three columns whose first column is the all-zero offset [00000000]
    or the placeholder [--------] is read without that column; every other
    line, so every three-column line with another (absolute) offset, adds
    nothing.  Status [U] puts the symbol in the undefined set and only
    there, status [C] in the common set and only there, and a symbol enters
    the defined set exactly through a status other than [U] and [C] that
    holds no lower-case letter: an upper-case letter such as [T], but also a
    status without any letter. *)
Theorem parse_symbols_external_only (output symbol : string) :
  ascii_text output →
  let info := parse_symbols output false in
  returncode info = 0%Z
  ∧ (symbol ∈ undefs info ↔
       ∃ line, line ∈ output_lines output ∧ two_columns line "U" symbol)
  ∧ (symbol ∈ commons info ↔
       ∃ line, line ∈ output_lines output ∧ two_columns line "C" symbol)
  ∧ (symbol ∈ defs info ↔
       ∃ line status, line ∈ output_lines output
                      ∧ two_columns line status symbol
                      ∧ status ≠ "U" ∧ status ≠ "C"
                      ∧ no_lower_case status).
Proof.
  intros _ info. subst info. unfold parse_symbols. simpl.
  split; [done|].
  destruct (parse_lines_spec (output_lines output) (mkSymLists [] [] []) symbol)
    as (Hu & Hc & Hd).
  simpl in Hu, Hc, Hd. rewrite !elem_of_list_to_set, Hu, Hc, Hd.
  unfold defines. setoid_rewrite upper_fixed.
  split_and!; split; intros Hx; break_hyps;
    try (exfalso; eapply elem_of_nil; eassumption).
  - eexists. split; [done|]. by apply line_entry_two_columns.
  - right. eexists. split; [done|]. by apply line_entry_two_columns.
  - eexists. split; [done|]. by apply line_entry_two_columns.
  - right. eexists. split; [done|]. by apply line_entry_two_columns.
  - do 2 eexists. split_and!; [done| |done..]. by apply line_entry_two_columns.
  - right. do 2 eexists. split_and!; [done| |done..].
    by apply line_entry_two_columns.
Qed.

Lemma parse_symbols_external_only_witness :
  let output := "lib.o:" +:+ nl +:+ "-------- T f" +:+ nl +:+ "         U g"
                +:+ nl +:+ "00000630 t h" +:+ nl +:+ "00000000 C k" +:+ nl
                +:+ "d q" +:+ nl +:+ "? r" +:+ nl in
  let info := parse_symbols output false in
  ascii_text output
  ∧ (("r" ∈ defs info ↔
       ∃ line status, line ∈ output_lines output
                      ∧ two_columns line status "r"
                      ∧ status ≠ "U" ∧ status ≠ "C"
                      ∧ no_lower_case status)
     ∧ "r" ∈ defs info ∧ ("h" ∉ defs info) ∧ ("q" ∉ defs info)).
Proof.
  intros output info.
  assert (Hascii : ascii_text output)
    by (apply (bool_decide_unpack _); by vm_compute).
  split; [exact Hascii|].
  split; [exact (proj2 (proj2 (proj2
            (parse_symbols_external_only output "r" Hascii))))|].
  split_and!; apply (bool_decide_unpack _); by vm_compute.
Defined.

(** ** Duplicate entries of an archive *)

Section Duplicates.

Lemma duplicated_nil name : ¬ duplicated name [].
Proof. intros ([|??] & ? & [=] & _). Qed.

Lemma duplicated_cons name curr later :
  duplicated name (curr :: later)
  ↔ (name = curr ∧ name ∈ later) ∨ duplicated name later.
Proof.
  split.
  - intros ([|b before] & after & [= -> ->] & Hin).
    + by left.
    + right. by exists before, after.
  - intros [[-> Hin]|(before & after & -> & Hin)].
    + by exists [], later.
    + by exists (curr :: before), after.
Qed.

Lemma duplicated_NoDup contents :
  NoDup contents ↔ ∀ name, ¬ duplicated name contents.
Proof.
  induction contents as [|curr later IH].
  - split; [intros _ name; apply duplicated_nil|constructor].
  - rewrite NoDup_cons, IH. setoid_rewrite duplicated_cons. naive_solver.
Qed.

Lemma duplicate_line_inj a b : duplicate_line a = duplicate_line b → a = b.
Proof. unfold duplicate_line. cbn. intros H. by simplify_eq. Qed.

Lemma duplicate_lines_spec rest : ∀ warned,
  NoDup (duplicate_lines warned rest)
  ∧ ∀ line, line ∈ duplicate_lines warned rest
            ↔ ∃ name, line = duplicate_line name ∧ (name ∉ warned)
                      ∧ duplicated name rest.
Proof.
  induction rest as [|curr later IH]; intros warned; simpl.
  - split; [constructor|]. intros line. split.
    + by intros ?%elem_of_nil.
    + intros (name & _ & _ & []%duplicated_nil).
  - destruct (IH warned) as [IHnd IHin].
    destruct (IH ({[curr]} ∪ warned)) as [IHnd' IHin'].
    setoid_rewrite duplicated_cons.
    repeat case_bool_decide; simpl.
    + split.
      * constructor; [|done]. rewrite IHin'.
        intros (name & ?%duplicate_line_inj & Hnot & _). set_solver.
      * intros line. rewrite elem_of_cons, IHin'. split.
        -- intros [->|(name & -> & Hnot & Hdup)].
           ++ exists curr. eauto.
           ++ exists name. split_and!; [done|set_solver|by right].
        -- intros (name & -> & Hnot & [[-> _]|Hdup]); [by left|].
           destruct (decide (name = curr)) as [->|Hne]; [by left|].
           right. exists name. split_and!; [done|set_solver|done].
    + split; [done|]. intros line. rewrite IHin. naive_solver.
    + split; [done|]. intros line. rewrite IHin. naive_solver.
    + split; [done|]. intros line. rewrite IHin. naive_solver.
Qed.

Lemma size_list_to_set_NoDup (l : list string) :
  length l = size (list_to_set l : gset string) ↔ NoDup l.
Proof.
  split; [|intros; symmetry; by apply size_list_to_set].
  assert (∀ l : list string, size (list_to_set l : gset string) ≤ length l)
    as Hle.
  { clear l. induction l as [|x l IH];
      [by rewrite list_to_set_nil, size_empty|].
    rewrite list_to_set_cons. cbn [length].
    rewrite size_union_alt, size_singleton.
    assert (size (list_to_set l ∖ {[x]} : gset string)
            ≤ size (list_to_set l : gset string)) as Hsub
      by (apply subseteq_size; set_solver).
    lia. }
  induction l as [|x l IH]; [constructor|].
  rewrite list_to_set_cons. cbn [length].
  intros Hlen. destruct (decide (x ∈ l)) as [Hin|Hnin].
  - assert ({[x]} ∪ list_to_set l = (list_to_set l : gset string))
      as Heq by set_solver.
    rewrite Heq in Hlen. specialize (Hle l). lia.
  - rewrite size_union in Hlen by set_solver.
    rewrite size_singleton in Hlen. constructor; [done|]. apply IH. lia.
Qed.

End Duplicates.

(** C6, as the specification states it, fails: for an archive whose listing
    names the members [a/x.o] and [b/x.o], extraction logs no warning at all
    (the two entries differ as strings), while it does place the two members
    at two different paths. *)
Lemma duplicate_basename_not_reported :
  let e := extract_archive_contents Sample.w_dup "/paths.a" in
  x_warnings e = []
  ∧ x_files e = ["/tmp/emscripten_temp_paths.a/a/x.o";
                 "/tmp/emscripten_temp_paths.a/b/x.o"].
Proof. vm_compute. done. Qed.

(** C6, amended.  Extraction compares the entries of the archive listing as
    whole strings.  If no entry is listed twice it logs nothing.  If some
    entry is listed twice it logs one headline warning naming the archive,
    followed by exactly one [duplicate:] line for each entry name that is
    listed more than once, and nothing else.  When extraction succeeds the
    files it returns are the listed entries in their order, each resolved
    by [os.path.abspath] inside the archive's temporary directory; so two
    entries share a destination exactly when their names resolve to the
    same path, whether or not a warning was logged for them. *)
Theorem duplicate_entries_reported_once (w : World) (f out : string) :
  llvm_ar_t w f = Some out →
  let contents := List.filter Str.nonempty (output_lines out) in
  let e := extract_archive_contents w f in
  (NoDup contents → x_warnings e = [])
  ∧ (¬ NoDup contents →
       ∃ dups, x_warnings e = duplicate_header f :: dups
               ∧ NoDup dups
               ∧ ∀ line, line ∈ dups
                         ↔ ∃ name, line = duplicate_line name
                                   ∧ duplicated name contents)
  ∧ (x_returncode e = 0%Z →
       x_files e = abspath w (mkdtemp w f) <$> contents
       ∧ ∀ i j a b, contents !! i = Some a → contents !! j = Some b →
           (x_files e !! i = x_files e !! j
            ↔ abspath w (mkdtemp w f) a = abspath w (mkdtemp w f) b)).
Proof.
  intros Hout contents e.
  assert (x_warnings e = warn_if_duplicate_entries contents f) as Hw.
  { subst e. unfold extract_archive_contents. rewrite Hout.
    fold contents. repeat case_match; done. }
  rewrite Hw. unfold warn_if_duplicate_entries.
  split_and!.
  - intros Hnd. apply size_list_to_set_NoDup in Hnd.
    by rewrite bool_decide_false by (intros ?; done).
  - intros Hnd. rewrite bool_decide_true
      by (by rewrite size_list_to_set_NoDup).
    destruct (duplicate_lines_spec contents ∅) as [Hnodup Hin].
    eexists. split_and!; [done..|].
    intros line. rewrite Hin. set_solver.
  - intros Hrc.
    assert (x_files e = abspath w (mkdtemp w f) <$> contents) as Hfiles.
    { revert Hrc. subst e. unfold extract_archive_contents.
      rewrite Hout. fold contents.
      case_bool_decide as Hlen; simpl.
      - intros _. by destruct contents.
      - repeat case_match; simpl; done. }
    split; [done|]. intros i j a b Hi Hj.
    rewrite Hfiles, !list_lookup_fmap, Hi, Hj. simpl.
    split; [by intros [= ->]|by intros ->].
Qed.

Lemma duplicate_entries_reported_once_witness :
  let w := Sample.w_dup in
  let out := Sample.lines ["x.o"; "y.o"; "x.o"] in
  let contents := List.filter Str.nonempty (output_lines out) in
  let e := extract_archive_contents w "/names.a" in
  llvm_ar_t w "/names.a" = Some out
  ∧ (NoDup contents → x_warnings e = [])
  ∧ (¬ NoDup contents →
       ∃ dups, x_warnings e = duplicate_header "/names.a" :: dups
               ∧ NoDup dups
               ∧ ∀ line, line ∈ dups
                         ↔ ∃ name, line = duplicate_line name
                                   ∧ duplicated name contents)
  ∧ (x_returncode e = 0%Z →
       x_files e = abspath w (mkdtemp w "/names.a") <$> contents
       ∧ ∀ i j a b, contents !! i = Some a → contents !! j = Some b →
           (x_files e !! i = x_files e !! j
            ↔ abspath w (mkdtemp w "/names.a") a
              = abspath w (mkdtemp w "/names.a") b)).
Proof.
  split; [reflexivity|].
  exact (duplicate_entries_reported_once Sample.w_dup "/names.a" _ eq_refl).
Defined.

(** Two spellings of one path are two entries of the listing: no warning is
    logged, and both are placed at the same destination. *)
Example different_spellings_collide :
  let e := extract_archive_contents Sample.w_dot "/dot.a" in
  x_returncode e = 0%Z
  ∧ x_warnings e = []
  ∧ x_files e = ["/tmp/emscripten_temp_dot.a/x.o";
                 "/tmp/emscripten_temp_dot.a/x.o"].
Proof. by vm_compute. Qed.

Example duplicate_entries_names :
  let e := extract_archive_contents Sample.w_dup "/names.a" in
  x_warnings e = [duplicate_header "/names.a"; duplicate_line "x.o"]
  ∧ x_files e = ["/tmp/emscripten_temp_names.a/x.o";
                 "/tmp/emscripten_temp_names.a/y.o";
                 "/tmp/emscripten_temp_names.a/x.o"].
Proof. by vm_compute. Qed.

(** ** Roots and imports of the reachability graph *)

Section MetadceProperties.

Context (settings : SettingsT) (user_requested_exports : list string).

Lemma strip_import_spec item item' :
  strip_import item = Ok item' →
  g_name item' = g_name item ∧ g_export item' = g_export item
  ∧ g_root item' = g_root item ∧ g_reaches item' = g_reaches item
  ∧ g_import item' =
      (fun imp => (imp.1, strip_underscore imp.2)) <$> g_import item.
Proof.
  unfold strip_import.
  destruct (g_import item) as [[module name]|] eqn:Himp.
  - destruct name as [|c name']; [done|].
    destruct (Ascii.eqb c "_"%char) eqn:Hc; intros [= <-]; simpl;
      rewrite ?Himp; simpl; split_and!; try done.
    + apply Ascii.eqb_eq in Hc. by subst c.
    + by destruct c as [[] [] [] [] [] [] [] []].
  - intros [= <-]. by rewrite Himp.
Qed.

Lemma strip_imports_lookup graph : ∀ graph',
  strip_imports graph = Ok graph' →
  length graph' = length graph
  ∧ ∀ i item, graph !! i = Some item →
      ∃ item', graph' !! i = Some item' ∧ strip_import item = Ok item'.
Proof.
  induction graph as [|item0 graph IH]; intros graph'; simpl.
  - intros [= <-]. split; [done|]. intros i item. by rewrite lookup_nil.
  - intros (item0' & H0 & (rest' & Hrest & [= <-])%bind_Ok)%bind_Ok.
    destruct (IH _ Hrest) as [Hlen Hlook]. split; [simpl; by rewrite Hlen|].
    intros [|i] item; simpl.
    + intros [= <-]. eauto.
    + apply Hlook.
Qed.

Lemma mark_root_spec item :
  let item' := mark_root settings user_requested_exports item in
  g_name item' = g_name item ∧ g_export item' = g_export item
  ∧ g_import item' = g_import item ∧ g_reaches item' = g_reaches item
  ∧ g_root item' =
      match g_export item with
      | Some export =>
          if bool_decide (export_key settings export ∈ user_requested_exports)
             || EXPORT_ALL settings
          then Some true else g_root item
      | None => g_root item
      end.
Proof.
  unfold mark_root. destruct (g_export item) as [export|] eqn:He;
    [destruct (_ || _)|]; simpl; by rewrite ?He.
Qed.

End MetadceProperties.

(** C9, as the specification states it, fails: an export node that the
    glue code has already made a root stays a root, although its name is
    not among the requested exports under either naming convention and
    [EXPORT_ALL] is off. *)
Lemma existing_root_is_kept :
  let item := mkGraphItem "emcc$export$helper" (Some "helper") None
                (Some true) [] in
  metadce_graph (mkSettings ["_main"] false false) ["_main"] [item]
  = Ok [item]
  ∧ metadce_graph (mkSettings ["_main"] true false) ["_main"] [item]
    = Ok [item]
  ∧ g_root item = Some true
  ∧ ("helper" ∉ ["_main"]) ∧ ("_helper" ∉ ["_main"]).
Proof.
  intros item. split_and!; [done..| |];
    by intros ?%list_elem_of_singleton.
Qed.

(** C9, amended.  In the graph that [metadce] builds from the DCE graph of
    the glue code, an export node is a root exactly when the glue code had
    already made it one, or its export name, written in the naming
    convention of the active backend (with the underscore prefix put back
    for the wasm backend, unchanged for the other one), is among the
    exports the program requested, or [EXPORT_ALL] is set; the root mark of
    a node that is not made a root, and of a node without an export, is
    left as it was.  The name of every import edge is likewise normalised
    for the wasm backend, by dropping its leading underscore, and left
    alone for the other backend.  Nothing else of a node changes. *)
Theorem metadce_roots_and_imports (settings : SettingsT)
    (user_requested_exports : list string) (graph graph' : list GraphItem) :
  metadce_graph settings user_requested_exports graph = Ok graph' →
  length graph' = length graph
  ∧ ∀ i item, graph !! i = Some item →
      ∃ item', graph' !! i = Some item'
        ∧ g_name item' = g_name item
        ∧ g_export item' = g_export item
        ∧ g_reaches item' = g_reaches item
        ∧ (∀ export, g_export item = Some export →
             let requested :=
               (if WASM_BACKEND settings then "_" +:+ export else export)
                 ∈ user_requested_exports
               ∨ EXPORT_ALL settings = true in
             (g_root item' = Some true ↔ g_root item = Some true ∨ requested)
             ∧ (¬ requested → g_root item' = g_root item))
        ∧ (g_export item = None → g_root item' = g_root item)
        ∧ (g_import item = None → g_import item' = None)
        ∧ (∀ module name, g_import item = Some (module, name) →
             g_import item' =
               Some (module, if WASM_BACKEND settings
                             then strip_underscore name else name)).
Proof.
  unfold metadce_graph. intros Hrun.
  assert (∀ item : GraphItem,
    let item1 := mark_root settings user_requested_exports item in
    (∀ export, g_export item = Some export →
       let requested :=
         (if WASM_BACKEND settings then "_" +:+ export else export)
           ∈ user_requested_exports
         ∨ EXPORT_ALL settings = true in
       (g_root item1 = Some true ↔ g_root item = Some true ∨ requested)
       ∧ (¬ requested → g_root item1 = g_root item))
    ∧ (g_export item = None → g_root item1 = g_root item)) as Hroot.
  { intros item item1.
    destruct (mark_root_spec settings user_requested_exports item)
      as (_ & _ & _ & _ & Hr). fold item1 in Hr.
    split.
    - intros export Hex requested. subst requested.
      rewrite Hr, Hex. unfold export_key.
      case_bool_decide as Hin; destruct (EXPORT_ALL settings); simpl;
        naive_solver.
    - intros Hex. by rewrite Hr, Hex. }
  destruct (WASM_BACKEND settings) eqn:Hbackend.
  - apply strip_imports_lookup in Hrun as [Hlen Hlook].
    rewrite length_fmap in Hlen. split; [done|].
    intros i item Hi.
    destruct (Hlook i (mark_root settings user_requested_exports item))
      as (item' & Hi' & Hstrip); [by rewrite list_lookup_fmap, Hi|].
    apply strip_import_spec in Hstrip as (Hn & He & Hr & Hre & Himp).
    destruct (mark_root_spec settings user_requested_exports item)
      as (Hn1 & He1 & Hi1 & Hre1 & _).
    destruct (Hroot item) as [Hroot1 Hroot2].
    exists item'. rewrite Hn, He, Hr, Hre, Hn1, He1, Hre1.
    split_and!; try done.
    + intros Hnone. by rewrite Himp, Hi1, Hnone.
    + intros module name Hitem. by rewrite Himp, Hi1, Hitem.
  - injection Hrun as <-. rewrite length_fmap. split; [done|].
    intros i item Hi.
    destruct (mark_root_spec settings user_requested_exports item)
      as (Hn1 & He1 & Hi1 & Hre1 & _).
    destruct (Hroot item) as [Hroot1 Hroot2].
    eexists. split; [by rewrite list_lookup_fmap, Hi|].
    split_and!; try done.
    + intros Hnone. by rewrite Hi1.
    + intros module name Hitem. by rewrite Hi1.
Qed.

Lemma metadce_roots_and_imports_witness :
  let settings := mkSettings ["_main"] true false in
  let graph :=
    [mkGraphItem "emcc$export$main" (Some "main") None None [];
     mkGraphItem "emcc$export$helper" (Some "helper") None None [];
     mkGraphItem "emcc$export$used" (Some "used") None (Some true) [];
     mkGraphItem "emcc$import$puts" None (Some ("env", "_puts")) None []] in
  let graph' :=
    [mkGraphItem "emcc$export$main" (Some "main") None (Some true) [];
     mkGraphItem "emcc$export$helper" (Some "helper") None None [];
     mkGraphItem "emcc$export$used" (Some "used") None (Some true) [];
     mkGraphItem "emcc$import$puts" None (Some ("env", "puts")) None []] in
  metadce_graph settings ["_main"] graph = Ok graph'
  ∧ length graph' = length graph
  ∧ ∀ i item, graph !! i = Some item →
      ∃ item', graph' !! i = Some item'
        ∧ g_name item' = g_name item
        ∧ g_export item' = g_export item
        ∧ g_reaches item' = g_reaches item
        ∧ (∀ export, g_export item = Some export →
             let requested :=
               (if WASM_BACKEND settings then "_" +:+ export else export)
                 ∈ ["_main"]
               ∨ EXPORT_ALL settings = true in
             (g_root item' = Some true ↔ g_root item = Some true ∨ requested)
             ∧ (¬ requested → g_root item' = g_root item))
        ∧ (g_export item = None → g_root item' = g_root item)
        ∧ (g_import item = None → g_import item' = None)
        ∧ (∀ module name, g_import item = Some (module, name) →
             g_import item' =
               Some (module, if WASM_BACKEND settings
                             then strip_underscore name else name)).
Proof.
  intros settings graph graph'. split; [reflexivity|].
  exact (metadce_roots_and_imports settings ["_main"] graph graph' eq_refl).
Defined.

(** ** One object: [consider_object] *)

Section ConsiderObject.

Context (w : World).

(** The three ways [consider_object] returns. *)
Lemma consider_object_Ok f force st added st' :
  consider_object w f force st = Ok (added, st') →
  (added = false ∧ ¬ valid_object w f ∧ ∃ msg, st' = warn msg st)
  ∨ (added = false ∧ valid_object w f ∧ st' = st ∧ force = false
     ∧ unresolved_symbols st ## provided_by (llvm_nm w f))
  ∨ (added = true ∧ valid_object w f ∧ st' = add_object f (llvm_nm w f) st
     ∧ (force = true ∨ ¬ unresolved_symbols st ## provided_by (llvm_nm w f))).
Proof.
  unfold consider_object, valid_object.
  destruct (is_valid_for_nm (llvm_nm w f)) eqn:Hvalid; simpl.
  - destruct (is_bitcode w f) as [[]|e] eqn:Hbc; simpl; [| |done].
    + destruct force; simpl.
      * intros [= <- <-]. right. right. split_and!; eauto.
      * case_bool_decide as Hdisj; simpl; intros [= <- <-].
        -- right. left. split_and!; eauto.
        -- right. right. split_and!; eauto.
    + intros [= <- <-]. left. split_and!; [done| |eauto].
      intros [_ [=]].
  - intros [= <- <-]. left. split_and!; [done| |eauto]. intros [[=] _].
Qed.

Lemma consider_object_Err f force st e :
  consider_object w f force st = Err e → is_bitcode w f = Err e.
Proof.
  unfold consider_object.
  destruct (is_valid_for_nm (llvm_nm w f)); simpl; [|done].
  destruct (is_bitcode w f) as [[]|e']; simpl; [|done|congruence].
  by destruct (_ || _).
Qed.

Lemma is_bitcode_fuel f : is_bitcode w f ≠ Err OutOfFuel.
Proof.
  unfold is_bitcode. repeat case_match; done.
Qed.

Lemma consider_object_fuel f force st :
  consider_object w f force st ≠ Err OutOfFuel.
Proof. intros H%consider_object_Err. by eapply is_bitcode_fuel. Qed.

(** The symbol tables after an object is added. *)
Lemma add_object_disjoint f info st :
  unresolved_symbols st ## resolved_symbols st →
  unresolved_symbols (add_object f info st)
    ## resolved_symbols (add_object f info st).
Proof. unfold add_object. simpl. set_solver. Qed.

End ConsiderObject.

(** ** Invariants of a run

    A property of the state that the steps of the scan keep is kept by the
    whole scan, whenever it returns. *)

Section Invariant.

Context (w : World) (force_add_all : bool).
Context (P : LinkState → Prop).
Context (P_object : ∀ f force st added st',
           P st → consider_object w f force st = Ok (added, st') → P st').
Context (P_member : ∀ content st st',
           P st →
           consider_object w content force_add_all st = Ok (true, st') →
           P (add_content content st')).
Context (P_group : ∀ g st, P st → P (set_group g st)).
Context (P_append : ∀ f st, P st → P (append_file f st)).

Lemma consider_archive_pass_inv contents : ∀ loop_again st again st',
  P st →
  consider_archive_pass w force_add_all contents loop_again st = Ok (again, st') →
  P st'.
Proof.
  induction contents as [|content rest IH]; intros loop_again st again st' HP;
    simpl.
  - by intros [= _ <-].
  - case_bool_decide; [by apply IH|].
    intros ([added st1] & Hobj & Hrest)%bind_Ok.
    destruct added; eapply IH; try exact Hrest; eauto.
Qed.

Lemma consider_archive_loop_inv fuel contents : ∀ added_any st added st',
  P st →
  consider_archive_loop w force_add_all fuel contents added_any st
    = Ok (added, st') →
  P st'.
Proof.
  induction fuel as [|fuel IH]; intros added_any st added st' HP; simpl;
    [done|].
  intros ([again st1] & Hpass & Hrest)%bind_Ok.
  apply consider_archive_pass_inv in Hpass; [|done].
  destruct again; [by eapply IH|]. by injection Hrest as _ <-.
Qed.

Lemma consider_archive_inv f st added st' :
  P st → consider_archive w force_add_all f st = Ok (added, st') → P st'.
Proof. unfold consider_archive. apply consider_archive_loop_inv. Qed.

Lemma scan_group_pass_inv group : ∀ loop_again st again st',
  P st →
  scan_group_pass w force_add_all group loop_again st = Ok (again, st') →
  P st'.
Proof.
  induction group as [|archive rest IH]; intros loop_again st again st' HP;
    simpl.
  - by intros [= _ <-].
  - intros ([added st1] & Har & Hrest)%bind_Ok.
    eapply IH; [|exact Hrest]. by eapply consider_archive_inv.
Qed.

Lemma scan_group_loop_inv fuel group : ∀ st st',
  P st → scan_group_loop w force_add_all fuel group st = Ok st' → P st'.
Proof.
  induction fuel as [|fuel IH]; intros st st' HP; simpl; [done|].
  intros ([again st1] & Hpass & Hrest)%bind_Ok.
  apply scan_group_pass_inv in Hpass; [|done].
  destruct again; [by eapply IH|]. by injection Hrest as <-.
Qed.

Lemma scan_archive_group_inv group st st' :
  P st → scan_archive_group w force_add_all group st = Ok st' → P st'.
Proof. unfold scan_archive_group. apply scan_group_loop_inv. Qed.

Lemma link_input_inv has_ar f st st' :
  P st → link_input w force_add_all has_ar f st = Ok st' → P st'.
Proof.
  intros HP. unfold link_input.
  destruct (Str.startswith_dash f).
  - repeat case_bool_decide.
    + destruct (current_archive_group st); [done|]. intros [= <-]. eauto.
    + destruct (current_archive_group st) as [group|]; [|done].
      intros (st1 & Hscan & [= <-])%bind_Ok.
      apply P_group. by eapply scan_archive_group_inv.
    + done.
  - destruct (is_ar w (make_paths_absolute w f)); simpl.
    + intros ([added st1] & Har & Hrest)%bind_Ok.
      apply consider_archive_inv in Har; [|done].
      destruct (current_archive_group st1); injection Hrest as <-; eauto.
    + intros (bitcode & _ & Hrest)%bind_Ok.
      destruct bitcode; [|by injection Hrest as <-].
      destruct has_ar; [|injection Hrest as <-; eauto].
      apply bind_Ok in Hrest as ([added st1] & Hobj & [= <-]). eauto.
Qed.

Lemma link_inputs_inv has_ar files : ∀ st st',
  P st → link_inputs w force_add_all has_ar files st = Ok st' → P st'.
Proof.
  induction files as [|f rest IH]; intros st st' HP; simpl.
  - by intros [= <-].
  - intros (st1 & Hin & Hrest)%bind_Ok.
    eapply IH; [|exact Hrest]. by eapply link_input_inv.
Qed.

End Invariant.

(** ** Termination of the rescans *)

Section Termination.

Context (w : World) (force_add_all : bool).

Lemma size_list_to_set_le (l : list string) :
  size (list_to_set l : gset string) ≤ length l.
Proof.
  induction l as [|x l IH]; [by rewrite list_to_set_nil, size_empty|].
  rewrite list_to_set_cons. cbn [length].
  rewrite size_union_alt, size_singleton.
  assert (size (list_to_set l ∖ {[x]} : gset string)
          ≤ size (list_to_set l : gset string)) as Hsub
    by (apply subseteq_size; set_solver).
  lia.
Qed.

Lemma pending_le members st : pending members st ≤ length members.
Proof.
  unfold pending. etrans; [|apply size_list_to_set_le].
  apply subseteq_size. set_solver.
Qed.

Lemma pending_decreases members st st' :
  grows members st st' → added_contents st' ≠ added_contents st →
  pending members st' < pending members st.
Proof.
  intros [Hsub Hbound] Hne. unfold pending. apply subset_size.
  assert (∃ m, m ∈ added_contents st' ∧ (m ∉ added_contents st))
    as (m & Hin & Hnin).
  { destruct (decide (added_contents st' ⊆ added_contents st)) as [Hle|Hnle].
    - destruct Hne. set_solver.
    - apply (not_set_Forall_Exists _) in Hnle as (m & ? & ?). eauto. }
  split; [set_solver|]. intros Hsup.
  assert (m ∈ (list_to_set members ∖ added_contents st : gset string))
    as Hm by set_solver.
  apply Hsup in Hm. set_solver.
Qed.

Lemma grows_refl members st : grows members st st.
Proof. unfold grows. set_solver. Qed.

Lemma grows_trans members st1 st2 st3 :
  grows members st1 st2 → grows members st2 st3 → grows members st1 st3.
Proof. unfold grows. set_solver. Qed.

Lemma grows_weaken members members' st st' :
  (∀ m, m ∈ members → m ∈ members') →
  grows members st st' → grows members' st st'.
Proof. unfold grows. intros Hm. set_solver. Qed.

Lemma consider_object_added f force st added st' :
  consider_object w f force st = Ok (added, st') →
  added_contents st' = added_contents st.
Proof.
  intros [(_ & _ & msg & ->)|[(_ & _ & -> & _)|(_ & _ & -> & _)]]%consider_object_Ok;
    done.
Qed.

(** One traversal of an archive: either it changes nothing and leaves the
    flag as it was, or it raises the flag and puts a member that was not
    considered before into [added_contents]. *)
Lemma consider_archive_pass_spec contents : ∀ loop_again st again st',
  consider_archive_pass w force_add_all contents loop_again st
    = Ok (again, st') →
  grows contents st st'
  ∧ ((again = loop_again ∧ added_contents st' = added_contents st)
     ∨ (again = true
        ∧ ∃ m, m ∈ contents ∧ (m ∉ added_contents st) ∧ m ∈ added_contents st')).
Proof.
  induction contents as [|content rest IH]; intros loop_again st again st';
    simpl.
  - intros [= <- <-]. split; [apply grows_refl|by left].
  - case_bool_decide as Hin.
    + intros [Hg Hcases]%IH. split.
      * eapply grows_weaken; [|done]. intros m. apply list_elem_of_further.
      * destruct Hcases as [?|(-> & m & ? & ? & ?)]; [by left|].
        right. split; [done|]. exists m. split_and!; [by right|done..].
    + intros ([added st1] & Hobj & Hrest)%bind_Ok.
      apply consider_object_added in Hobj as Hsame.
      destruct added.
      * apply IH in Hrest as [[Hg1 Hg2] Hcases]. simpl in Hg1, Hg2.
        rewrite Hsame in Hg1, Hg2. split.
        -- unfold grows. rewrite list_to_set_cons. set_solver.
        -- right. split; [by destruct Hcases as [[-> _]|[-> _]]|].
           exists content. split_and!; [by left|done|set_solver].
      * apply IH in Hrest as [[Hg1 Hg2] Hcases]. rewrite Hsame in Hg1, Hg2.
        split.
        -- unfold grows. rewrite list_to_set_cons. set_solver.
        -- rewrite Hsame in Hcases.
           destruct Hcases as [?|(-> & m & ? & ? & ?)]; [by left|].
           right. split; [done|]. exists m. split_and!; [by right|done..].
Qed.

Lemma consider_archive_pass_changes contents st st' :
  consider_archive_pass w force_add_all contents false st = Ok (true, st') →
  added_contents st' ≠ added_contents st.
Proof.
  intros [_ [[[=] _]|(_ & m & _ & Hnin & Hin)]]%consider_archive_pass_spec.
  intros Heq. by rewrite Heq in Hin.
Qed.

Lemma consider_archive_pass_fuel contents : ∀ loop_again st,
  consider_archive_pass w force_add_all contents loop_again st ≠ Err OutOfFuel.
Proof.
  induction contents as [|content rest IH]; intros loop_again st; simpl;
    [done|].
  case_bool_decide; [apply IH|].
  intros [Hobj|([[] st1] & _ & Hrest)]%bind_Err.
  - by eapply consider_object_fuel.
  - by eapply IH.
  - by eapply IH.
Qed.

(** The loop over an archive returns as soon as its fuel exceeds the number
    of members still pending. *)
Lemma consider_archive_loop_fuel contents fuel : ∀ added_any st,
  pending contents st < fuel →
  consider_archive_loop w force_add_all fuel contents added_any st
    ≠ Err OutOfFuel.
Proof.
  induction fuel as [|fuel IH]; intros added_any st Hfuel; [lia|]. simpl.
  intros [Hpass|([again st1] & Hpass & Hrest)]%bind_Err.
  - by eapply consider_archive_pass_fuel.
  - destruct again; [|done].
    apply consider_archive_pass_spec in Hpass as Hg. destruct Hg as [Hg _].
    apply consider_archive_pass_changes in Hpass.
    pose proof (pending_decreases contents st st1 Hg Hpass).
    eapply IH; [|exact Hrest]. lia.
Qed.

(** More fuel than needed does not change the result. *)
Lemma consider_archive_loop_more contents fuel : ∀ added_any st extra,
  consider_archive_loop w force_add_all fuel contents added_any st
    ≠ Err OutOfFuel →
  consider_archive_loop w force_add_all (fuel + extra) contents added_any st
  = consider_archive_loop w force_add_all fuel contents added_any st.
Proof.
  induction fuel as [|fuel IH]; intros added_any st extra; simpl; [done|].
  destruct (consider_archive_pass w force_add_all contents false st)
    as [[[] st1]|e]; simpl; [|done..].
  apply IH.
Qed.

Lemma consider_archive_loop_spec contents fuel : ∀ added_any st added st',
  consider_archive_loop w force_add_all fuel contents added_any st
    = Ok (added, st') →
  grows contents st st'
  ∧ ((added = added_any ∧ added_contents st' = added_contents st)
     ∨ (added = true ∧ added_contents st' ≠ added_contents st)).
Proof.
  induction fuel as [|fuel IH]; intros added_any st added st'; simpl; [done|].
  intros ([again st1] & Hpass & Hrest)%bind_Ok.
  apply consider_archive_pass_spec in Hpass as Hg. destruct Hg as [Hg Hcases].
  destruct again.
  - apply consider_archive_pass_changes in Hpass.
    apply IH in Hrest as [Hg' Hcases']. split; [by eapply grows_trans|].
    right. split; [by destruct Hcases' as [[-> _]|[-> _]]|].
    intros Heq. destruct Hg as [Hg1 _], Hg' as [Hg1' _].
    apply Hpass. set_solver.
  - injection Hrest as <- <-. split; [done|]. left.
    by destruct Hcases as [[_ ->]|[[=] _]].
Qed.

Lemma consider_archive_fuel f st :
  consider_archive w force_add_all f st ≠ Err OutOfFuel.
Proof.
  apply consider_archive_loop_fuel.
  pose proof (pending_le (ar_contents w f) st). lia.
Qed.

Lemma group_members_cons archive rest :
  group_members w (archive :: rest)
  = ar_contents w archive ++ group_members w rest.
Proof. done. Qed.

(** One traversal of a group. *)
Lemma scan_group_pass_spec group : ∀ loop_again st again st',
  scan_group_pass w force_add_all group loop_again st = Ok (again, st') →
  grows (group_members w group) st st'
  ∧ ((again = loop_again ∧ added_contents st' = added_contents st)
     ∨ (again = true ∧ added_contents st' ≠ added_contents st)).
Proof.
  induction group as [|archive rest IH]; intros loop_again st again st';
    simpl.
  - intros [= <- <-]. split; [apply grows_refl|by left].
  - intros ([added st1] & Har & Hrest)%bind_Ok.
    apply consider_archive_loop_spec in Har as [Hg1 Hc1].
    apply IH in Hrest as [Hg2 Hc2].
    rewrite group_members_cons. split.
    + eapply grows_trans; (eapply grows_weaken; [|done]);
        intros m; rewrite elem_of_app; eauto.
    + destruct Hc1 as [[-> Hsame]|[-> Hne]].
      * rewrite Hsame in Hc2. destruct Hc2 as [?|?]; [by left|by right].
      * right. split; [by destruct Hc2 as [[-> _]|[-> _]]|].
        intros Heq. destruct Hg1 as [Hg1 _], Hg2 as [Hg2 _].
        apply Hne. set_solver.
Qed.

Lemma scan_group_pass_fuel group : ∀ loop_again st,
  scan_group_pass w force_add_all group loop_again st ≠ Err OutOfFuel.
Proof.
  induction group as [|archive rest IH]; intros loop_again st; simpl; [done|].
  intros [Har|([added st1] & _ & Hrest)]%bind_Err.
  - by eapply consider_archive_fuel.
  - by eapply IH.
Qed.

Lemma scan_group_loop_fuel group fuel : ∀ st,
  pending (group_members w group) st < fuel →
  scan_group_loop w force_add_all fuel group st ≠ Err OutOfFuel.
Proof.
  induction fuel as [|fuel IH]; intros st Hfuel; [lia|]. simpl.
  intros [Hpass|([again st1] & Hpass & Hrest)]%bind_Err.
  - by eapply scan_group_pass_fuel.
  - destruct again; [|done].
    apply scan_group_pass_spec in Hpass as [Hg [[[=] _]|[_ Hne]]].
    pose proof (pending_decreases _ st st1 Hg Hne).
    eapply IH; [|exact Hrest]. lia.
Qed.

Lemma scan_group_loop_more group fuel : ∀ st extra,
  scan_group_loop w force_add_all fuel group st ≠ Err OutOfFuel →
  scan_group_loop w force_add_all (fuel + extra) group st
  = scan_group_loop w force_add_all fuel group st.
Proof.
  induction fuel as [|fuel IH]; intros st extra; simpl; [done|].
  destruct (scan_group_pass w force_add_all group false st)
    as [[[] st1]|e]; simpl; [|done..].
  apply IH.
Qed.

Lemma scan_group_loop_spec group fuel : ∀ st st',
  scan_group_loop w force_add_all fuel group st = Ok st' →
  grows (group_members w group) st st'.
Proof.
  induction fuel as [|fuel IH]; intros st st'; simpl; [done|].
  intros ([again st1] & [Hg _]%scan_group_pass_spec & Hrest)%bind_Ok.
  destruct again.
  - eapply grows_trans; [done|]. by apply IH.
  - by injection Hrest as <-.
Qed.

Lemma scan_archive_group_fuel group st :
  scan_archive_group w force_add_all group st ≠ Err OutOfFuel.
Proof.
  apply scan_group_loop_fuel.
  pose proof (pending_le (group_members w group) st). lia.
Qed.

End Termination.

(** C7.  The two rescan loops return.  A traversal of an archive either
    leaves [added_contents] as it was, and then the loop stops, or puts into
    it at least one member of the archive that was not there before; the
    same holds for a traversal of a group.  [added_contents] only grows, and
    only by members of the archive (of the archives of the group), so the
    number of traversals is bounded by the number of members: with any fuel
    above that number the loops do not run out of fuel, and their result is
    the one obtained with the fuel that [consider_archive] and
    [scan_archive_group] give them. *)
Theorem rescan_loops_terminate (w : World) (force_add_all : bool) :
  (∀ contents fuel added_any st,
     length contents < fuel →
     consider_archive_loop w force_add_all fuel contents added_any st
       ≠ Err OutOfFuel
     ∧ consider_archive_loop w force_add_all fuel contents added_any st
       = consider_archive_loop w force_add_all (S (length contents)) contents
           added_any st)
  ∧ (∀ group fuel st,
       length (group_members w group) < fuel →
       scan_group_loop w force_add_all fuel group st ≠ Err OutOfFuel
       ∧ scan_group_loop w force_add_all fuel group st
         = scan_archive_group w force_add_all group st)
  ∧ (∀ contents st again st',
       consider_archive_pass w force_add_all contents false st
         = Ok (again, st') →
       grows contents st st'
       ∧ if again
         then ∃ m, m ∈ contents ∧ (m ∉ added_contents st)
                   ∧ m ∈ added_contents st'
         else added_contents st' = added_contents st)
  ∧ (∀ group st again st',
       scan_group_pass w force_add_all group false st = Ok (again, st') →
       grows (group_members w group) st st'
       ∧ if again
         then added_contents st' ≠ added_contents st
         else added_contents st' = added_contents st).
Proof.
  split_and!.
  - intros contents fuel added_any st Hfuel.
    assert (consider_archive_loop w force_add_all (S (length contents))
              contents added_any st ≠ Err OutOfFuel) as Hret.
    { apply consider_archive_loop_fuel.
      pose proof (pending_le contents st). lia. }
    replace fuel with (S (length contents) + (fuel - S (length contents)))
      by lia.
    rewrite consider_archive_loop_more by done. done.
  - intros group fuel st Hfuel.
    pose proof (scan_archive_group_fuel w force_add_all group st) as Hret.
    unfold scan_archive_group in *.
    replace fuel with (S (length (group_members w group))
                       + (fuel - S (length (group_members w group)))) by lia.
    rewrite scan_group_loop_more by done. done.
  - intros contents st again st' [Hg Hcases]%consider_archive_pass_spec.
    split; [done|].
    destruct again; destruct Hcases as [[? ?]|[? ?]]; done.
  - intros group st again st' [Hg Hcases]%scan_group_pass_spec.
    split; [done|].
    destruct again; destruct Hcases as [[? ?]|[? ?]]; done.
Qed.

Lemma rescan_loops_terminate_witness :
  let w := SampleLink.world in
  let st := initial_state (SampleLink.exports ["_g"]) in
  let contents := ar_contents w "/src/libmix.a" in
  length contents < 7
  ∧ consider_archive_loop w true 7 contents false st ≠ Err OutOfFuel
  ∧ consider_archive_loop w true 7 contents false st
    = consider_archive_loop w true (S (length contents)) contents false st.
Proof.
  intros w st contents.
  assert (length contents < 7) as Hfuel by (vm_compute; lia).
  split; [done|].
  exact (proj1 (rescan_loops_terminate w true) contents 7 false st Hfuel).
Defined.

(** ** The symbol tables of a run *)

Lemma consider_object_tables (w : World) f force st added st' :
  consider_object w f force st = Ok (added, st') →
  (added = false ∧ unresolved_symbols st' = unresolved_symbols st
   ∧ resolved_symbols st' = resolved_symbols st
   ∧ actual_files st' = actual_files st)
  ∨ (added = true
     ∧ resolved_symbols st'
       = resolved_symbols st ∪ provided_by (llvm_nm w f)
     ∧ unresolved_symbols st'
       = (unresolved_symbols st
          ∪ (undefs (llvm_nm w f) ∖ resolved_symbols st'))
         ∖ provided_by (llvm_nm w f)
     ∧ actual_files st' = actual_files st ++ [f]).
Proof.
  intros [(-> & _ & msg & ->)|[(-> & _ & -> & _)|(-> & _ & -> & _)]]%consider_object_Ok;
    [by left|by left|by right].
Qed.

Lemma consider_object_disjoint (w : World) f force st added st' :
  tables_disjoint st →
  consider_object w f force st = Ok (added, st') →
  tables_disjoint st'.
Proof.
  unfold tables_disjoint.
  intros Hd [(_ & -> & -> & _)|(_ & Hr & -> & _)]%consider_object_tables;
    [done|].
  rewrite Hr. set_solver.
Qed.

(** C10.  A run starts with [unresolved_symbols] equal to the root exports
    and [resolved_symbols] empty.  Every [consider_object] step keeps the two
    sets disjoint and never shrinks [resolved_symbols]; a step that adds the
    object unions the symbols it provides into [resolved_symbols], then adds
    its undefined symbols that are not resolved to [unresolved_symbols], then
    removes the provided ones from [unresolved_symbols].  So the two sets are
    disjoint in the state that the scan of a whole command line ends in. *)
Theorem resolution_tables_disjoint (w : World) (settings : SettingsT) :
  unresolved_symbols (initial_state settings) = root_symbols settings
  ∧ resolved_symbols (initial_state settings) = ∅
  ∧ tables_disjoint (initial_state settings)
  ∧ (∀ f force st added st',
       tables_disjoint st →
       consider_object w f force st = Ok (added, st') →
       tables_disjoint st'
       ∧ resolved_symbols st ⊆ resolved_symbols st'
       ∧ (added = true →
          resolved_symbols st'
          = resolved_symbols st ∪ provided_by (llvm_nm w f)
          ∧ unresolved_symbols st'
            = (unresolved_symbols st
               ∪ (undefs (llvm_nm w f) ∖ resolved_symbols st'))
              ∖ provided_by (llvm_nm w f)))
  ∧ (∀ files force_archive_contents st,
       link_scan w settings files force_archive_contents = Ok st →
       tables_disjoint st).
Proof.
  split_and!; try done.
  - intros f force st added st' Hd Hobj. split_and!.
    + by eapply consider_object_disjoint.
    + apply consider_object_tables in Hobj
        as [(_ & _ & -> & _)|(_ & -> & _)]; set_solver.
    + intros ->.
      by apply consider_object_tables in Hobj
        as [([=] & _)|(_ & -> & -> & _)].
  - intros files force_archive_contents st. unfold link_scan.
    intros (_ & _ & (st1 & Hscan & Hend)%bind_Ok)%bind_Ok.
    assert (tables_disjoint st1) as Hd1.
    { eapply (link_inputs_inv w _ tables_disjoint); [..|exact Hscan];
        try done; try (intros; by eapply consider_object_disjoint).
      intros content st0 st0' Hd Hobj.
      by apply (consider_object_disjoint _ _ _ _ _ _ Hd Hobj). }
    destruct (current_archive_group st1) as [[|a g]|];
      [by injection Hend as <-| |by injection Hend as <-].
    apply bind_Ok in Hend as (st2 & Hgroup & [= <-]).
    cut (tables_disjoint st2); [done|].
    eapply (scan_archive_group_inv w _ tables_disjoint); [..|exact Hgroup];
      try done; try (intros; by eapply consider_object_disjoint).
    intros content st0 st0' Hd Hobj.
    by apply (consider_object_disjoint _ _ _ _ _ _ Hd Hobj).
Qed.

(** ** The final list: [unique_ordered] *)

Lemma unique_ordered_from_spec values : ∀ seen,
  NoDup (unique_ordered_from seen values)
  ∧ ∀ x, x ∈ unique_ordered_from seen values ↔ x ∈ values ∧ (x ∉ seen).
Proof.
  induction values as [|value rest IH]; intros seen; simpl.
  - split; [constructor|]. intros x. rewrite elem_of_nil. naive_solver.
  - case_bool_decide as Hseen.
    + destruct (IH seen) as [Hnd Hin]. split; [done|].
      intros x. rewrite Hin, elem_of_cons. naive_solver.
    + destruct (IH ({[value]} ∪ seen)) as [Hnd Hin]. split.
      * constructor; [|done]. rewrite Hin. set_solver.
      * intros x. rewrite !elem_of_cons, Hin.
        destruct (decide (x = value)) as [->|Hne]; [naive_solver|].
        set_solver.
Qed.

Lemma unique_ordered_elem_of values x :
  x ∈ unique_ordered values ↔ x ∈ values.
Proof.
  unfold unique_ordered.
  destruct (unique_ordered_from_spec values ∅) as [_ ->]. set_solver.
Qed.

Lemma unique_ordered_NoDup values : NoDup (unique_ordered values).
Proof. apply unique_ordered_from_spec. Qed.

Lemma unique_ordered_from_id values : ∀ seen,
  NoDup values → (∀ x, x ∈ values → x ∉ seen) →
  unique_ordered_from seen values = values.
Proof.
  induction values as [|value rest IH]; intros seen Hnd Hseen; simpl; [done|].
  apply NoDup_cons in Hnd as [Hnin Hnd].
  rewrite bool_decide_false by (apply Hseen; by left).
  f_equal. apply IH; [done|]. intros x Hx.
  specialize (Hseen x (list_elem_of_further _ _ _ Hx)). set_solver.
Qed.

Lemma unique_ordered_id values : NoDup values → unique_ordered values = values.
Proof. intros. apply unique_ordered_from_id; [done|]. set_solver. Qed.

(** ** A command line without archives *)

Section NoArchive.

Context (w : World) (force_add_all : bool).

Lemma compute_has_ar_false files :
  compute_has_ar w files = false → ∀ f, f ∈ files → not_archive w f.
Proof.
  unfold compute_has_ar, not_archive.
  assert (∀ acc, foldl (fun has_ar f =>
             if negb (Str.startswith_dash f)
             then has_ar || is_ar w (make_paths_absolute w f) else has_ar)
            acc files = false →
          acc = false
          ∧ ∀ f, f ∈ files → Str.startswith_dash f = false →
                 is_ar w (make_paths_absolute w f) = false) as Hgen.
  { induction files as [|f0 rest IH]; intros acc; simpl.
    - intros ->. split; [done|]. intros f. by rewrite elem_of_nil.
    - intros [Hacc Hrest]%IH.
      destruct (Str.startswith_dash f0) eqn:Hdash; simpl in Hacc.
      + split; [done|]. intros f [->|Hin]%elem_of_cons; [congruence|eauto].
      + apply orb_false_iff in Hacc as [-> Har]. split; [done|].
        intros f [->|Hin]%elem_of_cons; eauto. }
  intros H. by apply Hgen in H as [_ ?].
Qed.

Lemma scan_archive_group_nil w' st :
  scan_archive_group w' force_add_all [] st = Ok st.
Proof. done. Qed.

(** Without archives a step of the scan does not look at any symbol table. *)
Lemma link_input_no_archive_nm nm f st :
  group_idle st → not_archive w f →
  link_input (with_nm w nm) force_add_all false f st
  = link_input w force_add_all false f st.
Proof.
  intros Hidle Hnot. unfold link_input.
  change (make_paths_absolute (with_nm w nm) f)
    with (make_paths_absolute w f).
  change (is_ar (with_nm w nm)) with (is_ar w).
  change (is_bitcode (with_nm w nm)) with (is_bitcode w).
  destruct (Str.startswith_dash f) eqn:Hdash.
  - repeat case_bool_decide; try done.
    destruct Hidle as [->| ->]; [done|].
    by rewrite !scan_archive_group_nil.
  - by rewrite Hnot.
Qed.

Lemma link_input_no_archive f st st' :
  group_idle st → not_archive w f →
  link_input w force_add_all false f st = Ok st' →
  group_idle st'
  ∧ actual_files st'
    = actual_files st
      ++ (if negb (Str.startswith_dash f)
             && is_Ok_true (is_bitcode w (make_paths_absolute w f))
          then [f] else []).
Proof.
  intros Hidle Hnot. unfold link_input.
  destruct (Str.startswith_dash f) eqn:Hdash; simpl.
  - repeat case_bool_decide; try done.
    + destruct (current_archive_group st); [done|]. intros [= <-].
      split; [by right|]. simpl. by rewrite app_nil_r.
    + destruct Hidle as [->| ->]; [done|].
      rewrite scan_archive_group_nil. simpl. intros [= <-].
      split; [by left|]. simpl. by rewrite app_nil_r.
  - rewrite Hnot by done. simpl.
    destruct (is_bitcode w (make_paths_absolute w f)) as [[]|e]; simpl;
      [| |done]; intros [= <-]; (split; [done|]); simpl;
      by rewrite ?app_nil_r.
Qed.

Lemma link_inputs_no_archive files : ∀ st st',
  group_idle st → (∀ f, f ∈ files → not_archive w f) →
  link_inputs w force_add_all false files st = Ok st' →
  group_idle st'
  ∧ actual_files st' = actual_files st ++ bitcode_inputs w files.
Proof.
  induction files as [|f rest IH]; intros st st' Hidle Hnot; simpl.
  - intros [= <-]. split; [done|]. by rewrite app_nil_r.
  - intros (st1 & Hin & Hrest)%bind_Ok.
    apply link_input_no_archive in Hin as [Hidle1 Hfiles1];
      [|done|apply Hnot; by left].
    apply IH in Hrest as [Hidle' Hfiles'];
      [|done|intros; apply Hnot; by right].
    split; [done|]. rewrite Hfiles', Hfiles1, <- app_assoc. f_equal.
    unfold bitcode_inputs, non_flags. simpl.
    destruct (Str.startswith_dash f); simpl; [done|].
    by destruct (is_Ok_true _).
Qed.

Lemma link_inputs_no_archive_nm nm files : ∀ st,
  group_idle st → (∀ f, f ∈ files → not_archive w f) →
  link_inputs (with_nm w nm) force_add_all false files st
  = link_inputs w force_add_all false files st.
Proof.
  induction files as [|f rest IH]; intros st Hidle Hnot; simpl; [done|].
  rewrite link_input_no_archive_nm by (try done; apply Hnot; by left).
  destruct (link_input w force_add_all false f st) as [st1|e] eqn:Hin;
    simpl; [|done].
  apply link_input_no_archive in Hin as [Hidle1 _];
    [|done|apply Hnot; by left].
  apply IH; [done|]. intros; apply Hnot; by right.
Qed.

End NoArchive.

(** C3, as the specification states it, fails: a command line without
    archives that names the same object twice gives the object once, not
    the input list unchanged. *)
Lemma link_without_archives_deduplicates :
  let files := ["/src/main.o"; "/src/util.o"; "/src/main.o"] in
  compute_has_ar SampleLink.world files = false
  ∧ link SampleLink.world (SampleLink.exports ["_main"]) files false
    = Ok ["/src/main.o"; "/src/util.o"]
  ∧ link SampleLink.world (SampleLink.exports ["_main"]) files false
    ≠ Ok files.
Proof. by vm_compute. Qed.

(** C3, amended.  When no input is an archive and the link returns, its
    output is the list of the direct inputs that are bitcode files, in
    their original order, with every repetition of a name after its first
    occurrence dropped; so it is that list unchanged when no file is named
    twice.  No symbol table is looked at: the link gives the same result
    whatever [llvm-nm] answers. *)
Theorem link_without_archives (w : World) (settings : SettingsT)
    (files : list string) (force_archive_contents : bool) (out : list string) :
  compute_has_ar w files = false →
  link w settings files force_archive_contents = Ok out →
  out = unique_ordered (bitcode_inputs w files)
  ∧ (NoDup (bitcode_inputs w files) → out = bitcode_inputs w files)
  ∧ ∀ nm, link (with_nm w nm) settings files force_archive_contents = Ok out.
Proof.
  intros Hno Hlink.
  pose proof (compute_has_ar_false w files Hno) as Hnot.
  assert (Hidle0 : group_idle (initial_state settings)) by (by left).
  assert (∀ nm, link (with_nm w nm) settings files force_archive_contents
                = link w settings files force_archive_contents) as Hnm.
  { intros nm. unfold link, link_scan.
    change (compute_has_ar (with_nm w nm) files)
      with (compute_has_ar w files).
    change (read_link_inputs (with_nm w nm)) with (read_link_inputs w).
    rewrite Hno.
    destruct (read_link_inputs w (non_flags files)); simpl; [|done].
    rewrite link_inputs_no_archive_nm by done.
    destruct (link_inputs w _ false files (initial_state settings))
      as [st|e] eqn:Hscan; simpl; [|done].
    apply link_inputs_no_archive in Hscan as [[Hg|Hg] _]; try done;
      by rewrite Hg. }
  assert (out = unique_ordered (bitcode_inputs w files)) as Hout.
  { unfold link, link_scan in Hlink. rewrite Hno in Hlink.
    apply bind_Ok in Hlink as (st & Hst & [= <-]).
    apply bind_Ok in Hst as (_ & _ & (st1 & Hscan & Hend)%bind_Ok).
    apply link_inputs_no_archive in Hscan as [Hidle Hfiles]; try done.
    assert (st = st1) as ->
      by (destruct Hidle as [Hg|Hg]; rewrite Hg in Hend; congruence).
    by rewrite Hfiles. }
  split_and!; [done| |].
  - intros Hnd. rewrite Hout. by apply unique_ordered_id.
  - intros nm. by rewrite Hnm.
Qed.

Lemma link_without_archives_witness :
  let w := SampleLink.world in
  let settings := SampleLink.exports ["_main"] in
  let files := ["/src/util.o"; "--start-group"; "native.o"; "--end-group";
                "main.o"; "/src/util.o"] in
  let out := ["/src/util.o"; "main.o"] in
  compute_has_ar w files = false
  ∧ link w settings files false = Ok out
  ∧ out = unique_ordered (bitcode_inputs w files)
  ∧ (NoDup (bitcode_inputs w files) → out = bitcode_inputs w files)
  ∧ ∀ nm, link (with_nm w nm) settings files false = Ok out.
Proof.
  intros w settings files out.
  split; [by vm_compute|]. split; [by vm_compute|].
  apply (link_without_archives w settings files false out);
    by vm_compute.
Defined.

(** ** Objects that cannot be linked *)


(** ** Archives linked whole *)

Section WholeArchive.

Context (w : World).

Lemma consider_object_files f force st added st' x :
  consider_object w f force st = Ok (added, st') →
  x ∈ actual_files st → x ∈ actual_files st'.
Proof.
  intros [(_ & _ & _ & ->)|(_ & _ & _ & ->)]%consider_object_tables;
    [done|]. rewrite elem_of_app. by left.
Qed.

Lemma consider_object_added_file f force st st' :
  consider_object w f force st = Ok (true, st') → f ∈ actual_files st'.
Proof.
  intros [([=] & _)|(_ & _ & _ & ->)]%consider_object_tables.
  rewrite elem_of_app, list_elem_of_singleton. by right.
Qed.

Lemma keeps_object x f force st added st' :
  keeps x st → consider_object w f force st = Ok (added, st') → keeps x st'.
Proof.
  intros [Hinv Hx] Hobj. split.
  - intros m. rewrite (consider_object_added w _ _ _ _ _ Hobj).
    intros Hm. eapply consider_object_files; eauto.
  - intros y Hy. eapply consider_object_files; eauto.
Qed.

Lemma keeps_member x force content st st' :
  keeps x st → consider_object w content force st = Ok (true, st') →
  keeps x (add_content content st').
Proof.
  intros Hk Hobj. pose proof (keeps_object _ _ _ _ _ _ Hk Hobj) as [Hinv Hx].
  split; [|done]. intros m. simpl.
  intros [->%elem_of_singleton|Hm]%elem_of_union; [|by apply Hinv].
  by eapply consider_object_added_file.
Qed.

Lemma keeps_group x g st : keeps x st → keeps x (set_group g st).
Proof. done. Qed.

Lemma keeps_append x f st : keeps x st → keeps x (append_file f st).
Proof.
  intros [Hinv Hx]. split.
  - intros m Hm. simpl. rewrite elem_of_app. left. by apply Hinv.
  - intros y Hy. simpl. rewrite elem_of_app. left. by apply Hx.
Qed.

Lemma keeps_weaken x st : keeps x st → keeps None st.
Proof. intros [Hinv _]. split; [done|]. by intros y [=]. Qed.

Lemma keeps_found m st : keeps None st → m ∈ actual_files st → keeps (Some m) st.
Proof. intros [Hinv _] Hm. split; [done|]. by intros y [= <-]. Qed.

(** The first traversal of an archive that is linked whole takes every
    valid member. *)
Lemma consider_archive_pass_forced contents : ∀ loop_again st again st',
  keeps None st →
  consider_archive_pass w true contents loop_again st = Ok (again, st') →
  ∀ m, m ∈ contents → valid_object w m → m ∈ actual_files st'.
Proof.
  induction contents as [|content rest IH]; intros loop_again st again st' Hk;
    simpl.
  - intros _ m. by rewrite elem_of_nil.
  - case_bool_decide as Hin.
    + intros Hrest m [->|Hm]%elem_of_cons Hvalid; [|by eapply IH].
      assert (keeps (Some content) st) as Hk'
        by (apply keeps_found; [done|by apply (proj1 Hk)]).
      eapply (consider_archive_pass_inv w true (keeps (Some content)))
        in Hrest as [_ Hx];
        eauto using keeps_object, keeps_member, keeps_group, keeps_append.
    + intros ([added st1] & Hobj & Hrest)%bind_Ok m [->|Hm]%elem_of_cons Hvalid.
      * apply consider_object_Ok in Hobj as Hcases.
        destruct Hcases as [(_ & Hinvalid & _)|[(_ & _ & _ & [=] & _)|(-> & _)]];
          [done|].
        assert (keeps (Some content) (add_content content st1)) as Hk'.
        { apply keeps_found.
          - eapply keeps_member; eauto.
          - simpl. by eapply consider_object_added_file. }
        eapply (consider_archive_pass_inv w true (keeps (Some content)))
          in Hrest as [_ Hx];
          eauto using keeps_object, keeps_member, keeps_group, keeps_append.
      * destruct added; (eapply IH; [|exact Hrest|done..]);
          eauto using keeps_object, keeps_member.
Qed.

Lemma consider_archive_forced f st added st' :
  keeps None st →
  consider_archive w true f st = Ok (added, st') →
  ∀ m, m ∈ ar_contents w f → valid_object w m → m ∈ actual_files st'.
Proof.
  unfold consider_archive. simpl. intros Hk.
  intros ([again st1] & Hpass & Hrest)%bind_Ok m Hm Hvalid.
  assert (keeps (Some m) st1) as Hk1.
  { apply keeps_found.
    - eapply (consider_archive_pass_inv w true (keeps None)); [..|exact Hpass];
        eauto using keeps_object, keeps_member, keeps_group, keeps_append.
    - by eapply consider_archive_pass_forced. }
  destruct again; [|injection Hrest as _ <-; by apply Hk1].
  eapply (consider_archive_loop_inv w true (keeps (Some m))) in Hrest as [_ Hx];
    eauto using keeps_object, keeps_member, keeps_group, keeps_append.
Qed.

Lemma link_inputs_forced has_ar files : ∀ st st',
  keeps None st →
  link_inputs w true has_ar files st = Ok st' →
  ∀ a m, a ∈ files → Str.startswith_dash a = false →
         is_ar w (make_paths_absolute w a) = true →
         m ∈ ar_contents w (make_paths_absolute w a) → valid_object w m →
         m ∈ actual_files st'.
Proof.
  induction files as [|f rest IH]; intros st st' Hk; simpl.
  - intros _ a m. by rewrite elem_of_nil.
  - intros (st1 & Hin & Hrest)%bind_Ok a m [->|Ha]%elem_of_cons Hdash Har Hm
      Hvalid.
    + assert (keeps (Some m) st1) as Hk1.
      { unfold link_input in Hin. rewrite Hdash, Har in Hin. simpl in Hin.
        apply bind_Ok in Hin as ([added st2] & Harch & Hgroup).
        assert (keeps (Some m) st2) as Hk2.
        { apply keeps_found.
          - eapply (consider_archive_inv w true (keeps None));
              [..|exact Harch];
              eauto using keeps_object, keeps_member, keeps_group,
                keeps_append.
          - by eapply consider_archive_forced. }
        destruct (current_archive_group st2); injection Hgroup as <-; done. }
      eapply (link_inputs_inv w true (keeps (Some m))) in Hrest as [_ Hx];
        eauto using keeps_object, keeps_member, keeps_group, keeps_append.
    + eapply IH; [|exact Hrest|done..].
      eapply (link_input_inv w true (keeps None)); [..|exact Hin];
        eauto using keeps_object, keeps_member, keeps_group, keeps_append.
Qed.

End WholeArchive.

(** C2.  When the command line has exactly one input, or the caller asks
    for whole-archive linking, every valid member (one that [llvm-nm]
    accepts and that is a bitcode file) of every archive on the command line
    is in the output of the link, whatever the root symbols are.  In
    particular a link whose only input is an archive includes every valid
    member of it, even if no member defines a root symbol. *)
Theorem whole_archive_members_linked (w : World) (settings : SettingsT)
    (files : list string) (force_archive_contents : bool) (a : string)
    (out : list string) :
  length files = 1 ∨ force_archive_contents = true →
  a ∈ files →
  Str.startswith_dash a = false →
  is_ar w (make_paths_absolute w a) = true →
  link w settings files force_archive_contents = Ok out →
  ∀ m, m ∈ ar_contents w (make_paths_absolute w a) → valid_object w m →
       m ∈ out.
Proof.
  intros Hforce Ha Hdash Har Hlink m Hm Hvalid.
  unfold link, link_scan in Hlink.
  assert (bool_decide (length files = 1) || force_archive_contents = true)
    as Hall.
  { destruct Hforce as [Hlen| ->]; [|by rewrite orb_true_r].
    by rewrite bool_decide_true. }
  rewrite Hall in Hlink.
  apply bind_Ok in Hlink as (st & Hst & [= <-]).
  apply bind_Ok in Hst as (_ & _ & (st1 & Hscan & Hend)%bind_Ok).
  apply unique_ordered_elem_of.
  assert (keeps None (initial_state settings)) as Hk0.
  { split; [|by intros y [=]]. intros x. simpl. set_solver. }
  assert (keeps (Some m) st1) as Hk1.
  { apply keeps_found.
    - eapply (link_inputs_inv w true (keeps None)); [..|exact Hscan];
        eauto using keeps_object, keeps_member, keeps_group, keeps_append.
    - by eapply link_inputs_forced. }
  destruct (current_archive_group st1) as [[|a0 g]|];
    [injection Hend as <-; by apply Hk1| |injection Hend as <-; by apply Hk1].
  apply bind_Ok in Hend as (st2 & Hgroup & [= <-]).
  eapply (scan_archive_group_inv w true (keeps (Some m))) in Hgroup as [_ Hx];
    eauto using keeps_object, keeps_member, keeps_group, keeps_append.
Qed.

Lemma whole_archive_members_linked_witness :
  let w := SampleLink.world in
  let settings := SampleLink.exports ["_main"] in
  let files := ["/src/libmix.a"] in
  let out := [SampleLink.tmp "/src/libmix.a" "good.o"] in
  (length files = 1 ∨ false = true)
  ∧ "/src/libmix.a" ∈ files
  ∧ root_symbols settings ## provided_by
      (llvm_nm w (SampleLink.tmp "/src/libmix.a" "good.o"))
  ∧ link w settings files false = Ok out
  ∧ ∀ m, m ∈ ar_contents w (make_paths_absolute w "/src/libmix.a") →
         valid_object w m → m ∈ out.
Proof.
  intros w settings files out.
  assert (length files = 1 ∨ false = true) as Hforce by (by left).
  assert ("/src/libmix.a" ∈ files) as Hin by (by left).
  split; [done|]. split; [done|].
  split; [apply (bool_decide_unpack _); by vm_compute|].
  split; [by vm_compute|].
  apply (whole_archive_members_linked w settings files false "/src/libmix.a"
           out Hforce Hin); by vm_compute.
Defined.

(** ** Archives with a single member *)

Section SingleMember.

Context (w : World).

Lemma llvm_nm_sets f :
  is_valid_for_nm (llvm_nm w f) = true
  ∨ (defs (llvm_nm w f) = ∅ ∧ undefs (llvm_nm w f) = ∅
     ∧ commons (llvm_nm w f) = ∅).
Proof.
  unfold llvm_nm, llvm_nm_uncached.
  destruct (llvm_nm_run w _) as [rc out].
  case_bool_decide; [by left|by right].
Qed.

Lemma provided_valid f symbol :
  symbol ∈ provided_by (llvm_nm w f) → is_valid_for_nm (llvm_nm w f) = true.
Proof.
  unfold provided_by.
  destruct (llvm_nm_sets f) as [?|(-> & _ & ->)]; [done|set_solver].
Qed.

Lemma undefs_valid f symbol :
  symbol ∈ undefs (llvm_nm w f) → is_valid_for_nm (llvm_nm w f) = true.
Proof. destruct (llvm_nm_sets f) as [?|(_ & -> & _)]; [done|set_solver]. Qed.

Lemma ar_contents_extracted f m :
  m ∈ ar_contents w f → x_returncode (extract_archive_contents w f) = 0%Z.
Proof.
  unfold ar_contents, extract_archive_contents, extract_failed.
  repeat case_match; simpl; try done; by intros ?%elem_of_nil.
Qed.

Lemma consider_object_valid m force st :
  valid_object w m →
  consider_object w m force st
  = if wanted w force st m then Ok (true, add_object m (llvm_nm w m) st)
    else Ok (false, st).
Proof.
  intros [Hnm Hbc]. unfold consider_object, wanted. by rewrite Hnm, Hbc.
Qed.

Lemma consider_archive_single force a m st :
  ar_contents w a = [m] → valid_object w m →
  consider_archive w force a st
  = if bool_decide (m ∈ added_contents st) then Ok (false, st)
    else if wanted w force st m
         then Ok (true, add_content m (add_object m (llvm_nm w m) st))
         else Ok (false, st).
Proof.
  intros Hcontents Hvalid. unfold consider_archive. rewrite Hcontents.
  simpl. case_bool_decide as Hin; simpl; [done|].
  rewrite consider_object_valid by done.
  destruct (wanted w force st m); simpl; [|done].
  rewrite bool_decide_true by set_solver. done.
Qed.

End SingleMember.

Section TwoArchives.

Context (w : World) (settings : SettingsT).

Lemma wanted_intro force st m symbol :
  symbol ∈ unresolved_symbols st → symbol ∈ provided_by (llvm_nm w m) →
  wanted w force st m = true.
Proof.
  intros Hu Hp. unfold wanted.
  rewrite bool_decide_false by set_solver. by rewrite orb_true_r.
Qed.

Lemma link_input_archive force has_ar f st :
  Str.startswith_dash f = false →
  is_ar w (make_paths_absolute w f) = true →
  link_input w force has_ar f st
  = do '(added, st1) <- consider_archive w force (make_paths_absolute w f) st;
    match current_archive_group st1 with
    | Some group =>
        Ok (set_group (Some (group ++ [make_paths_absolute w f])) st1)
    | None => Ok st1
    end.
Proof. intros Hdash Har. unfold link_input. by rewrite Hdash, Har. Qed.

Lemma read_two_archives f1 f2 m1 m2 :
  Str.startswith_dash f1 = false → Str.startswith_dash f2 = false →
  is_ar w (make_paths_absolute w f1) = true →
  is_ar w (make_paths_absolute w f2) = true →
  ar_contents w (make_paths_absolute w f1) = [m1] →
  ar_contents w (make_paths_absolute w f2) = [m2] →
  read_link_inputs w [f1; f2] = Ok ().
Proof.
  intros Hd1 Hd2 Har1 Har2 Hc1 Hc2. unfold read_link_inputs. simpl.
  rewrite Har1, Har2. simpl.
  rewrite (ar_contents_extracted w _ m1) by (rewrite Hc1; by left).
  rewrite (ar_contents_extracted w _ m2) by (rewrite Hc2; by left).
  done.
Qed.

End TwoArchives.

(** C4, as the specification states it, fails: with archive B (whose member
    only references [f]) listed before archive A (whose member defines [f])
    and [f] the only root, the member of B provides nothing that is
    unresolved when B is scanned, so it is not linked at all. *)
Lemma earlier_archive_member_not_linked :
  let w := SampleLink.world in
  let a_member := SampleLink.tmp "/src/libA.a" "a.o" in
  let b_member := SampleLink.tmp "/src/libB.a" "b.o" in
  ar_contents w "/src/libA.a" = [a_member]
  ∧ ar_contents w "/src/libB.a" = [b_member]
  ∧ "f" ∈ defs (llvm_nm w a_member)
  ∧ "f" ∈ undefs (llvm_nm w b_member)
  ∧ "f" ∈ root_symbols (SampleLink.exports ["_f"])
  ∧ link w (SampleLink.exports ["_f"]) ["/src/libB.a"; "/src/libA.a"] false
    = Ok [a_member].
Proof.
  split_and!; try by vm_compute.
  all: apply (bool_decide_unpack _); by vm_compute.
Qed.

(** C4, amended.  Let archive A have the sole member [a_member], which
    provides [f], and archive B the sole member [b_member], which references
    [f] and does not provide it; let B be listed before A, without group
    markers, and [f] be a root.  Then the link includes [a_member] exactly
    once.  It includes [b_member], before [a_member] and exactly once, if
    whole-archive linking is requested or [b_member] itself provides a root
    symbol; otherwise [b_member] is left out and the output is [a_member]
    alone. *)
Theorem ungrouped_archives_single_pass (w : World) (settings : SettingsT)
    (A B a_member b_member f : string) (force_archive_contents : bool) :
  Str.startswith_dash A = false → Str.startswith_dash B = false →
  is_ar w (make_paths_absolute w A) = true →
  is_ar w (make_paths_absolute w B) = true →
  ar_contents w (make_paths_absolute w A) = [a_member] →
  ar_contents w (make_paths_absolute w B) = [b_member] →
  is_bitcode w a_member = Ok true → is_bitcode w b_member = Ok true →
  f ∈ provided_by (llvm_nm w a_member) →
  f ∈ undefs (llvm_nm w b_member) →
  f ∉ provided_by (llvm_nm w b_member) →
  f ∈ root_symbols settings →
  link w settings [B; A] force_archive_contents
  = Ok (if force_archive_contents
           || negb (bool_decide (root_symbols settings
                                 ## provided_by (llvm_nm w b_member)))
        then [b_member; a_member] else [a_member]).
Proof.
  intros HdA HdB HarA HarB HcA HcB HbcA HbcB Hdef Hundef Hnot Hroot.
  assert (valid_object w a_member) as HvA
    by (split; [by eapply provided_valid|done]).
  assert (valid_object w b_member) as HvB
    by (split; [by eapply undefs_valid|done]).
  assert (a_member ≠ b_member) as Hne by (intros ->; done).
  unfold link, link_scan.
  assert (compute_has_ar w [B; A] = true) as ->.
  { unfold compute_has_ar. simpl. by rewrite HdA, HdB, HarA, HarB. }
  assert (non_flags [B; A] = [B; A]) as ->.
  { unfold non_flags. simpl. by rewrite HdA, HdB. }
  rewrite (read_two_archives w B A b_member a_member) by done.
  cbn [bind length]. rewrite bool_decide_false by done. rewrite orb_false_l.
  cbn [link_inputs].
  rewrite link_input_archive by done.
  rewrite (consider_archive_single w _ _ b_member) by done.
  state_simpl. rewrite bool_decide_false by set_solver.
  change (force_archive_contents
          || negb (bool_decide (root_symbols settings
                                ## provided_by (llvm_nm w b_member))))
    with (wanted w force_archive_contents (initial_state settings) b_member).
  destruct (wanted w force_archive_contents (initial_state settings) b_member)
    eqn:Hwant; state_simpl.
  - rewrite link_input_archive by done.
    rewrite (consider_archive_single w _ _ a_member) by done.
    state_simpl. rewrite bool_decide_false by set_solver.
    rewrite (wanted_intro w _ _ _ f) by (state_simpl; set_solver).
    state_simpl. rewrite unique_ordered_id; [done|].
    apply NoDup_cons. split; [set_solver|]. apply NoDup_singleton.
  - rewrite link_input_archive by done.
    rewrite (consider_archive_single w _ _ a_member) by done.
    state_simpl. rewrite bool_decide_false by set_solver.
    rewrite (wanted_intro w _ _ _ f) by (state_simpl; set_solver).
    state_simpl. rewrite unique_ordered_id; [done|]. apply NoDup_singleton.
Qed.

Lemma ungrouped_archives_single_pass_witness :
  let w := SampleLink.world in
  let settings := SampleLink.exports ["_f"; "_g"] in
  let a_member := SampleLink.tmp "/src/libA.a" "a.o" in
  let b_member := SampleLink.tmp "/src/libB.a" "b.o" in
  ar_contents w (make_paths_absolute w "libA.a") = [a_member]
  ∧ ar_contents w (make_paths_absolute w "libB.a") = [b_member]
  ∧ link w settings ["libB.a"; "libA.a"] false
    = Ok (if false
             || negb (bool_decide (root_symbols settings
                                   ## provided_by (llvm_nm w b_member)))
          then [b_member; a_member] else [a_member])
  ∧ link w settings ["libB.a"; "libA.a"] false = Ok [b_member; a_member].
Proof.
  intros w settings a_member b_member.
  split; [by vm_compute|]. split; [by vm_compute|].
  split; [|by vm_compute].
  apply (ungrouped_archives_single_pass w settings "libA.a" "libB.a"
           a_member b_member "f" false);
    try (by vm_compute); try (apply (bool_decide_unpack _); by vm_compute).
Defined.

(** C1, with the output in full.  Let the command line be
    [--start-group A B --end-group], where archive A has the sole member
    [a_member] and archive B the sole member [b_member]; [a_member]
    references [from_b], which [b_member] provides and [a_member] does not,
    and [b_member] references [from_a], which [a_member] provides and
    [b_member] does not; one of the two symbols is a root.  Then the link
    returns both members: [a_member] first if it is taken when A is first
    scanned, else [b_member] first and [a_member] from the rescan of the
    group. *)
Theorem group_is_rescanned (w : World) (settings : SettingsT)
    (A B a_member b_member from_a from_b : string)
    (force_archive_contents : bool) :
  Str.startswith_dash A = false → Str.startswith_dash B = false →
  is_ar w (make_paths_absolute w A) = true →
  is_ar w (make_paths_absolute w B) = true →
  ar_contents w (make_paths_absolute w A) = [a_member] →
  ar_contents w (make_paths_absolute w B) = [b_member] →
  is_bitcode w a_member = Ok true → is_bitcode w b_member = Ok true →
  from_b ∈ undefs (llvm_nm w a_member) →
  from_b ∈ provided_by (llvm_nm w b_member) →
  from_b ∉ provided_by (llvm_nm w a_member) →
  from_a ∈ undefs (llvm_nm w b_member) →
  from_a ∈ provided_by (llvm_nm w a_member) →
  from_a ∉ provided_by (llvm_nm w b_member) →
  from_a ∈ root_symbols settings ∨ from_b ∈ root_symbols settings →
  ∃ out,
    link w settings ["--start-group"; A; B; "--end-group"]
      force_archive_contents = Ok out
    ∧ a_member ∈ out ∧ b_member ∈ out
    ∧ out = if force_archive_contents
               || negb (bool_decide (root_symbols settings
                                     ## provided_by (llvm_nm w a_member)))
            then [a_member; b_member] else [b_member; a_member].
Proof.
  intros HdA HdB HarA HarB HcA HcB HbcA HbcB HuA HpB HnA HuB HpA HnB Hroot.
  assert (valid_object w a_member) as HvA
    by (split; [by eapply provided_valid|done]).
  assert (valid_object w b_member) as HvB
    by (split; [by eapply provided_valid|done]).
  assert (a_member ≠ b_member) as Hne by (intros ->; done).
  eexists. split; [|split_and!; [| |reflexivity]].
  - unfold link, link_scan.
    assert (compute_has_ar w ["--start-group"; A; B; "--end-group"] = true)
      as ->.
    { unfold compute_has_ar. simpl. by rewrite HdA, HdB, HarA, HarB. }
    assert (non_flags ["--start-group"; A; B; "--end-group"] = [A; B]) as ->.
    { unfold non_flags. simpl. by rewrite HdA, HdB. }
    rewrite (read_two_archives w A B a_member b_member) by done.
    cbn [bind length]. rewrite bool_decide_false by done. rewrite orb_false_l.
    cbn [link_inputs].
    assert (∀ st, link_input w force_archive_contents true "--start-group" st
                  = match current_archive_group st with
                    | Some _ => Err (AssertionError
                        "Nested --start-group, missing --end-group?")
                    | None => Ok (set_group (Some []) st)
                    end) as Hstart by done.
    assert (∀ st, link_input w force_archive_contents true "--end-group" st
                  = match current_archive_group st with
                    | None => Err (AssertionError
                        "--end-group without --start-group")
                    | Some group =>
                        do st1 <- scan_archive_group w force_archive_contents
                                    group st;
                        Ok (set_group None st1)
                    end) as Hend by done.
    rewrite Hstart. state_simpl.
    rewrite link_input_archive by done.
    rewrite (consider_archive_single w _ _ a_member) by done.
    state_simpl. rewrite bool_decide_false by set_solver.
    change (force_archive_contents
            || negb (bool_decide (root_symbols settings
                                  ## provided_by (llvm_nm w a_member))))
      with (wanted w force_archive_contents (initial_state settings) a_member).
    change (wanted w force_archive_contents
              (set_group (Some []) (initial_state settings)) a_member)
      with (wanted w force_archive_contents (initial_state settings) a_member).
    destruct (wanted w force_archive_contents (initial_state settings) a_member)
      eqn:Hwant; state_simpl.
    + rewrite link_input_archive by done.
      rewrite (consider_archive_single w _ _ b_member) by done.
      state_simpl. rewrite bool_decide_false by set_solver.
      rewrite (wanted_intro w _ _ _ from_b) by (state_simpl; set_solver).
      state_simpl. rewrite Hend. state_simpl.
      cbn [app]. unfold scan_archive_group.
      rewrite !group_members_cons, HcA, HcB.
      change (group_members w []) with (@nil string).
      cbn [app length scan_group_loop scan_group_pass].
      rewrite (consider_archive_single w _ _ a_member) by done.
      state_simpl. rewrite bool_decide_true by set_solver. state_simpl.
      rewrite (consider_archive_single w _ _ b_member) by done.
      state_simpl. rewrite bool_decide_true by set_solver. state_simpl.
      cbn [orb]. state_simpl. rewrite unique_ordered_id; [done|].
      apply NoDup_cons. split; [set_solver|]. apply NoDup_singleton.
    + assert (from_b ∈ root_symbols settings) as HrootB.
      { destruct Hroot as [HrootA|]; [|done]. exfalso.
        unfold wanted in Hwant. apply orb_false_iff in Hwant as [_ Hd].
        apply negb_false_iff, bool_decide_eq_true in Hd.
        simpl in Hd. set_solver. }
      rewrite link_input_archive by done.
      rewrite (consider_archive_single w _ _ b_member) by done.
      state_simpl. rewrite bool_decide_false by set_solver.
      rewrite (wanted_intro w _ _ _ from_b) by (state_simpl; set_solver).
      state_simpl. rewrite Hend. state_simpl.
      cbn [app]. unfold scan_archive_group.
      rewrite !group_members_cons, HcA, HcB.
      change (group_members w []) with (@nil string).
      cbn [app length scan_group_loop scan_group_pass].
      rewrite (consider_archive_single w _ _ a_member) by done.
      state_simpl. rewrite bool_decide_false by set_solver.
      rewrite (wanted_intro w _ _ _ from_a) by (state_simpl; set_solver).
      state_simpl.
      rewrite (consider_archive_single w _ _ b_member) by done.
      state_simpl. rewrite bool_decide_true by set_solver. state_simpl.
      cbn [orb]. state_simpl.
      rewrite (consider_archive_single w _ _ a_member) by done.
      state_simpl. rewrite bool_decide_true by set_solver. state_simpl.
      rewrite (consider_archive_single w _ _ b_member) by done.
      state_simpl. rewrite bool_decide_true by set_solver. state_simpl.
      cbn [orb]. state_simpl. rewrite unique_ordered_id; [done|].
      apply NoDup_cons. split; [set_solver|]. apply NoDup_singleton.
  - destruct (_ || _); set_solver.
  - destruct (_ || _); set_solver.
Qed.

Lemma group_is_rescanned_witness :
  let w := SampleLink.world in
  let settings := SampleLink.exports ["_g"] in
  let a_member := SampleLink.tmp "/src/libA.a" "a.o" in
  let b_member := SampleLink.tmp "/src/libB.a" "b.o" in
  let files := ["--start-group"; "libA.a"; "libB.a"; "--end-group"] in
  ar_contents w (make_paths_absolute w "libA.a") = [a_member]
  ∧ ar_contents w (make_paths_absolute w "libB.a") = [b_member]
  ∧ link w settings files false = Ok [b_member; a_member]
  ∧ ∃ out,
      link w settings files false = Ok out
      ∧ a_member ∈ out ∧ b_member ∈ out
      ∧ out = if false
                 || negb (bool_decide (root_symbols settings
                                       ## provided_by (llvm_nm w a_member)))
              then [a_member; b_member] else [b_member; a_member].
Proof.
  intros w settings a_member b_member files.
  split; [by vm_compute|]. split; [by vm_compute|]. split; [by vm_compute|].
  apply (group_is_rescanned w settings "libA.a" "libB.a" a_member b_member
           "f" "g" false);
    try (by vm_compute); try (apply (bool_decide_unpack _); by vm_compute).
Defined.

(** The scan of a command line never stops for lack of fuel. *)
Lemma link_returns (w : World) (settings : SettingsT) (files : list string)
    (force_archive_contents : bool) :
  link w settings files force_archive_contents ≠ Err OutOfFuel.
Proof.
  assert (∀ force has_ar f st,
            link_input w force has_ar f st ≠ Err OutOfFuel) as Hinput.
  { intros force has_ar f st. unfold link_input.
    destruct (Str.startswith_dash f).
    - repeat case_bool_decide; try done.
      + by destruct (current_archive_group st).
      + destruct (current_archive_group st); [|done].
        intros [Hg|(? & _ & [=])]%bind_Err.
        by eapply scan_archive_group_fuel.
    - destruct (is_ar w (make_paths_absolute w f)); simpl.
      + intros [Har|([? st1] & _ & Hg)]%bind_Err.
        * by eapply consider_archive_fuel.
        * by destruct (current_archive_group st1).
      + intros [Hbc|([] & _ & Hrest)]%bind_Err; [by eapply is_bitcode_fuel| |done].
        destruct has_ar; [|done].
        apply bind_Err in Hrest as [Hobj|([? ?] & _ & [=])].
        by eapply consider_object_fuel. }
  assert (∀ force has_ar fs st,
            link_inputs w force has_ar fs st ≠ Err OutOfFuel) as Hinputs.
  { intros force has_ar fs. induction fs as [|f rest IH]; intros st; simpl;
      [done|].
    intros [Hin|(st1 & _ & Hrest)]%bind_Err; [by eapply Hinput|by eapply IH]. }
  assert (∀ fs, probe_inputs w fs ≠ Err OutOfFuel) as Hprobe.
  { induction fs as [|f rest IH]; simpl; [done|].
    destruct (is_ar w (make_paths_absolute w f)).
    - intros [?|(? & _ & [=])]%bind_Err. done.
    - intros [?|(? & _ & ?)]%bind_Err; [by eapply is_bitcode_fuel|done]. }
  assert (∀ names, check_extracted w names ≠ Err OutOfFuel) as Hcheck.
  { induction names as [|name rest IH]; simpl; [done|].
    by case_bool_decide. }
  unfold link, link_scan.
  intros [Hscan|(? & _ & [=])]%bind_Err.
  apply bind_Err in Hscan as [Hread|(? & _ & Hscan)].
  - unfold read_link_inputs in Hread.
    apply bind_Err in Hread as [?|(? & _ & ?)]; [by eapply Hprobe|].
    by eapply Hcheck.
  - apply bind_Err in Hscan as [?|(st & _ & Hend)]; [by eapply Hinputs|].
    destruct (current_archive_group st) as [[|a g]|]; try done.
    apply bind_Err in Hend as [?|(? & _ & [=])].
    by eapply scan_archive_group_fuel.
Qed.

(** * Further properties of the code *)

(** ** [unique_ordered] *)

Lemma unique_ordered_from_sublist values : ∀ seen,
  unique_ordered_from seen values `sublist_of` values.
Proof.
  induction values as [|value rest IH]; intros seen; simpl; [constructor|].
  case_bool_decide; [by apply sublist_cons|by apply sublist_skip].
Qed.

Lemma unique_ordered_from_app values : ∀ seen x,
  unique_ordered_from seen (values ++ [x])
  = unique_ordered_from seen values
    ++ (if bool_decide (x ∈ seen ∨ x ∈ values) then [] else [x]).
Proof.
  induction values as [|value rest IH]; intros seen x; simpl.
  - case_bool_decide as Hseen.
    + by rewrite bool_decide_true by (by left).
    + rewrite bool_decide_false; [done|].
      intros [?|?%elem_of_nil]; done.
  - case_bool_decide as Hseen; rewrite IH; simpl.
    + f_equal. erewrite bool_decide_ext; [done|].
      rewrite elem_of_cons. set_solver.
    + do 2 f_equal. erewrite bool_decide_ext; [done|].
      rewrite elem_of_cons. set_solver.
Qed.

(** [unique_ordered] keeps the first occurrence of every value, in the
    order of the input: its result has no repetition, has the elements of
    the input, is a sublist of it, and is left alone by a second call;
    appending a value to the input appends it to the result if it is new
    and changes nothing otherwise. *)
Theorem unique_ordered_first_occurrences (values : list string) (x : string) :
  NoDup (unique_ordered values)
  ∧ (∀ y, y ∈ unique_ordered values ↔ y ∈ values)
  ∧ unique_ordered values `sublist_of` values
  ∧ unique_ordered (unique_ordered values) = unique_ordered values
  ∧ unique_ordered (values ++ [x])
    = unique_ordered values ++ (if bool_decide (x ∈ values) then [] else [x]).
Proof.
  split_and!.
  - apply unique_ordered_NoDup.
  - intros y. apply unique_ordered_elem_of.
  - apply unique_ordered_from_sublist.
  - apply unique_ordered_id, unique_ordered_NoDup.
  - unfold unique_ordered. rewrite unique_ordered_from_app.
    f_equal. erewrite bool_decide_ext; [done|]. set_solver.
Qed.

(** ** Files are only appended *)

Section AppendOnly.

Context (w : World) (force_add_all : bool) (st0 : LinkState).

Lemma extends_object f force st added st' :
  extends_files st0 st → consider_object w f force st = Ok (added, st') →
  extends_files st0 st'.
Proof.
  unfold extends_files.
  intros Hp [(_ & _ & _ & ->)|(_ & _ & _ & ->)]%consider_object_tables;
    [done|]. by apply prefix_app_r.
Qed.

Lemma extends_member content st st' :
  extends_files st0 st →
  consider_object w content force_add_all st = Ok (true, st') →
  extends_files st0 (add_content content st').
Proof. intros Hp Hobj. by apply (extends_object _ _ _ _ _ Hp Hobj). Qed.

Lemma extends_append f st : extends_files st0 st → extends_files st0 (append_file f st).
Proof. unfold extends_files. simpl. apply prefix_app_r. Qed.

End AppendOnly.

(** The list of files is only ever appended to: a scan of an archive, a
    rescan of a group and the scan of a command line leave the files that
    were already taken where they are. *)
Theorem files_only_appended (w : World) (force_add_all : bool) :
  (∀ f st added st',
     consider_archive w force_add_all f st = Ok (added, st') →
     actual_files st `prefix_of` actual_files st')
  ∧ (∀ group st st',
       scan_archive_group w force_add_all group st = Ok st' →
       actual_files st `prefix_of` actual_files st')
  ∧ (∀ has_ar files st st',
       link_inputs w force_add_all has_ar files st = Ok st' →
       actual_files st `prefix_of` actual_files st').
Proof.
  split_and!.
  - intros f st added st' Hrun.
    eapply (consider_archive_inv w force_add_all (extends_files st));
      [..|exact Hrun];
      eauto using extends_object, extends_member; try (unfold extends_files; reflexivity).
  - intros group st st' Hrun.
    eapply (scan_archive_group_inv w force_add_all (extends_files st));
      [..|exact Hrun];
      eauto using extends_object, extends_member; try (unfold extends_files; reflexivity).
  - intros has_ar files st st' Hrun.
    eapply (link_inputs_inv w force_add_all (extends_files st));
      [..|exact Hrun];
      eauto using extends_object, extends_member, extends_append;
      try (unfold extends_files; reflexivity).
Qed.

(** ** Direct objects *)

Lemma link_inputs_direct (w : World) (force_add_all : bool) files :
  ∀ st st',
  keeps None st →
  link_inputs w force_add_all true files st = Ok st' →
  ∀ f, f ∈ files → Str.startswith_dash f = false →
       is_ar w (make_paths_absolute w f) = false →
       valid_object w (make_paths_absolute w f) →
       make_paths_absolute w f ∈ actual_files st'.
Proof.
  induction files as [|f0 rest IH]; intros st st' Hk; simpl.
  - intros _ f. by rewrite elem_of_nil.
  - intros (st1 & Hin & Hrest)%bind_Ok f [->|Hf]%elem_of_cons Hdash Har
      Hvalid.
    + assert (keeps (Some (make_paths_absolute w f0)) st1) as Hk1.
      { unfold link_input in Hin. rewrite Hdash, Har in Hin. simpl in Hin.
        destruct Hvalid as [Hnm Hbc]. rewrite Hbc in Hin. simpl in Hin.
        apply bind_Ok in Hin as ([added st2] & Hobj & [= <-]).
        apply consider_object_Ok in Hobj as Hcases.
        destruct Hcases
          as [(_ & Hinvalid & _)|[(_ & _ & _ & [=] & _)|(-> & _)]];
          [by destruct Hinvalid|].
        apply keeps_found.
        - eapply keeps_object; eauto.
        - by eapply consider_object_added_file. }
      eapply (link_inputs_inv w force_add_all
                (keeps (Some (make_paths_absolute w f0))))
        in Hrest as [_ Hx];
        eauto using keeps_object, keeps_member, keeps_group, keeps_append.
    + eapply IH; [|exact Hrest|done..].
      eapply (link_input_inv w force_add_all (keeps None)); [..|exact Hin];
        eauto using keeps_object, keeps_member, keeps_group, keeps_append.
Qed.

(** In a link that has an archive among its inputs, every input that is
    named directly on the command line, that is a bitcode file and that
    [llvm-nm] accepts is in the output, under its absolute path, whether
    or not any symbol of it is needed. *)
Theorem direct_objects_always_linked (w : World) (settings : SettingsT)
    (files : list string) (force_archive_contents : bool) (f : string)
    (out : list string) :
  compute_has_ar w files = true →
  f ∈ files →
  Str.startswith_dash f = false →
  is_ar w (make_paths_absolute w f) = false →
  valid_object w (make_paths_absolute w f) →
  link w settings files force_archive_contents = Ok out →
  make_paths_absolute w f ∈ out.
Proof.
  intros Har Hf Hdash Hnot Hvalid Hlink.
  unfold link, link_scan in Hlink. rewrite Har in Hlink.
  apply bind_Ok in Hlink as (st & Hst & [= <-]).
  apply bind_Ok in Hst as (_ & _ & (st1 & Hscan & Hend)%bind_Ok).
  apply unique_ordered_elem_of.
  assert (keeps None (initial_state settings)) as Hk0.
  { split; [|by intros y [=]]. intros x. simpl. set_solver. }
  assert (keeps (Some (make_paths_absolute w f)) st1) as Hk1.
  { apply keeps_found.
    - eapply (link_inputs_inv w _ (keeps None)); [..|exact Hscan];
        eauto using keeps_object, keeps_member, keeps_group, keeps_append.
    - by eapply link_inputs_direct. }
  destruct (current_archive_group st1) as [[|a0 g]|];
    [injection Hend as <-; by apply Hk1| |injection Hend as <-; by apply Hk1].
  apply bind_Ok in Hend as (st2 & Hgroup & [= <-]).
  eapply (scan_archive_group_inv w _
            (keeps (Some (make_paths_absolute w f)))) in Hgroup as [_ Hx];
    eauto using keeps_object, keeps_member, keeps_group, keeps_append.
Qed.

Lemma direct_objects_always_linked_witness :
  let w := SampleLink.world in
  let files := ["util.o"; "/src/libA.a"] in
  compute_has_ar w files = true
  ∧ valid_object w "/src/util.o"
  ∧ link w (SampleLink.exports ["_f"]) files false
    = Ok ["/src/util.o"; SampleLink.tmp "/src/libA.a" "a.o"]
  ∧ make_paths_absolute w "util.o"
    ∈ ["/src/util.o"; SampleLink.tmp "/src/libA.a" "a.o"].
Proof.
  intros w files.
  assert ("util.o" ∈ files) as Hin by (by left).
  split; [by vm_compute|]. split; [by vm_compute|]. split; [by vm_compute|].
  apply (direct_objects_always_linked w (SampleLink.exports ["_f"]) files
           false "util.o" _ eq_refl Hin); by vm_compute.
Defined.

(** ** Flags *)

Lemma link_inputs_unsupported_flag (w : World) (force_add_all has_ar : bool)
    (f : string) files :
  f ∈ files → Str.startswith_dash f = true →
  f ∉ ["--start-group"; "-("; "--end-group"; "-)"] →
  ∀ st, raises (link_inputs w force_add_all has_ar files st).
Proof.
  intros Hf Hdash Hflag.
  induction files as [|f0 rest IH]; [by apply elem_of_nil in Hf|].
  intros st. simpl.
  destruct (link_input w force_add_all has_ar f0 st) as [st1|e] eqn:Hin;
    simpl; [|by exists e].
  apply elem_of_cons in Hf as [<-|Hf]; [|by apply IH].
  exfalso. unfold link_input in Hin. rewrite Hdash in Hin.
  rewrite !bool_decide_false in Hin; [done|set_solver..].
Qed.

(** A flag other than the four group markers stops the link with an
    exception, wherever it stands on the command line. *)
Theorem unsupported_flag_raises (w : World) (settings : SettingsT)
    (files : list string) (force_archive_contents : bool) (f : string) :
  f ∈ files →
  Str.startswith_dash f = true →
  f ∉ ["--start-group"; "-("; "--end-group"; "-)"] →
  raises (link w settings files force_archive_contents).
Proof.
  intros Hf Hdash Hflag. unfold link, link_scan.
  destruct (read_link_inputs w (non_flags files)) as [[]|e]; simpl;
    [|by exists e].
  destruct (link_inputs_unsupported_flag w
              (bool_decide (length files = 1) || force_archive_contents)
              (compute_has_ar w files) f files Hf Hdash Hflag
              (initial_state settings)) as [e ->].
  by exists e.
Qed.

Lemma unsupported_flag_raises_witness :
  let files := ["/src/main.o"; "-lm"; "/src/libA.a"] in
  "-lm" ∈ files
  ∧ link SampleLink.world (SampleLink.exports ["_main"]) files false
    = Err (AssertionError "unsupported link flag: -lm")
  ∧ raises (link SampleLink.world (SampleLink.exports ["_main"]) files false).
Proof.
  intros files.
  assert ("-lm" ∈ files) as Hin by (right; by left).
  split; [done|]. split; [by vm_compute|].
  apply (unsupported_flag_raises SampleLink.world
           (SampleLink.exports ["_main"]) files false "-lm" Hin eq_refl).
  set_solver.
Defined.

(** ** The fixed point of a rescan *)

Section FixedPoint.

Context (w : World) (force_add_all : bool).

Lemma same_link_refl st : same_link st st.
Proof. done. Qed.

Lemma same_link_trans st1 st2 st3 :
  same_link st1 st2 → same_link st2 st3 → same_link st1 st3.
Proof.
  intros (? & ? & ? & ?) (? & ? & ? & ?). unfold same_link. split_and!; congruence.
Qed.

Lemma settled_same st st' m :
  same_link st st' → settled w force_add_all st m →
  settled w force_add_all st' m.
Proof.
  intros (_ & Hu & _ & Ha) Hs Hvalid. rewrite Hu, Ha. by apply Hs.
Qed.

Lemma consider_archive_pass_raises_flag contents st again st' :
  consider_archive_pass w force_add_all contents true st = Ok (again, st') →
  again = true.
Proof.
  by intros [_ [[-> _]|[-> _]]]%consider_archive_pass_spec.
Qed.

(** A traversal of an archive that does not raise the flag has changed
    nothing but the log, and has found every member settled. *)
Lemma consider_archive_pass_quiet contents : ∀ loop_again st st',
  consider_archive_pass w force_add_all contents loop_again st
    = Ok (false, st') →
  loop_again = false ∧ same_link st st'
  ∧ ∀ m, m ∈ contents → settled w force_add_all st m.
Proof.
  induction contents as [|content rest IH]; intros loop_again st st'; simpl.
  - intros [= -> <-]. split_and!; [done..|]. intros m. by rewrite elem_of_nil.
  - case_bool_decide as Hin.
    + intros (-> & Hsame & Hrest)%IH. split_and!; [done..|].
      intros m [->|Hm]%elem_of_cons; [by left|by apply Hrest].
    + intros ([added st1] & Hobj & Hrest)%bind_Ok.
      apply consider_object_Ok in Hobj
        as [(-> & Hinvalid & msg & ->)|[(-> & _ & -> & -> & Hd)|(-> & _)]].
      * apply IH in Hrest as (-> & Hsame & Hrest). split_and!; [done..|].
        intros m [->|Hm]%elem_of_cons; [by intros ?%Hinvalid|].
        exact (Hrest m Hm).
      * apply IH in Hrest as (-> & Hsame & Hrest). split_and!; [done..|].
        intros m [->|Hm]%elem_of_cons; [by right|by apply Hrest].
      * by apply consider_archive_pass_raises_flag in Hrest.
Qed.

Lemma consider_archive_loop_settles contents fuel : ∀ added_any st added st',
  consider_archive_loop w force_add_all fuel contents added_any st
    = Ok (added, st') →
  ∀ m, m ∈ contents → settled w force_add_all st' m.
Proof.
  induction fuel as [|fuel IH]; intros added_any st added st'; simpl; [done|].
  intros ([again st1] & Hpass & Hrest)%bind_Ok.
  destruct again; [by eapply IH|].
  injection Hrest as _ <-.
  apply consider_archive_pass_quiet in Hpass as (_ & Hsame & Hsettled).
  intros m Hm. eapply settled_same; eauto.
Qed.

Lemma consider_archive_loop_quiet contents fuel : ∀ st st',
  consider_archive_loop w force_add_all fuel contents false st
    = Ok (false, st') →
  same_link st st'.
Proof.
  destruct fuel as [|fuel]; intros st st'; simpl; [done|].
  intros ([again st1] & Hpass & Hrest)%bind_Ok.
  destruct again.
  - by apply consider_archive_loop_spec in Hrest as [_ [[[=] _]|[[=] _]]].
  - injection Hrest as <-.
    by apply consider_archive_pass_quiet in Hpass as (_ & Hsame & _).
Qed.

Lemma scan_group_pass_quiet group : ∀ loop_again st st',
  scan_group_pass w force_add_all group loop_again st = Ok (false, st') →
  loop_again = false ∧ same_link st st'
  ∧ ∀ a m, a ∈ group → m ∈ ar_contents w a → settled w force_add_all st' m.
Proof.
  induction group as [|archive rest IH]; intros loop_again st st'; simpl.
  - intros [= -> <-]. split_and!; [done..|]. intros a m. by rewrite elem_of_nil.
  - intros ([added st1] & Har & Hrest)%bind_Ok.
    apply IH in Hrest as ([-> ->]%orb_false_iff & Hsame & Hrest).
    unfold consider_archive in Har.
    pose proof (consider_archive_loop_settles _ _ _ _ _ _ Har) as Hsettled.
    apply consider_archive_loop_quiet in Har as Hsame1.
    split_and!; [done|by eapply same_link_trans|].
    intros a m [->|Ha]%elem_of_cons Hm; [|by eapply Hrest].
    eapply settled_same; eauto.
Qed.

Lemma scan_group_loop_settles group fuel : ∀ st st',
  scan_group_loop w force_add_all fuel group st = Ok st' →
  ∀ a m, a ∈ group → m ∈ ar_contents w a → settled w force_add_all st' m.
Proof.
  induction fuel as [|fuel IH]; intros st st'; simpl; [done|].
  intros ([again st1] & Hpass & Hrest)%bind_Ok.
  destruct again; [by eapply IH|].
  injection Hrest as <-.
  by apply scan_group_pass_quiet in Hpass as (_ & _ & Hsettled).
Qed.

End FixedPoint.

(** When the scan of an archive returns it has reached a fixed point: every
    member of the archive that is a valid object has been taken, or
    provides no symbol that is still unresolved.  When the rescan of a
    group returns, the same holds for every member of every archive of the
    group at once. *)
Theorem rescans_reach_fixed_point (w : World) (force_add_all : bool) :
  (∀ f st added st' m,
     consider_archive w force_add_all f st = Ok (added, st') →
     m ∈ ar_contents w f → valid_object w m →
     m ∈ added_contents st'
     ∨ (force_add_all = false
        ∧ unresolved_symbols st' ## provided_by (llvm_nm w m)))
  ∧ (∀ group st st' a m,
       scan_archive_group w force_add_all group st = Ok st' →
       a ∈ group → m ∈ ar_contents w a → valid_object w m →
       m ∈ added_contents st'
       ∨ (force_add_all = false
          ∧ unresolved_symbols st' ## provided_by (llvm_nm w m))).
Proof.
  split.
  - intros f st added st' m Hrun Hm Hvalid.
    exact (consider_archive_loop_settles w force_add_all _ _ _ _ _ _ Hrun
             m Hm Hvalid).
  - intros group st st' a m Hrun Ha Hm Hvalid.
    exact (scan_group_loop_settles w force_add_all _ _ _ _ Hrun a m Ha Hm
             Hvalid).
Qed.

(** ** Where the linked files come from *)

Section Allowed.

Context (w : World) (force_add_all : bool).
Context (A : string → Prop) (P : LinkState → Prop).
Context (P_consider : ∀ f force st added st',
           A f → P st → consider_object w f force st = Ok (added, st') →
           P st').
Context (P_member : ∀ content st st',
           A content → P st →
           consider_object w content force_add_all st = Ok (true, st') →
           P (add_content content st')).
Context (P_group : ∀ g st, P st → P (set_group g st)).

Lemma consider_archive_pass_allowed contents : ∀ loop_again st again st',
  (∀ m, m ∈ contents → A m) → P st →
  consider_archive_pass w force_add_all contents loop_again st
    = Ok (again, st') →
  P st'.
Proof.
  induction contents as [|content rest IH];
    intros loop_again st again st' HA HP; simpl.
  - by intros [= _ <-].
  - assert (∀ m, m ∈ rest → A m) as HA'
      by (intros m Hm; apply HA; by right).
    assert (A content) as HAc by (apply HA; by left).
    case_bool_decide; [by apply IH|].
    intros ([added st1] & Hobj & Hrest)%bind_Ok.
    destruct added; eapply IH; try exact Hrest; eauto.
Qed.

Lemma consider_archive_loop_allowed contents fuel : ∀ added_any st added st',
  (∀ m, m ∈ contents → A m) → P st →
  consider_archive_loop w force_add_all fuel contents added_any st
    = Ok (added, st') →
  P st'.
Proof.
  induction fuel as [|fuel IH]; intros added_any st added st' HA HP; simpl;
    [done|].
  intros ([again st1] & Hpass & Hrest)%bind_Ok.
  apply consider_archive_pass_allowed in Hpass; [|done..].
  destruct again; [by eapply IH|]. by injection Hrest as _ <-.
Qed.

Lemma scan_group_pass_allowed group : ∀ loop_again st again st',
  (∀ a m, a ∈ group → m ∈ ar_contents w a → A m) → P st →
  scan_group_pass w force_add_all group loop_again st = Ok (again, st') →
  P st'.
Proof.
  induction group as [|archive rest IH]; intros loop_again st again st' HA HP;
    simpl.
  - by intros [= _ <-].
  - intros ([added st1] & Har & Hrest)%bind_Ok.
    eapply IH; [| |exact Hrest].
    + intros a m Ha. apply HA. by right.
    + eapply consider_archive_loop_allowed; [| |exact Har]; [|done].
      intros m. apply HA. by left.
Qed.

Lemma scan_group_loop_allowed group fuel : ∀ st st',
  (∀ a m, a ∈ group → m ∈ ar_contents w a → A m) → P st →
  scan_group_loop w force_add_all fuel group st = Ok st' → P st'.
Proof.
  induction fuel as [|fuel IH]; intros st st' HA HP; simpl; [done|].
  intros ([again st1] & Hpass & Hrest)%bind_Ok.
  apply scan_group_pass_allowed in Hpass; [|done..].
  destruct again; [by eapply IH|]. by injection Hrest as <-.
Qed.

Lemma consider_object_group f force st added st' :
  consider_object w f force st = Ok (added, st') →
  current_archive_group st' = current_archive_group st.
Proof.
  intros [(_ & _ & msg & ->)|[(_ & _ & -> & _)|(_ & _ & -> & _)]]%consider_object_Ok;
    done.
Qed.

Lemma consider_archive_group f st added st' :
  consider_archive w force_add_all f st = Ok (added, st') →
  current_archive_group st' = current_archive_group st.
Proof.
  intros Hrun.
  eapply (consider_archive_inv w force_add_all
            (fun s => current_archive_group s = current_archive_group st));
    [..|exact Hrun]; try done.
  - intros f0 force s added0 s' <-. apply consider_object_group.
  - intros content s s' <- Hobj. simpl. by eapply consider_object_group.
Qed.

Lemma link_input_allowed f st st' :
  input_allowed w A f → P st → group_allowed w A st →
  link_input w force_add_all true f st = Ok st' →
  P st' ∧ group_allowed w A st'.
Proof.
  intros Hin HP Hg. unfold link_input, input_allowed in *.
  destruct (Str.startswith_dash f).
  - repeat case_bool_decide; try done.
    + destruct (current_archive_group st); [done|]. intros [= <-].
      split; [eauto|]. intros g a m [= <-]. by rewrite elem_of_nil.
    + destruct (current_archive_group st) as [group|] eqn:Hgroup; [|done].
      intros (st1 & Hscan & [= <-])%bind_Ok. split; [|by intros g a m [=]].
      apply P_group. eapply scan_group_loop_allowed; [| |exact Hscan]; eauto.
  - specialize (Hin eq_refl).
    destruct (is_ar w (make_paths_absolute w f)); simpl.
    + intros ([added st1] & Har & Hrest)%bind_Ok.
      apply consider_archive_group in Har as Hsame.
      eapply consider_archive_loop_allowed in Har; [|done..].
      rewrite Hsame in Hrest.
      destruct (current_archive_group st) as [group|] eqn:Hgroup;
        injection Hrest as <-.
      * split; [eauto|]. intros g a m [= <-] [Ha|Ha]%elem_of_app; [eauto|].
        apply list_elem_of_singleton in Ha as ->. eauto.
      * split; [done|]. intros g a m. simpl. rewrite Hsame. by intros [=].
    + intros (bitcode & _ & Hrest)%bind_Ok.
      destruct bitcode; [|by injection Hrest as <-].
      apply bind_Ok in Hrest as ([added st1] & Hobj & [= <-]).
      split; [eauto|]. intros g a m.
      rewrite (consider_object_group _ _ _ _ _ Hobj). apply Hg.
Qed.

Lemma link_inputs_allowed files : ∀ st st',
  (∀ f, f ∈ files → input_allowed w A f) → P st → group_allowed w A st →
  link_inputs w force_add_all true files st = Ok st' →
  P st' ∧ group_allowed w A st'.
Proof.
  induction files as [|f rest IH]; intros st st' Hin HP Hg; simpl.
  - by intros [= <-].
  - intros (st1 & Hstep & Hrest)%bind_Ok.
    apply link_input_allowed in Hstep as [HP1 Hg1];
      [|apply Hin; by left|done..].
    eapply IH; [|done..]. intros f0 Hf0. apply Hin. by right.
Qed.

End Allowed.

Lemma link_scan_allowed (w : World) (settings : SettingsT)
    (A : string → Prop) (P : LinkState → Prop) (files : list string)
    (force_archive_contents : bool) (st : LinkState) :
  (∀ f force st added st',
     A f → P st → consider_object w f force st = Ok (added, st') → P st') →
  (∀ g st, P st → P (set_group g st)) →
  (∀ content st, P st → P (add_content content st)) →
  (∀ f, f ∈ files → input_allowed w A f) →
  P (initial_state settings) →
  compute_has_ar w files = true →
  link_scan w settings files force_archive_contents = Ok st →
  P st.
Proof.
  intros P_consider P_group P_content Hin HP0 Har. unfold link_scan.
  rewrite Har.
  intros (_ & _ & (st1 & Hscan & Hend)%bind_Ok)%bind_Ok.
  eapply (link_inputs_allowed w _ A P) in Hscan as [HP1 Hg1]; eauto.
  - destruct (current_archive_group st1) as [[|a g]|] eqn:Hgroup;
      [by injection Hend as <-| |by injection Hend as <-].
    apply bind_Ok in Hend as (st2 & Hrescan & [= <-]). apply P_group.
    eapply (scan_group_loop_allowed w _ A P); [..|exact Hrescan]; eauto.
  - intros g a m [=].
Qed.

(** In a link that has an archive among its inputs, every file of the
    output is an object that [llvm-nm] accepts and that is bitcode, and is
    either the absolute path of an input named on the command line or a
    member of an archive named there: nothing else is ever linked. *)
Theorem linked_files_are_valid_inputs (w : World) (settings : SettingsT)
    (files : list string) (force_archive_contents : bool)
    (out : list string) :
  compute_has_ar w files = true →
  link w settings files force_archive_contents = Ok out →
  ∀ x, x ∈ out → valid_object w x ∧ from_inputs w files x.
Proof.
  intros Har Hlink x Hx. unfold link in Hlink.
  apply bind_Ok in Hlink as (st & Hscan & [= <-]).
  rewrite unique_ordered_elem_of in Hx. revert x Hx.
  eapply (link_scan_allowed w settings (from_inputs w files)
            (fun s => ∀ x, x ∈ actual_files s →
                           valid_object w x ∧ from_inputs w files x));
    [..|exact Har|exact Hscan]; try done.
  - intros f force s added s' HA HP Hobj x.
    apply consider_object_Ok in Hobj
      as [(_ & _ & msg & ->)|[(_ & _ & -> & _)|(_ & Hvalid & -> & _)]];
      [apply HP..|].
    simpl. intros [Hx|Hx]%elem_of_app; [by apply HP|].
    by apply list_elem_of_singleton in Hx as ->.
  - intros f Hf Hdash. unfold from_inputs.
    destruct (is_ar w (make_paths_absolute w f)) eqn:Hisar.
    + intros m Hm. exists f. by rewrite Hisar.
    + exists f. by rewrite Hisar.
  - intros x. simpl. by rewrite elem_of_nil.
Qed.

Lemma linked_files_are_valid_inputs_witness :
  let w := SampleLink.world in
  let files := ["util.o"; "bad.o"; "/src/libmix.a"; "/src/libA.a"] in
  let out := ["/src/util.o"; SampleLink.tmp "/src/libA.a" "a.o"] in
  compute_has_ar w files = true
  ∧ link w (SampleLink.exports ["_f"]) files false = Ok out
  ∧ ∀ x, x ∈ out → valid_object w x ∧ from_inputs w files x.
Proof.
  intros w files out.
  split; [by vm_compute|]. split; [by vm_compute|].
  apply (linked_files_are_valid_inputs w (SampleLink.exports ["_f"]) files
           false out); by vm_compute.
Defined.

(** ** What the symbol tables hold *)

Lemma provided_of_app w files f :
  provided_of w (files ++ [f])
  = provided_of w files ∪ provided_by (llvm_nm w f).
Proof.
  unfold provided_of. rewrite fmap_app, union_list_app_L. simpl.
  by rewrite (right_id_L ∅ (∪)).
Qed.

Lemma undefs_of_app w files f :
  undefs_of w (files ++ [f]) = undefs_of w files ∪ undefs (llvm_nm w f).
Proof.
  unfold undefs_of. rewrite fmap_app, union_list_app_L. simpl.
  by rewrite (right_id_L ∅ (∪)).
Qed.

Lemma consider_object_account w roots f force st added st' :
  tables_account w roots st →
  consider_object w f force st = Ok (added, st') →
  tables_account w roots st'.
Proof.
  unfold tables_account. intros [Hr Hu].
  intros [(_ & -> & -> & ->)|(_ & Hr' & Hu' & ->)]%consider_object_tables;
    [done|].
  rewrite provided_of_app, undefs_of_app, Hu', Hr', Hu, Hr.
  split; [done|]. set_solver.
Qed.

(** In a link that has an archive among its inputs the symbol tables are
    determined by the files taken so far: when the scan returns,
    [resolved_symbols] is the set of the symbols that the linked files
    define or hold as common, and [unresolved_symbols] is the set of the
    root symbols and of the symbols that the linked files reference, less
    the resolved ones. *)
Theorem symbol_tables_account_for_files (w : World) (settings : SettingsT)
    (files : list string) (force_archive_contents : bool) (st : LinkState) :
  compute_has_ar w files = true →
  link_scan w settings files force_archive_contents = Ok st →
  resolved_symbols st = provided_of w (actual_files st)
  ∧ unresolved_symbols st
    = (root_symbols settings ∪ undefs_of w (actual_files st))
      ∖ provided_of w (actual_files st).
Proof.
  intros Har Hscan.
  cut (tables_account w (root_symbols settings) st).
  { intros [Hr Hu]. by rewrite Hu, Hr. }
  eapply (link_scan_allowed w settings (fun _ => True)
            (tables_account w (root_symbols settings)));
    [..|exact Har|exact Hscan]; try done.
  - intros f force s added s' _. apply consider_object_account.
  - intros f _ _. by destruct (is_ar w (make_paths_absolute w f)).
  - unfold tables_account, provided_of, undefs_of. simpl. set_solver.
Qed.

Lemma symbol_tables_account_for_files_witness :
  let w := SampleLink.world in
  let settings := SampleLink.exports ["_main"] in
  let files := ["main.o"; "/src/libA.a"] in
  compute_has_ar w files = true
  ∧ match link_scan w settings files false with
    | Ok st =>
        actual_files st = ["/src/main.o"; SampleLink.tmp "/src/libA.a" "a.o"]
        ∧ resolved_symbols st = provided_of w (actual_files st)
        ∧ unresolved_symbols st
          = (root_symbols settings ∪ undefs_of w (actual_files st))
            ∖ provided_of w (actual_files st)
    | Err _ => False
    end.
Proof.
  intros w settings files.
  split; [by vm_compute|].
  destruct (link_scan w settings files false) as [st|e] eqn:Hscan;
    [|by vm_compute in Hscan].
  split.
  - assert (match link_scan w settings files false with
            | Ok s => actual_files s
            | Err _ => []
            end = actual_files st) as Hfiles by (by rewrite Hscan).
    by vm_compute in Hfiles.
  - apply (symbol_tables_account_for_files w settings files false st);
      [by vm_compute|done].
Defined.

(** ** A group left open *)

Section OpenGroup.

Context (w : World) (force_add_all has_ar : bool).

Lemma link_inputs_app files1 : ∀ files2 st,
  link_inputs w force_add_all has_ar (files1 ++ files2) st
  = do st1 <- link_inputs w force_add_all has_ar files1 st;
    link_inputs w force_add_all has_ar files2 st1.
Proof.
  induction files1 as [|f rest IH]; intros files2 st; simpl; [done|].
  destruct (link_input w force_add_all has_ar f st); simpl; [apply IH|done].
Qed.

Lemma link_input_start_group s st st' :
  s ∈ ["--start-group"; "-("] →
  link_input w force_add_all has_ar s st = Ok st' →
  current_archive_group st' = Some [].
Proof.
  intros Hs. unfold link_input.
  assert (Str.startswith_dash s = true) as ->.
  { apply elem_of_cons in Hs as [->|Hs]; [done|].
    by apply list_elem_of_singleton in Hs as ->. }
  rewrite bool_decide_true by done.
  destruct (current_archive_group st); [done|]. by intros [= <-].
Qed.

Lemma link_input_end_group e st :
  e ∈ ["--end-group"; "-)"] →
  link_input w force_add_all has_ar e st
  = match current_archive_group st with
    | None => Err (AssertionError "--end-group without --start-group")
    | Some group =>
        do st1 <- scan_archive_group w force_add_all group st;
        Ok (set_group None st1)
    end.
Proof.
  intros He. unfold link_input.
  assert (Str.startswith_dash e = true ∧ e ∉ ["--start-group"; "-("])
    as [-> Hnot].
  { apply elem_of_cons in He as [->|He];
      [|apply list_elem_of_singleton in He as ->]; split; try done;
      set_solver. }
  rewrite bool_decide_false by done. by rewrite bool_decide_true by done.
Qed.

(** Inputs that are not flags leave an open group open. *)
Lemma link_inputs_group_open files : ∀ st st',
  (∀ f, f ∈ files → Str.startswith_dash f = false) →
  is_Some (current_archive_group st) →
  link_inputs w force_add_all has_ar files st = Ok st' →
  is_Some (current_archive_group st').
Proof.
  induction files as [|f rest IH]; intros st st' Hfiles Hopen; simpl.
  - by intros [= <-].
  - intros (st1 & Hin & Hrest)%bind_Ok.
    eapply IH; [| |exact Hrest]; [intros; apply Hfiles; by right|].
    unfold link_input in Hin. rewrite (Hfiles f) in Hin by (by left).
    destruct (is_ar w (make_paths_absolute w f)); simpl in Hin.
    + apply bind_Ok in Hin as ([added st2] & Har & Hgroup).
      apply consider_archive_group in Har.
      rewrite Har in Hgroup. destruct Hopen as [g Hg]. rewrite Hg in Hgroup.
      by injection Hgroup as <-.
    + apply bind_Ok in Hin as (bitcode & _ & Hin).
      destruct bitcode; [|by injection Hin as <-].
      destruct has_ar; [|by injection Hin as <-].
      apply bind_Ok in Hin as ([added st2] & Hobj & [= <-]).
      by rewrite (consider_object_group w _ _ _ _ _ Hobj).
Qed.

End OpenGroup.

Lemma compute_has_ar_flag (w : World) files e :
  Str.startswith_dash e = true →
  compute_has_ar w (files ++ [e]) = compute_has_ar w files.
Proof.
  intros He. unfold compute_has_ar. rewrite foldl_app. simpl. by rewrite He.
Qed.

Lemma non_flags_flag files e :
  Str.startswith_dash e = true → non_flags (files ++ [e]) = non_flags files.
Proof.
  intros He. unfold non_flags. rewrite List.filter_app. simpl. rewrite He.
  simpl. by rewrite app_nil_r.
Qed.

(** A group that is opened and not closed is rescanned at the end of the
    command line: when only inputs that are not flags follow the opening
    marker, the link gives the same result, or raises the same exception,
    as the link of the command line with the closing marker added at its
    end. *)
Theorem unmatched_start_group_is_closed (w : World) (settings : SettingsT)
    (before after : list string) (s e : string)
    (force_archive_contents : bool) :
  s ∈ ["--start-group"; "-("] →
  e ∈ ["--end-group"; "-)"] →
  (∀ f, f ∈ after → Str.startswith_dash f = false) →
  link w settings ((before ++ s :: after) ++ [e]) force_archive_contents
  = link w settings (before ++ s :: after) force_archive_contents.
Proof.
  intros Hs He Hafter.
  assert (Str.startswith_dash e = true) as Hdash.
  { apply elem_of_cons in He as [->|He]; [done|].
    by apply list_elem_of_singleton in He as ->. }
  destruct (decide (length (before ++ s :: after) = 1)) as [Hone|Hmany].
  - destruct before as [|? [|]]; destruct after as [|? ?]; simpl in Hone;
      try (rewrite ?length_app in Hone; simpl in Hone; lia).
    simpl.
    apply elem_of_cons in Hs as [->|Hs];
      [|apply list_elem_of_singleton in Hs as ->];
      (apply elem_of_cons in He as [->|He];
       [|apply list_elem_of_singleton in He as ->]); by vm_compute.
  - unfold link, link_scan.
    rewrite compute_has_ar_flag, non_flags_flag by done.
    rewrite (bool_decide_false (length (before ++ s :: after) = 1)) by done.
    rewrite (bool_decide_false (length ((before ++ s :: after) ++ [e]) = 1))
      by (rewrite !length_app; simpl; lia).
    destruct (read_link_inputs w (non_flags (before ++ s :: after)));
      [|done].
    cbn [bind]. rewrite link_inputs_app.
    destruct (link_inputs w _ _ (before ++ s :: after) (initial_state settings))
      as [st1|err] eqn:Hscan; [|done].
    cbn [bind link_inputs].
    assert (is_Some (current_archive_group st1)) as [g Hg].
    { rewrite link_inputs_app in Hscan.
      apply bind_Ok in Hscan as (sta & _ & Hscan). simpl in Hscan.
      apply bind_Ok in Hscan as (stb & Hstart & Hrest).
      apply link_input_start_group in Hstart; [|done].
      eapply link_inputs_group_open; [done| |exact Hrest].
      by rewrite Hstart. }
    rewrite link_input_end_group, Hg by done.
    destruct g as [|archive g].
    + by rewrite scan_archive_group_nil.
    + destruct (scan_archive_group w _ (archive :: g) st1); done.
Qed.

Lemma unmatched_start_group_is_closed_witness :
  let w := SampleLink.world in
  let settings := SampleLink.exports ["_g"] in
  let files := ["util.o"; "--start-group"; "libA.a"; "libB.a"] in
  link w settings files false
  = Ok ["/src/util.o"; SampleLink.tmp "/src/libB.a" "b.o";
        SampleLink.tmp "/src/libA.a" "a.o"]
  ∧ link w settings (files ++ ["--end-group"]) false
    = link w settings files false.
Proof.
  intros w settings files. split; [by vm_compute|].
  apply (unmatched_start_group_is_closed w settings ["util.o"]
           ["libA.a"; "libB.a"] "--start-group" "--end-group" false).
  - by left.
  - by left.
  - intros f [->|[->|Hf]%elem_of_cons]%elem_of_cons; [done..|].
    by apply elem_of_nil in Hf.
Defined.

(** ** Probing and extracting the inputs *)

Lemma filter_nil_elem {A} (p : A → bool) (l : list A) :
  length (List.filter p l) = 0 → ∀ x, x ∈ l → p x = false.
Proof.
  induction l as [|y l IH]; simpl; [by intros _ x ?%elem_of_nil|].
  destruct (p y) eqn:Hy; [done|].
  intros Hlen x [->|Hx]%elem_of_cons; [done|by apply IH].
Qed.

(** [extract_archive_contents] never raises and is all or nothing.  When it
    reports success every path it returns is the name of a listed member
    inside the temporary directory and exists on disk; when it reports
    failure it returns no file and no directory.  An archive whose listing
    is empty is a success with no files, and [llvm-ar xo] is not consulted
    for it. *)
Theorem extraction_all_or_nothing (w : World) (f : string) :
  let e := extract_archive_contents w f in
  (x_returncode e = 0%Z ∨ x_returncode e = 1%Z)
  ∧ (x_returncode e = 0%Z →
       x_dir e = Some (mkdtemp w f)
       ∧ ∀ p, p ∈ x_files e → file_bytes w p ≠ None)
  ∧ (x_returncode e ≠ 0%Z → x_files e = [] ∧ x_dir e = None)
  ∧ (∀ out, llvm_ar_t w f = Some out →
       List.filter Str.nonempty (output_lines out) = [] →
       x_returncode e = 0%Z ∧ x_files e = [] ∧ x_warnings e = []).
Proof.
  intros e. subst e. unfold extract_archive_contents, extract_failed.
  destruct (llvm_ar_t w f) as [out|]; simpl; [|by split_and!; eauto].
  case_bool_decide as Hempty; simpl.
  { split_and!; eauto; [by intros _; split; [|intros p ?%elem_of_nil]|done|].
    intros out' [= <-] Hnil. rewrite Hnil. done. }
  destruct (llvm_ar_xo w f); simpl.
  - case_bool_decide as Hmissing; simpl.
    + split_and!; eauto; [|done|].
      * intros _. split; [done|]. intros p Hp.
        pose proof (filter_nil_elem _ _ Hmissing p Hp) as Hexists.
        by apply bool_decide_eq_false in Hexists.
      * intros out' [= <-] Hnil. by rewrite Hnil in Hempty.
    + split_and!; eauto; [done|].
      intros out' [= <-] Hnil. by rewrite Hnil in Hempty.
  - split_and!; eauto; [done|].
    intros out' [= <-] Hnil. by rewrite Hnil in Hempty.
Qed.

Lemma probe_inputs_Ok (w : World) files : ∀ names,
  probe_inputs w files = Ok names →
  names = List.filter (is_ar w) (make_paths_absolute w <$> files)
  ∧ ∀ f, f ∈ files → is_ar w (make_paths_absolute w f) = false →
         ∃ b, is_bitcode w (make_paths_absolute w f) = Ok b.
Proof.
  induction files as [|f rest IH]; intros names; simpl.
  - intros [= <-]. split; [done|]. intros f. by rewrite elem_of_nil.
  - destruct (is_ar w (make_paths_absolute w f)) eqn:Har.
    + intros (names' & [-> Hrest]%IH & [= <-])%bind_Ok. split; [done|].
      intros f0 [->|Hf0]%elem_of_cons; [congruence|by apply Hrest].
    + intros (b & Hb & [-> Hrest]%IH)%bind_Ok. split; [done|].
      intros f0 [->|Hf0]%elem_of_cons; [eauto|by apply Hrest].
Qed.

Lemma check_extracted_Ok (w : World) names :
  check_extracted w names = Ok ()
  ↔ ∀ a, a ∈ names → x_returncode (extract_archive_contents w a) = 0%Z.
Proof.
  induction names as [|name rest IH]; simpl.
  - split; [|done]. intros _ a. by rewrite elem_of_nil.
  - case_bool_decide as Hrc.
    + split; [done|]. intros Hall. destruct Hrc. apply Hall. by left.
    + rewrite IH. set_solver.
Qed.

(** [read_link_inputs] lets the link go on exactly when every archive among
    the inputs extracts with return code 0 and every other input can be
    read by [is_bitcode]; otherwise the link stops with an exception before
    any input is scanned. *)
Theorem read_link_inputs_succeeds (w : World) (files : list string) :
  read_link_inputs w files = Ok ()
  ↔ ∀ f, f ∈ files → readable_input w f.
Proof.
  unfold read_link_inputs, readable_input. split.
  - intros (names & Hprobe & Hcheck)%bind_Ok f Hf.
    apply probe_inputs_Ok in Hprobe as [-> Hread].
    destruct (is_ar w (make_paths_absolute w f)) eqn:Har; [|by apply Hread].
    rewrite check_extracted_Ok in Hcheck. apply Hcheck.
    apply list_elem_of_In, List.filter_In. split; [|done].
    apply list_elem_of_In, list_elem_of_fmap. eauto.
  - intros Hall.
    assert (∃ names, probe_inputs w files = Ok names
                     ∧ ∀ a, a ∈ names →
                         x_returncode (extract_archive_contents w a) = 0%Z)
      as (names & -> & Hnames).
    { induction files as [|f rest IH]; simpl.
      - exists []. split; [done|]. intros a. by rewrite elem_of_nil.
      - destruct IH as (names & -> & Hnames);
          [intros f0 Hf0; apply Hall; by right|].
        specialize (Hall f (list_elem_of_here _ _)).
        destruct (is_ar w (make_paths_absolute w f)); simpl.
        + eexists. split; [done|].
          intros a [->|Ha]%elem_of_cons; [done|by apply Hnames].
        + destruct Hall as [b ->]. simpl. eauto. }
    simpl. by apply check_extracted_Ok.
Qed.

Lemma is_ar_bytes (w : World) (f : string) :
  is_ar w f = true
  ↔ ∃ content, file_bytes w f = Some content
               ∧ take 8 content = [33; 60; 97; 114; 99; 104; 62; 10]%Z.
Proof.
  unfold is_ar, byte_is. destruct (file_bytes w f) as [content|];
    [|split; [done|by intros (? & [=] & _)]].
  rewrite !andb_true_iff, !bool_decide_eq_true. split.
  - intros (((((((H0 & H1) & H2) & H3) & H4) & H5) & H6) & H7).
    exists content. split; [done|].
    destruct (take 8 content)
      as [|b0 [|b1 [|b2 [|b3 [|b4 [|b5 [|b6 [|b7 rest]]]]]]]] eqn:Htake;
      simplify_eq/=.
    assert (length (take 8 content) ≤ 8) as Hlen by (rewrite length_take; lia).
    rewrite Htake in Hlen. destruct rest; [done|simpl in Hlen; lia].
  - intros (? & [= <-] & ->). done.
Qed.

(** [is_bitcode] accepts every file that [is_ar] accepts.  It raises only
    for a file that cannot be opened, which [is_ar] answers with [False],
    and for a file that starts with the wrapper magic and is shorter than 22
    bytes. *)
Theorem archives_count_as_bitcode (w : World) (f : string) :
  (is_ar w f = true → is_bitcode w f = Ok true)
  ∧ (file_bytes w f = None →
       is_bitcode w f = Err (IOError f) ∧ is_ar w f = false)
  ∧ (∀ e, is_bitcode w f = Err e →
       file_bytes w f = None
       ∨ ∃ content, file_bytes w f = Some content
                    ∧ take 4 content = wrapper_magic
                    ∧ length content < 22).
Proof.
  split_and!.
  - intros Har. unfold is_bitcode. rewrite Har.
    apply is_ar_bytes in Har as (content & -> & Htake).
    destruct content as [|b0 [|b1 [|b2 [|b3 rest]]]]; simplify_eq/=.
    done.
  - intros Hnone. unfold is_bitcode, is_ar. by rewrite Hnone.
  - intros e. unfold is_bitcode, byte_is, wrapper_magic.
    destruct (file_bytes w f) as [content|]; [|by left].
    intros He. right. exists content. split; [done|].
    destruct content as [|b0 [|b1 [|b2 [|b3 rest]]]]; try done.
    rewrite (lookup_take_lt _ 24 20), (lookup_take_lt _ 24 21) in He by lia.
    change (take 4 (b0 :: b1 :: b2 :: b3 :: rest)) with [b0; b1; b2; b3]
      in He |- *.
    cbn [length Nat.ltb Nat.leb] in He.
    change ([b0; b1; b2; b3] !! 0) with (Some b0) in He.
    change ([b0; b1; b2; b3] !! 1) with (Some b1) in He.
    change ([b0; b1; b2; b3] !! 2) with (Some b2) in He.
    change ([b0; b1; b2; b3] !! 3) with (Some b3) in He.
    destruct (_ && _) in He; [done|].
    destruct (is_ar w f); [done|].
    destruct (_ && _) eqn:Hmagic in He; [|done].
    rewrite !andb_true_iff, !bool_decide_eq_true in Hmagic.
    destruct Hmagic as (((H0 & H1) & H2) & H3); simplify_eq.
    split; [done|].
    destruct ((222%Z :: 192%Z :: 23%Z :: 11%Z :: rest) !! 20) as [x|] eqn:H20.
    + case_bool_decide; [|done].
      destruct ((222%Z :: 192%Z :: 23%Z :: 11%Z :: rest) !! 21) eqn:H21;
        [done|].
      apply lookup_ge_None in H21. lia.
    + apply lookup_ge_None in H20. lia.
Qed.

(** ** The two modes of [parse_symbols] *)

Lemma parse_lines_modes lines : ∀ acc1 acc2,
  l_undefs acc1 = l_undefs acc2 → l_commons acc1 = l_commons acc2 →
  l_undefs (foldl (parse_line true) acc1 lines)
  = l_undefs (foldl (parse_line false) acc2 lines)
  ∧ l_commons (foldl (parse_line true) acc1 lines)
    = l_commons (foldl (parse_line false) acc2 lines).
Proof.
  induction lines as [|line lines IH]; intros acc1 acc2 Hu Hc; simpl; [done|].
  apply IH; rewrite !parse_line_entry;
    destruct (line_entry line) as [[status sym]|]; try done;
    repeat case_bool_decide; simpl; try congruence;
    destruct (is_defined_status true status),
      (is_defined_status false status); simpl; congruence.
Qed.

Lemma parse_lines_defs include_internal lines : ∀ acc symbol,
  symbol ∈ l_defs (foldl (parse_line include_internal) acc lines)
  ↔ symbol ∈ l_defs acc
    ∨ ∃ line status, line ∈ lines ∧ line_entry line = Some (status, symbol)
                     ∧ status ≠ "U" ∧ status ≠ "C"
                     ∧ is_defined_status include_internal status = true.
Proof.
  induction lines as [|line lines IH]; intros acc symbol; simpl.
  - split; [by left|]. intros [?|(? & ? & []%elem_of_nil & _)]. done.
  - rewrite IH, parse_line_entry. clear IH.
    destruct (line_entry line) as [[status sym]|] eqn:He.
    + repeat case_bool_decide; subst;
        try destruct (is_defined_status include_internal status) eqn:Hd;
        simpl; rewrite ?elem_of_app, ?list_elem_of_singleton;
        split; intros Hx; break_hyps;
        eauto 12 using list_elem_of_here, list_elem_of_further.
    + split; intros Hx; break_hyps;
        eauto 12 using list_elem_of_here, list_elem_of_further.
Qed.

(** The mode of [parse_symbols] matters for the defined symbols only: the
    undefined and the common symbols are the same in both modes.  With
    [include_internal] a symbol is defined exactly when some line gives it
    one of the statuses [W], [t], [T], [d], [D]; so the local symbols of
    status [t] and [d] are defined in this mode, and a symbol of another
    upper-case status, such as [B] or [R], is not. *)
Theorem parse_symbols_internal_mode (output symbol : string) :
  undefs (parse_symbols output true) = undefs (parse_symbols output false)
  ∧ commons (parse_symbols output true) = commons (parse_symbols output false)
  ∧ (symbol ∈ defs (parse_symbols output true) ↔
       ∃ line status, line ∈ output_lines output
                      ∧ two_columns line status symbol
                      ∧ status ∈ ["W"; "t"; "T"; "d"; "D"]).
Proof.
  unfold parse_symbols. simpl.
  destruct (parse_lines_modes (output_lines output) (mkSymLists [] [] [])
              (mkSymLists [] [] []) eq_refl eq_refl) as [-> ->].
  split_and!; [done..|].
  rewrite elem_of_list_to_set, parse_lines_defs. simpl.
  setoid_rewrite line_entry_two_columns.
  unfold is_defined_status. simpl. split.
  - intros [[]%elem_of_nil|(line & status & ? & ? & _ & _ & Hin)].
    apply bool_decide_eq_true in Hin. eauto.
  - intros (line & status & ? & ? & Hin). right. exists line, status.
    split_and!; [done..| | |by apply bool_decide_eq_true];
      intros ->; set_solver.
Qed.

(** ** When the graph preparation of [metadce] fails *)

Lemma strip_imports_Err graph e :
  strip_imports graph = Err e
  ↔ e = IndexError
    ∧ ∃ item module, item ∈ graph ∧ g_import item = Some (module, "").
Proof.
  assert (∀ item e', strip_import item = Err e'
                     ↔ e' = IndexError
                       ∧ ∃ module, g_import item = Some (module, ""))
    as Hone.
  { clear e. intros item e. unfold strip_import.
    destruct (g_import item) as [[module [|c name]]|].
    - split; [intros [= <-]; eauto|by intros [-> _]].
    - destruct (Ascii.eqb c "_"%char); (split; [done|]);
        by intros (_ & ? & [=]).
    - split; [done|]. by intros (_ & ? & [=]). }
  induction graph as [|item rest IH]; simpl.
  - split; [done|]. by intros (_ & ? & ? & []%elem_of_nil & _).
  - rewrite bind_Err, Hone. split.
    + intros [(-> & module & Hm)|(item' & _ & Hrest)].
      * split; [done|]. exists item, module. split; [by left|done].
      * apply bind_Err in Hrest as [Hrest|(? & _ & [=])].
        apply IH in Hrest as (-> & i & m & Hi & Hm).
        split; [done|]. exists i, m. split; [by right|done].
    + intros (-> & i & m & [->|Hi]%elem_of_cons & Hm); [left; eauto|].
      destruct (strip_import item) as [item'|e'] eqn:Hitem.
      * right. exists item'. split; [done|]. apply bind_Err. left.
        apply IH. eauto.
      * left. apply Hone in Hitem as [-> ?]. eauto.
Qed.

(** Preparing the graph fails exactly when the wasm backend is active and
    some import item has an empty name, and then with an [IndexError];
    with the other backend it always succeeds. *)
Theorem metadce_graph_fails (settings : SettingsT)
    (user_requested_exports : list string) (graph : list GraphItem) (e : exn) :
  metadce_graph settings user_requested_exports graph = Err e
  ↔ WASM_BACKEND settings = true ∧ e = IndexError
    ∧ ∃ item module, item ∈ graph ∧ g_import item = Some (module, "").
Proof.
  unfold metadce_graph. destruct (WASM_BACKEND settings).
  - rewrite strip_imports_Err. split.
    + intros (-> & item' & module & (item & -> & Hitem)%list_elem_of_fmap & Hm).
      split_and!; [done..|]. exists item, module. split; [done|].
      by destruct (mark_root_spec settings user_requested_exports item)
        as (_ & _ & <- & _).
    + intros (_ & -> & item & module & Hitem & Hm). split; [done|].
      exists (mark_root settings user_requested_exports item), module.
      split; [by apply list_elem_of_fmap_2|].
      by destruct (mark_root_spec settings user_requested_exports item)
        as (_ & _ & -> & _).
  - split; [done|]. by intros ([=] & _).
Qed.

(** ** The helpers of the [JS] and [WebAssembly] classes *)

Lemma land_127 x : Z.land x 127 = (x mod 128)%Z.
Proof. exact (Z.land_ones x 7 ltac:(lia)). Qed.

Lemma lor_128 b : (0 ≤ b < 128)%Z → Z.lor b 128 = (b + 128)%Z.
Proof.
  intros Hb.
  assert (Hl : Z.land b 128 = 0%Z).
  { apply Z.bits_inj'. intros n Hn. rewrite Z.land_spec, Z.bits_0.
    destruct (decide (n = 7%Z)) as [->|Hne].
    - rewrite (Z.bits_above_log2 b 7); [done|lia|].
      destruct (decide (b = 0%Z)) as [->|]; [done|].
      apply Z.log2_lt_pow2; lia.
    - change 128%Z with (2 ^ 7)%Z. rewrite Z.pow2_bits_false by lia.
      apply andb_false_r. }
  rewrite <- Z.lxor_lor by done. symmetry. by apply Z.add_nocarry_lxor.
Qed.

Lemma lebify_loop_S fuel x :
  lebify_loop (S fuel) x =
  if negb (x `div` 128 =? 0)%Z
  then do ret <- lebify_loop fuel (x `div` 128)%Z;
       Ok ((x mod 128 + 128)%Z :: ret)
  else Ok [(x mod 128)%Z].
Proof.
  cbn [lebify_loop]. cbv zeta. rewrite land_127, Z.shiftr_div_pow2 by lia.
  change (2 ^ 7)%Z with 128%Z.
  rewrite lor_128; [done|]. apply Z.mod_pos_bound. lia.
Qed.

Lemma lebify_loop_spec fuel x :
  (0 ≤ x < 2 ^ (Z.of_nat fuel + 1))%Z →
  ∃ bytes, lebify_loop (S fuel) x = Ok bytes ∧ leb_value bytes = x ∧
           leb_canonical bytes ∧
           Z.of_nat (length bytes) = (Z.log2 x / 7 + 1)%Z.
Proof.
  revert x. induction fuel as [|fuel IH]; intros x Hx; rewrite lebify_loop_S;
    (destruct (x `div` 128 =? 0)%Z eqn:E; cbn [negb];
     [apply Z.eqb_eq in E|apply Z.eqb_neq in E]).
  1, 3: assert (x < 128)%Z by (apply Z.div_small_iff in E; lia);
    exists [x]; rewrite Z.mod_small by lia;
    cbn [leb_value leb_canonical length];
    rewrite !land_127, !Z.mod_small by lia;
    split; [done|]; split; [lia|]; split; [lia|];
    destruct (decide (x = 0%Z)) as [->|]; [done|];
    assert (Z.log2 x < 7)%Z by (apply Z.log2_lt_pow2; lia);
    pose proof (Z.log2_nonneg x); rewrite Z.div_small by lia; lia.
  - change (2 ^ (Z.of_nat 0 + 1))%Z with 2%Z in Hx.
    rewrite Z.div_small in E; lia.
  - assert (Hx' : (0 ≤ x `div` 128 < 2 ^ (Z.of_nat fuel + 1))%Z).
    { split; [apply Z.div_pos; lia|].
      apply Z.div_lt_upper_bound; [lia|].
      replace (Z.of_nat (S fuel) + 1)%Z with (Z.succ (Z.of_nat fuel + 1)) in Hx by lia.
      rewrite Z.pow_succ_r in Hx by lia.
      pose proof (Z.pow_pos_nonneg 2 (Z.of_nat fuel + 1)). lia. }
    destruct (IH _ Hx') as (bytes & -> & Hv & Hc & Hl).
    cbn [bind]. eexists. split; [done|].
    pose proof (Z.mod_pos_bound x 128).
    cbn [leb_value length]. rewrite Hv, land_127.
    replace (x mod 128 + 128)%Z with (x mod 128 + 1 * 128)%Z by lia.
    rewrite Z.mod_add, Z.mod_mod by lia.
    split; [pose proof (Z.div_mod x 128); lia|]. split.
    + destruct bytes as [|b bytes]; [done|].
      cbn [leb_canonical]. cbn [leb_canonical] in Hc.
      split; [lia|]. split; [done|]. by rewrite Hv.
    + rewrite Nat2Z.inj_succ, Hl.
      assert (128 ≤ x)%Z.
      { destruct (decide (x < 128)%Z); [|lia]. rewrite Z.div_small in E; lia. }
      change 128%Z with (2 ^ 7)%Z at 1.
      rewrite <- (Z.shiftr_div_pow2 x 7), Z.log2_shiftr by lia.
      assert (7 ≤ Z.log2 x)%Z by (apply (Z.log2_le_pow2 x 7); lia).
      rewrite Z.max_r by lia.
      replace (Z.log2 x)%Z with ((Z.log2 x - 7) + 1 * 7)%Z at 2 by lia.
      rewrite Z.div_add by lia. lia.
Qed.

Lemma lebify_loop_mono fuel fuel' x bytes :
  fuel ≤ fuel' → lebify_loop fuel x = Ok bytes →
  lebify_loop fuel' x = Ok bytes.
Proof.
  revert fuel' x bytes.
  induction fuel as [|fuel IH]; intros fuel' x bytes Hle; [done|].
  destruct fuel' as [|fuel']; [lia|]. rewrite !lebify_loop_S.
  destruct (negb _); [|done].
  destruct (lebify_loop fuel _) as [ret|] eqn:E; [|done].
  by rewrite (IH fuel' _ ret ltac:(lia) E).
Qed.

Lemma leb_canonical_bytes bytes :
  leb_canonical bytes → bytearray bytes = Ok bytes.
Proof.
  intros Hc. unfold bytearray.
  assert (forallb (λ b, (0 <=? b)%Z && (b <? 256)%Z) bytes = true) as ->; [|done].
  induction bytes as [|b [|b' bytes] IH]; [done| |].
  - cbn in Hc |- *. rewrite andb_true_r. apply andb_true_iff.
    split; [apply Z.leb_le|apply Z.ltb_lt]; lia.
  - destruct Hc as (Hb & Hc & _).
    change (((0 <=? b)%Z && (b <? 256)%Z) &&
            forallb (λ b, (0 <=? b)%Z && (b <? 256)%Z) (b' :: bytes) = true).
    rewrite (IH Hc), andb_true_r.
    apply andb_true_iff. split; [apply Z.leb_le|apply Z.ltb_lt]; lia.
Qed.

Lemma leb_value_nonneg bytes : (0 ≤ leb_value bytes)%Z.
Proof.
  induction bytes as [|b bytes IH]; [done|]. cbn [leb_value].
  rewrite land_127. pose proof (Z.mod_pos_bound b 128). lia.
Qed.

Lemma lebify_loop_decodes bytes :
  leb_canonical bytes →
  lebify_loop (length bytes) (leb_value bytes) = Ok bytes.
Proof.
  induction bytes as [|b [|b' bytes] IH]; [done| |].
  - intros Hb. cbn [leb_canonical] in Hb. cbn [length leb_value].
    rewrite lebify_loop_S, land_127, Z.mod_small by lia.
    rewrite Z.add_0_r, Z.div_small, Z.mod_small by lia. done.
  - intros (Hb & Hc & Hv). specialize (IH Hc).
    change (length (b :: b' :: bytes)) with (S (length (b' :: bytes))).
    change (leb_value (b :: b' :: bytes))
      with (Z.land b 127 + 128 * leb_value (b' :: bytes))%Z.
    pose proof (leb_value_nonneg (b' :: bytes)).
    set (v := leb_value (b' :: bytes)) in *.
    rewrite lebify_loop_S, land_127.
    assert (b mod 128 = b - 128)%Z as ->.
    { symmetry. apply (Z.mod_unique_pos b 128 1); lia. }
    replace (b - 128 + 128 * v)%Z with (b - 128 + v * 128)%Z by lia.
    rewrite Z.div_add, Z.mod_add, Z.div_small, Z.mod_small by lia.
    rewrite Z.add_0_l. destruct (v =? 0)%Z eqn:E; [apply Z.eqb_eq in E; lia|].
    cbn [negb]. rewrite IH. cbn [bind]. do 2 f_equal. lia.
Qed.

Lemma lebify_spec (x : Z) :
  (0 ≤ x)%Z →
  ∃ bytes,
    lebify x = Ok bytes ∧ leb_value bytes = x ∧ leb_canonical bytes ∧
    Z.of_nat (length bytes) = (Z.log2 x / 7 + 1)%Z ∧
    ∀ fuel, (Z.log2 x < Z.of_nat fuel)%Z → lebify_loop fuel x = Ok bytes.
Proof.
  intros Hx. unfold lebify.
  destruct (x <? 0)%Z eqn:E; [apply Z.ltb_lt in E; lia|].
  pose proof (Z.log2_nonneg x) as Hl.
  destruct (lebify_loop_spec (Z.to_nat (Z.log2 x)) x) as (bytes & He & Hv & Hc & Hn).
  { split; [done|]. rewrite Z2Nat.id by done.
    destruct (decide (x = 0%Z)) as [->|]; [done|].
    apply Z.log2_spec. lia. }
  exists bytes. rewrite He. cbn [bind]. rewrite (leb_canonical_bytes _ Hc).
  repeat split; try done.
  intros fuel Hf. eapply lebify_loop_mono; [|exact He]. lia.
Qed.

(** [WebAssembly.lebify] on a number that is not negative: the loop ends
    and gives the canonical unsigned LEB128 bytes of the number, one for
    every seven bits of it; more iterations than the number has bits change
    nothing. *)
Theorem lebify_encodes (x : Z) :
  (0 ≤ x)%Z →
  ∃ bytes,
    lebify x = Ok bytes ∧ leb_value bytes = x ∧ leb_canonical bytes ∧
    Z.of_nat (length bytes) = (Z.log2 x / 7 + 1)%Z ∧
    ∀ fuel, (Z.log2 x < Z.of_nat fuel)%Z → lebify_loop fuel x = Ok bytes.
Proof. apply lebify_spec. Qed.

Lemma lebify_encodes_witness :
  (0 ≤ 624485)%Z ∧
  ∃ bytes,
    lebify 624485 = Ok bytes ∧ leb_value bytes = 624485%Z ∧
    leb_canonical bytes ∧
    Z.of_nat (length bytes) = (Z.log2 624485 / 7 + 1)%Z ∧
    ∀ fuel, (Z.log2 624485 < Z.of_nat fuel)%Z →
            lebify_loop fuel 624485 = Ok bytes.
Proof. split; [lia|]. apply (lebify_encodes 624485). lia. Defined.

(** [WebAssembly.lebify] gives back every canonical sequence of LEB128
    bytes from the number it stands for: the encoding is the only canonical
    one. *)
Theorem lebify_decodes (bytes : list Z) :
  leb_canonical bytes → lebify (leb_value bytes) = Ok bytes.
Proof.
  intros Hc. pose proof (leb_value_nonneg bytes) as Hx.
  destruct (lebify_spec _ Hx) as (bytes' & He & _ & _ & _ & Hf).
  rewrite He. f_equal.
  pose proof (lebify_loop_decodes _ Hc) as Hd.
  set (n := (length bytes `max` S (Z.to_nat (Z.log2 (leb_value bytes))))).
  assert (H1 : lebify_loop n (leb_value bytes) = Ok bytes)
    by (eapply lebify_loop_mono; [|exact Hd]; lia).
  rewrite (Hf n) in H1 by lia. by simplify_eq.
Qed.

Lemma lebify_decodes_witness :
  leb_canonical [229; 142; 38]%Z ∧
  lebify (leb_value [229; 142; 38]%Z) = Ok [229; 142; 38]%Z.
Proof.
  split; [by vm_compute|]. apply (lebify_decodes [229; 142; 38]%Z).
  by vm_compute.
Defined.

Lemma align_loop_spec by_ fuel x d :
  (0 ≤ d < Z.of_nat fuel)%Z → ((x + d) mod by_ = 0)%Z →
  ∃ y, align_loop fuel x by_ = Ok y ∧ (x ≤ y ≤ x + d)%Z ∧
       (y mod by_ = 0)%Z ∧ ∀ z, (x ≤ z < y)%Z → (z mod by_ ≠ 0)%Z.
Proof.
  revert x d. induction fuel as [|fuel IH]; intros x d Hd Hm; [lia|].
  cbn [align_loop]. destruct (x mod by_ =? 0)%Z eqn:E; cbn [negb].
  - apply Z.eqb_eq in E. exists x. repeat split; try done; lia.
  - apply Z.eqb_neq in E.
    assert (d ≠ 0%Z) by (intros ->; by rewrite Z.add_0_r in Hm).
    destruct (IH (x + 1)%Z (d - 1)%Z) as (y & -> & Hy & Hym & Hz); [lia| |].
    { by replace (x + 1 + (d - 1))%Z with (x + d)%Z by lia. }
    exists y. repeat split; try done; try lia.
    intros z Hz'. destruct (decide (z = x)) as [->|]; [done|]. apply Hz. lia.
Qed.

(** [JS.align] with a divisor that is not zero ends and gives the least
    multiple of the divisor from [x] on, less than [|by|] away; the sign of
    the divisor does not matter. *)
Theorem align_least_multiple (x by_ : Z) :
  by_ ≠ 0%Z →
  ∃ y, align x by_ = Ok y ∧ (x ≤ y < x + Z.abs by_)%Z ∧ (by_ | y)%Z ∧
       (∀ z, (x ≤ z < y)%Z → ¬ (by_ | z)%Z) ∧
       align x (- by_) = Ok y.
Proof.
  intros Hby.
  assert (Hspec : ∀ b, b ≠ 0%Z → Z.abs b = Z.abs by_ →
    ∃ y, align x b = Ok y ∧ (x ≤ y ≤ x + (- x) mod Z.abs by_)%Z ∧
         (y mod b = 0)%Z ∧ ∀ z, (x ≤ z < y)%Z → (z mod b ≠ 0)%Z).
  { intros b Hb Hab. unfold align.
    destruct (b =? 0)%Z eqn:E; [apply Z.eqb_eq in E; lia|].
    pose proof (Z.mod_pos_bound (- x) (Z.abs by_) ltac:(lia)).
    apply align_loop_spec; [lia|].
    apply Z.mod_divide; [done|]. apply Z.divide_abs_l. rewrite Hab.
    exists (- ((- x) / Z.abs by_))%Z.
    pose proof (Z.div_mod (- x) (Z.abs by_)). lia. }
  destruct (Hspec by_ Hby eq_refl) as (y & He & Hy & Hm & Hz).
  destruct (Hspec (- by_)%Z ltac:(lia) (Z.abs_opp _)) as (y' & He' & Hy' & Hm' & Hz').
  pose proof (Z.mod_pos_bound (- x) (Z.abs by_) ltac:(lia)).
  assert (Hdiv : ∀ z, (z mod (- by_) = 0 ↔ z mod by_ = 0)%Z).
  { intros z. rewrite !Z.mod_divide by lia. apply Z.divide_opp_l. }
  exists y. split; [done|]. split; [lia|]. split; [by apply Z.mod_divide|].
  split; [intros z Hz1 Hz2; apply (Hz z Hz1); by apply Z.mod_divide|].
  rewrite He'. f_equal.
  destruct (Z.lt_trichotomy y y') as [Hlt|[->|Hlt]]; [|done|].
  - destruct (Hz' y); [lia|]. by apply Hdiv.
  - destruct (Hz y'); [lia|]. by apply Hdiv.
Qed.

Lemma align_least_multiple_witness :
  (-4)%Z ≠ 0%Z ∧
  ∃ y, align 13 (-4) = Ok y ∧ (13 ≤ y < 13 + Z.abs (-4))%Z ∧ ((-4) | y)%Z ∧
       (∀ z, (13 ≤ z < y)%Z → ¬ ((-4) | z)%Z) ∧
       align 13 (- (-4)) = Ok y.
Proof. split; [lia|]. apply (align_least_multiple 13 (-4)). lia. Defined.

Lemma legalize_tail_no_j s : count_char "j" (legalize_tail s) = 0.
Proof.
  induction s as [|c s IH]; [done|]. cbn [legalize_tail].
  destruct (Ascii.eqb c "j") eqn:E; cbn [negb count_char]; [by rewrite IH|].
  by rewrite E, IH.
Qed.

Lemma legalize_tail_length s :
  String.length (legalize_tail s) = String.length s + count_char "j" s.
Proof.
  induction s as [|c s IH]; [done|]. cbn [legalize_tail count_char].
  destruct (Ascii.eqb c "j") eqn:E; cbn [negb String.length]; rewrite IH; lia.
Qed.

Lemma legalize_tail_fixed s :
  count_char "j" s = 0 → legalize_tail s = s.
Proof.
  induction s as [|c s IH]; [done|]. cbn [legalize_tail count_char].
  destruct (Ascii.eqb c "j") eqn:E; cbn [negb]; [done|].
  intros H. by rewrite IH.
Qed.

(** [JS.legalize_sig] on a signature that is not empty keeps the return
    type, even an [j], leaves no [j] among the parameters, lengthens the
    signature by one for every [j] parameter, and changes nothing when run
    again on its result. *)
Theorem legalize_sig_legal (c : ascii) (params : string) :
  ∃ out,
    legalize_sig (String c params) = Ok (String c out) ∧
    count_char "j" out = 0 ∧
    String.length out = String.length params + count_char "j" params ∧
    legalize_sig (String c out) = Ok (String c out).
Proof.
  exists (legalize_tail params). cbn [legalize_sig].
  split; [done|]. split; [apply legalize_tail_no_j|].
  split; [apply legalize_tail_length|].
  by rewrite legalize_tail_fixed by apply legalize_tail_no_j.
Qed.


(** ** Quoting *)

Lemma replace_char_cons a new c s :
  PyStr.replace (PyStr.char a) new (String c s) =
  (if Ascii.eqb a c then new else PyStr.char c)
  +:+ PyStr.replace (PyStr.char a) new s.
Proof.
  unfold PyStr.replace, PyStr.char. cbn [PyStr.replace_from PyStr.startswith].
  rewrite andb_true_r. by destruct (Ascii.eqb a c).
Qed.

Lemma string_app_cons c (s t : string) : String c s +:+ t = String c (s +:+ t).
Proof. done. Qed.

Lemma string_app_nil (t : string) : EmptyString +:+ t = t.
Proof. done. Qed.

Lemma string_app_assoc (a b c : string) : (a +:+ b) +:+ c = a +:+ (b +:+ c).
Proof.
  induction a as [|x a IH]; [done|].
  change (String x ((a +:+ b) +:+ c) = String x (a +:+ b +:+ c)).
  by rewrite IH.
Qed.

Lemma replace_char_app a new s t :
  PyStr.replace (PyStr.char a) new (s +:+ t) =
  PyStr.replace (PyStr.char a) new s +:+ PyStr.replace (PyStr.char a) new t.
Proof.
  induction s as [|c s IH]; [done|].
  change (String c s +:+ t) with (String c (s +:+ t)).
  by rewrite !replace_char_cons, IH, string_app_assoc.
Qed.

Lemma replace_from_hit old new c s :
  PyStr.startswith old (String c s) = true →
  PyStr.replace_from old new 0 (String c s) =
  new +:+ PyStr.replace_from old new (String.length old - 1) s.
Proof. intros H. cbn [PyStr.replace_from]. by rewrite H. Qed.

Lemma replace_from_miss old new c s :
  PyStr.startswith old (String c s) = false →
  PyStr.replace_from old new 0 (String c s) =
  String c (PyStr.replace_from old new 0 s).
Proof. intros H. cbn [PyStr.replace_from]. by rewrite H. Qed.

Lemma escaped_not_quote s :
  PyStr.startswith (PyStr.char PyStr.dquote)
    (PyStr.replace (PyStr.char PyStr.dquote)
       (String PyStr.backslash (PyStr.char PyStr.dquote)) s) = false.
Proof.
  destruct s as [|c s]; [done|]. rewrite replace_char_cons.
  destruct (Ascii.eqb PyStr.dquote c) eqn:E; [done|].
  unfold PyStr.char. rewrite string_app_cons. cbn [PyStr.startswith].
  by rewrite E.
Qed.

Lemma unescape_escape s :
  PyStr.replace (String PyStr.backslash (PyStr.char PyStr.dquote))
    (PyStr.char PyStr.dquote)
    (PyStr.replace (PyStr.char PyStr.dquote)
       (String PyStr.backslash (PyStr.char PyStr.dquote)) s) = s.
Proof.
  induction s as [|c s IH]; [done|]. rewrite replace_char_cons.
  destruct (Ascii.eqb PyStr.dquote c) eqn:E.
  - apply Ascii.eqb_eq in E as <-.
    unfold PyStr.replace, PyStr.char in *.
    rewrite !string_app_cons, string_app_nil, replace_from_hit by done.
    cbn [String.length Nat.sub PyStr.replace_from].
    by rewrite IH.
  - pose proof (escaped_not_quote s) as Hs.
    unfold PyStr.replace in *.
    set (r := PyStr.replace_from (PyStr.char PyStr.dquote)
                (String PyStr.backslash (PyStr.char PyStr.dquote)) 0 s) in *.
    change (PyStr.char c +:+ r) with (String c r).
    rewrite replace_from_miss; [by rewrite IH|].
    cbn [PyStr.startswith]. destruct (Ascii.eqb PyStr.backslash c); [|done].
    destruct r as [|d r]; [done|]. cbn [PyStr.startswith PyStr.char] in Hs |- *.
    by rewrite andb_true_r in *.
Qed.

Lemma endswith_char_snoc q s : PyStr.endswith_char q (s +:+ PyStr.char q) = true.
Proof.
  induction s as [|c s IH]; [cbn; apply Ascii.eqb_refl|].
  change (String c s +:+ PyStr.char q) with (String c (s +:+ PyStr.char q)).
  cbn [PyStr.endswith_char]. destruct (s +:+ PyStr.char q) eqn:E; [|done].
  by destruct s.
Qed.

Lemma drop_last_snoc q s : PyStr.drop_last (s +:+ PyStr.char q) = s.
Proof.
  induction s as [|c s IH]; [done|].
  change (String c s +:+ PyStr.char q) with (String c (s +:+ PyStr.char q)).
  cbn [PyStr.drop_last]. destruct (s +:+ PyStr.char q) eqn:E.
  - by destruct s.
  - by rewrite IH.
Qed.

Lemma doublequoted_is_quoted s :
  quoted_with PyStr.dquote
    (PyStr.char PyStr.dquote +:+ s +:+ PyStr.char PyStr.dquote) = true.
Proof.
  unfold quoted_with. apply andb_true_iff. split; [done|].
  apply (endswith_char_snoc _ (String PyStr.dquote s)).
Qed.

(** [Building.remove_quotes] undoes [Building.doublequote_spaces] on every
    argument that is not between quotes already, whatever quotes and
    backslashes it holds. *)
Theorem quotes_round_trip (arg : string) :
  quoted_with PyStr.dquote arg = false →
  quoted_with PyStr.squote arg = false →
  remove_quotes (doublequote_spaces arg) = arg.
Proof.
  intros Hd Hs. unfold doublequote_spaces. rewrite Hd, Hs, !andb_true_r.
  destruct (Str.contains " " arg).
  - unfold remove_quotes. rewrite doublequoted_is_quoted.
    change (Str.tail (PyStr.char PyStr.dquote +:+ ?s)) with s.
    cbn [Str.tail]. by rewrite drop_last_snoc, unescape_escape.
  - unfold remove_quotes. by rewrite Hd, Hs.
Qed.

Lemma quotes_round_trip_witness :
  let arg := "my " +:+ PyStr.char PyStr.backslash
             +:+ PyStr.char PyStr.dquote +:+ "dir" in
  quoted_with PyStr.dquote arg = false ∧
  quoted_with PyStr.squote arg = false ∧
  remove_quotes (doublequote_spaces arg) = arg.
Proof.
  split; [done|]. split; [done|]. by apply quotes_round_trip.
Defined.

(** [Building.doublequote_spaces] puts quotes once: on its own result it
    changes nothing, and what it returns either has no space or is between
    quotes. *)
Theorem doublequote_spaces_once (arg : string) :
  doublequote_spaces (doublequote_spaces arg) = doublequote_spaces arg ∧
  (Str.contains " " (doublequote_spaces arg) = false ∨
   quoted_with PyStr.dquote (doublequote_spaces arg) = true ∨
   quoted_with PyStr.squote (doublequote_spaces arg) = true).
Proof.
  assert (Hq : ∀ r, doublequote_spaces
            (PyStr.char PyStr.dquote +:+ r +:+ PyStr.char PyStr.dquote) =
            PyStr.char PyStr.dquote +:+ r +:+ PyStr.char PyStr.dquote).
  { intros r. unfold doublequote_spaces at 1.
    by rewrite doublequoted_is_quoted, andb_false_r. }
  unfold doublequote_spaces.
  destruct (Str.contains " " arg && negb (quoted_with PyStr.dquote arg)
            && negb (quoted_with PyStr.squote arg)) eqn:E.
  - split; [apply Hq|]. right. left. apply doublequoted_is_quoted.
  - fold (doublequote_spaces arg). unfold doublequote_spaces. rewrite E.
    split; [done|].
    destruct (Str.contains " " arg); [|by left].
    destruct (quoted_with PyStr.dquote arg); [by right; left|].
    destruct (quoted_with PyStr.squote arg); [by right; right|done].
Qed.

Lemma escape_for_js_string_cons c s :
  escape_for_js_string (String c s) =
  js_escape_char c +:+ escape_for_js_string s.
Proof.
  unfold escape_for_js_string, js_escape_char. cbv zeta.
  rewrite replace_char_cons, !replace_char_app. f_equal.
  rewrite (Ascii.eqb_sym PyStr.backslash c).
  destruct (Ascii.eqb c PyStr.backslash) eqn:Eb; [done|].
  change (PyStr.char c) with (String c EmptyString).
  rewrite replace_char_cons, replace_char_app.
  rewrite (Ascii.eqb_sym PyStr.squote c).
  destruct (Ascii.eqb c PyStr.squote) eqn:Es; [done|].
  change (PyStr.char c) with (String c EmptyString).
  rewrite replace_char_cons.
  rewrite (Ascii.eqb_sym PyStr.dquote c).
  by destruct (Ascii.eqb c PyStr.dquote) eqn:Ed.
Qed.

(** What [JS.escape_for_js_string] returns can stand inside a JS string
    literal between quotes of either kind: no quote in it is left without
    its backslash, and no backslash is left that does not escape a quote. *)
Theorem escape_for_js_string_safe (s : string) :
  js_string_safe (escape_for_js_string s) = true.
Proof.
  induction s as [|c s IH]; [done|].
  rewrite escape_for_js_string_cons. unfold js_escape_char.
  destruct (Ascii.eqb c PyStr.backslash) eqn:Eb; [exact IH|].
  destruct (Ascii.eqb c PyStr.squote) eqn:Es; [exact IH|].
  destruct (Ascii.eqb c PyStr.dquote) eqn:Ed; [exact IH|].
  unfold PyStr.char. rewrite string_app_cons, string_app_nil.
  cbn [js_string_safe]. by rewrite Eb, Es, Ed.
Qed.

(** [line_splitter] adds line breaks and nothing else: without the breaks
    its result is the text it was given. *)
Theorem line_splitter_only_breaks (data : string) :
  unbroken (line_splitter data) = unbroken data.
Proof.
  unfold line_splitter. generalize 0 as k.
  induction data as [|c data IH]; intros k; [done|].
  cbn [line_splitter_loop unbroken].
  destruct (Ascii.eqb c " " && (60 <? k)) eqn:E; cbn [unbroken].
  - apply andb_true_iff in E as [E _]. apply Ascii.eqb_eq in E as ->.
    cbn. by rewrite IH.
  - destruct (Ascii.eqb c "010"); by rewrite IH.
Qed.

Lemma line_splitter_loop_lines data k :
  Str.contains "010" data = false →
  ∃ first rest,
    Str.split "010" (line_splitter_loop data k) = first :: rest ∧
    (rest ≠ [] → 62 ≤ k + String.length first ∧
                 PyStr.endswith_char " " first = true) ∧
    ∀ i line, rest !! i = Some line → S i < length rest →
      62 ≤ String.length line ∧ PyStr.endswith_char " " line = true.
Proof.
  revert k. induction data as [|c data IH]; intros k Hnl.
  { exists EmptyString, []. split; [done|]. split; [done|]. by intros []. }
  cbn [Str.contains] in Hnl. apply orb_false_iff in Hnl as [Hc Hnl].
  cbn [line_splitter_loop].
  destruct (Ascii.eqb c " " && (60 <? k)) eqn:E.
  - destruct (IH 0 Hnl) as (first & rest & Hs & Hf & Hr).
    apply andb_true_iff in E as [Ec Ek]. apply Ascii.eqb_eq in Ec as ->.
    apply Nat.ltb_lt in Ek.
    exists " ", (first :: rest). split.
    { cbn [Str.split]. change (Ascii.eqb " " "010") with false.
      change (Ascii.eqb "010" "010") with true. cbv iota. by rewrite Hs. }
    split; [intros _; cbn; split; [lia|done]|].
    intros [|i] line Hi Hlen.
    + cbn in Hi, Hlen. simplify_eq. apply Hf.
      by destruct rest; [cbn in Hlen; lia|].
    + cbn in Hi, Hlen. apply (Hr i line Hi). lia.
  - destruct (IH (S k) Hnl) as (first & rest & Hs & Hf & Hr).
    exists (String c first), rest. split.
    { cbn [Str.split]. by rewrite Hc, Hs. }
    split; [|done]. intros Hne. destruct (Hf Hne) as [H1 H2].
    split; [cbn; lia|]. cbn [PyStr.endswith_char].
    destruct first; [by cbn in H2|done].
Qed.

(** [line_splitter] breaks a line only after a space that is at least the
    62nd character of the line: every line but the last of what it makes of
    a text without line breaks ends with a space and has 62 characters or
    more. *)
Theorem line_splitter_lines (data : string) (i : nat) (line : string) :
  Str.contains "010" data = false →
  Str.split "010" (line_splitter data) !! i = Some line →
  S i < length (Str.split "010" (line_splitter data)) →
  62 ≤ String.length line ∧ PyStr.endswith_char " " line = true.
Proof.
  intros Hnl Hi Hlen. unfold line_splitter in *.
  destruct (line_splitter_loop_lines data 0 Hnl) as (first & rest & Hs & Hf & Hr).
  rewrite Hs in Hi, Hlen.
  destruct i as [|i]; cbn in Hi, Hlen.
  - simplify_eq. apply Hf. destruct rest; [cbn in Hlen; lia|done].
  - apply (Hr i line Hi). lia.
Qed.

Lemma line_splitter_lines_witness :
  let data := "[1, 2, 3, 4, 5, 6, 7, 8, 9, 10, 11, 12, 13, 14, 15, 16, 17, 18, 19, 20, 21, 22, 23, 24, 25, 26, 27, 28, 29, 30, 31, 32, 33, 34, 35, 36, 37, 38, 39, 40]" in
  let line := "19, 20, 21, 22, 23, 24, 25, 26, 27, 28, 29, 30, 31, 32, 33, 34, " in
  Str.contains "010" data = false ∧
  Str.split "010" (line_splitter data) !! 1 = Some line ∧
  S 1 < length (Str.split "010" (line_splitter data)) ∧
  62 ≤ String.length line ∧ PyStr.endswith_char " " line = true.
Proof.
  intros data line.
  assert (H1 : Str.contains "010" data = false) by (by vm_compute).
  assert (H2 : Str.split "010" (line_splitter data) !! 1 = Some line)
    by (by vm_compute).
  assert (H3 : S 1 < length (Str.split "010" (line_splitter data)))
    by (vm_compute; lia).
  split; [exact H1|]. split; [exact H2|]. split; [exact H3|].
  exact (line_splitter_lines data 1 line H1 H2 H3).
Defined.

(** ** The caches of [llvm-nm] results *)

Lemma cached_llvm_nm_spec w f mode c :
  Cached.coherent w c →
  ∃ c',
    Cached.llvm_nm w f mode c
    = (Cached.nm_result w (abspath w (cwd w) f) mode, c') ∧
    Cached.coherent w c' ∧
    Cached.cache_of mode c' !! abspath w (cwd w) f
    = Some (Cached.nm_result w (abspath w (cwd w) f) mode) ∧
    (∀ m k, is_Some (Cached.cache_of m c !! k) →
            is_Some (Cached.cache_of m c' !! k)) ∧
    (is_Some (Cached.cache_of mode c !! abspath w (cwd w) f) → c' = c) ∧
    (Cached.cache_of mode c !! abspath w (cwd w) f = None →
     Cached.nm_runs c' = (abspath w (cwd w) f, mode) :: Cached.nm_runs c).
Proof.
  intros [Hi Hu]. unfold Cached.llvm_nm. cbv zeta.
  set (a := abspath w (cwd w) f).
  destruct mode.
  - destruct (Cached.internal_nm_cache c !! a) as [ret|] eqn:E.
    + exists c. rewrite (Hi _ _ E) in E |- *. cbn [Cached.cache_of].
      rewrite E. by repeat split.
    + eexists. split; [done|]. cbn.
      repeat split; try done.
      * caches_simpl. intros k info. destruct (decide (k = a)) as [->|Hne].
        -- rewrite lookup_insert_eq. by intros [= <-].
        -- rewrite lookup_insert_ne by done. apply Hi.
      * caches_simpl. by rewrite lookup_insert_eq.
      * intros [] k; caches_simpl; [|done].
        destruct (decide (k = a)) as [->|Hne].
        -- by rewrite lookup_insert_eq.
        -- by rewrite lookup_insert_ne.
      * caches_simpl. rewrite E. by intros [].
  - destruct (Cached.uninternal_nm_cache c !! a) as [ret|] eqn:E.
    + exists c. rewrite (Hu _ _ E) in E |- *. cbn [Cached.cache_of].
      rewrite E. by destruct (Cached.internal_nm_cache c !! a); repeat split.
    + assert (Cached.llvm_nm_uncached w a false c =
              (Cached.nm_result w a false,
               Cached.mkCaches (Cached.internal_nm_cache c)
                 (Cached.uninternal_nm_cache c)
                 ((a, false) :: Cached.nm_runs c))) as Hun by done.
      eexists. split.
      { destruct (Cached.internal_nm_cache c !! a); rewrite Hun; done. }
      cbn. repeat split; try done.
      * caches_simpl. intros k info. destruct (decide (k = a)) as [->|Hne].
        -- rewrite lookup_insert_eq. by intros [= <-].
        -- rewrite lookup_insert_ne by done. apply Hu.
      * caches_simpl. by rewrite lookup_insert_eq.
      * intros [] k; caches_simpl; [done|].
        destruct (decide (k = a)) as [->|Hne].
        -- by rewrite lookup_insert_eq.
        -- by rewrite lookup_insert_ne.
      * caches_simpl. rewrite E. by intros [].
Qed.

(** [Building.llvm_nm] with caches that hold only results of [llvm-nm]
    returns what [llvm-nm] gives for the absolute path of the file, which
    for external symbols is the result of the read-through [llvm_nm] of the
    link; it keeps the caches such, and the same call made again returns
    the same and runs nothing. *)
Theorem nm_cache_read_through w (f : string) (mode : bool) (c : Cached.Caches) :
  Cached.coherent w c →
  ∃ c',
    Cached.llvm_nm w f mode c
    = (Cached.nm_result w (abspath w (cwd w) f) mode, c') ∧
    (mode = false →
     Cached.nm_result w (abspath w (cwd w) f) mode = llvm_nm w f) ∧
    Cached.coherent w c' ∧
    Cached.llvm_nm w f mode c'
    = (Cached.nm_result w (abspath w (cwd w) f) mode, c').
Proof.
  intros Hc.
  destruct (cached_llvm_nm_spec w f mode c Hc)
    as (c' & He & Hc' & Hin & _ & _ & _).
  exists c'. split; [done|]. split; [by intros ->|]. split; [done|].
  destruct (cached_llvm_nm_spec w f mode c' Hc')
    as (c'' & He' & _ & _ & _ & Hsame & _).
  rewrite He'. f_equal. apply Hsame. by rewrite Hin.
Qed.

Lemma no_caches_coherent w : Cached.coherent w Cached.no_caches.
Proof. split; intros f info; cbn; by rewrite lookup_empty. Qed.

Lemma nm_cache_read_through_witness :
  Cached.coherent SampleLink.world Cached.no_caches ∧
  ∃ c',
    Cached.llvm_nm SampleLink.world "main.o" false Cached.no_caches
    = (Cached.nm_result SampleLink.world
         (abspath SampleLink.world (cwd SampleLink.world) "main.o") false,
       c') ∧
    (false = false →
     Cached.nm_result SampleLink.world
       (abspath SampleLink.world (cwd SampleLink.world) "main.o") false
     = llvm_nm SampleLink.world "main.o") ∧
    Cached.coherent SampleLink.world c' ∧
    Cached.llvm_nm SampleLink.world "main.o" false c'
    = (Cached.nm_result SampleLink.world
         (abspath SampleLink.world (cwd SampleLink.world) "main.o") false,
       c').
Proof.
  split; [apply no_caches_coherent|].
  apply (nm_cache_read_through SampleLink.world "main.o" false
           Cached.no_caches).
  apply no_caches_coherent.
Defined.

Lemma llvm_nm_calls_inv w calls c :
  Cached.coherent w c → NoDup (Cached.nm_runs c) →
  (∀ f m, (f, m) ∈ Cached.nm_runs c → is_Some (Cached.cache_of m c !! f)) →
  ∃ c',
    Cached.llvm_nm_calls w calls c
    = ((λ '(f, m), Cached.nm_result w (abspath w (cwd w) f) m) <$> calls, c') ∧
    NoDup (Cached.nm_runs c') ∧
    (∀ r, r ∈ Cached.nm_runs c' →
          r ∈ Cached.nm_runs c ∨
          ∃ f m, (f, m) ∈ calls ∧ r = (abspath w (cwd w) f, m)).
Proof.
  revert c. induction calls as [|[f m] calls IH]; intros c Hc Hnd Hin.
  { exists c. split; [done|]. split; [done|]. by left. }
  destruct (cached_llvm_nm_spec w f m c Hc)
    as (c1 & He & Hc1 & Hin1 & Hmono & Hsame & Hrun).
  cbn [Cached.llvm_nm_calls]. rewrite He.
  assert (Hruns : Cached.nm_runs c1 = Cached.nm_runs c ∨
                  (Cached.cache_of m c !! abspath w (cwd w) f = None ∧
                   Cached.nm_runs c1
                   = (abspath w (cwd w) f, m) :: Cached.nm_runs c)).
  { destruct (Cached.cache_of m c !! abspath w (cwd w) f) eqn:E.
    - left. by rewrite Hsame.
    - right. split; [done|]. by apply Hrun. }
  destruct (IH c1 Hc1) as (c' & He' & Hnd' & Hfrom).
  - destruct Hruns as [->|[Hnone ->]]; [done|].
    apply NoDup_cons. split; [|done].
    intros Hr. apply Hin in Hr. rewrite Hnone in Hr. by destruct Hr.
  - intros g n Hg. destruct Hruns as [Hr|[Hnone Hr]]; rewrite Hr in Hg.
    + apply Hmono. by apply Hin.
    + apply elem_of_cons in Hg as [[= -> ->]|Hg]; [by rewrite Hin1|].
      apply Hmono. by apply Hin.
  - exists c'. rewrite He'. split; [done|]. split; [done|].
    intros r Hr. destruct (Hfrom r Hr) as [Hr1|(g & n & Hg & ->)].
    + destruct Hruns as [Heq|[_ Heq]]; rewrite Heq in Hr1; [by left|].
      apply elem_of_cons in Hr1 as [->|Hr1]; [|by left].
      right. exists f, m. split; [apply elem_of_cons; by left|done].
    + right. exists g, n. split; [apply elem_of_cons; by right|done].
Qed.

(** However [Building.llvm_nm] is called from empty caches, every call
    returns what [llvm-nm] gives for the absolute path of its file, and
    [llvm-nm] is never run twice on the same path for the same
    [include_internal], and only on paths that were asked for. *)
Theorem nm_runs_once w (calls : list (string * bool)) :
  ∃ c',
    Cached.llvm_nm_calls w calls Cached.no_caches
    = ((λ '(f, m), Cached.nm_result w (abspath w (cwd w) f) m) <$> calls, c') ∧
    NoDup (Cached.nm_runs c') ∧
    ∀ r, r ∈ Cached.nm_runs c' →
         ∃ f m, (f, m) ∈ calls ∧ r = (abspath w (cwd w) f, m).
Proof.
  destruct (llvm_nm_calls_inv w calls Cached.no_caches)
    as (c' & He & Hnd & Hfrom).
  - apply no_caches_coherent.
  - apply NoDup_nil_2.
  - intros f m Hin. by apply elem_of_nil in Hin.
  - exists c'. split; [done|]. split; [done|].
    intros r Hr. destruct (Hfrom r Hr) as [Hr'|Hr']; [|done].
    by apply elem_of_nil in Hr'.
Qed.

Lemma map_llvm_nm_uncached_spec w files c :
  Cached.map_llvm_nm_uncached w files c
  = ((λ f, Cached.nm_result w f false) <$> files,
     Cached.mkCaches (Cached.internal_nm_cache c)
       (Cached.uninternal_nm_cache c)
       (reverse ((λ f, (f, false)) <$> files) ++ Cached.nm_runs c)).
Proof.
  revert c. induction files as [|f files IH]; intros c; [by destruct c|].
  cbn [Cached.map_llvm_nm_uncached Cached.llvm_nm_uncached].
  rewrite IH. caches_simpl. by rewrite !fmap_cons, reverse_cons, <- app_assoc.
Qed.

Lemma store_results_spec w files c :
  let c' :=
    foldl (λ c '(f, info),
             Cached.mkCaches (Cached.internal_nm_cache c)
               (<[f := info]> (Cached.uninternal_nm_cache c))
               (Cached.nm_runs c))
          c (zip files ((λ f, Cached.nm_result w f false) <$> files)) in
  Cached.internal_nm_cache c' = Cached.internal_nm_cache c ∧
  Cached.nm_runs c' = Cached.nm_runs c ∧
  (∀ f, f ∈ files →
        Cached.uninternal_nm_cache c' !! f
        = Some (Cached.nm_result w f false)) ∧
  (∀ f, f ∉ files →
        Cached.uninternal_nm_cache c' !! f
        = Cached.uninternal_nm_cache c !! f).
Proof.
  revert c. induction files as [|f files IH]; intros c; cbv zeta.
  { cbn. repeat split; try done. intros f Hf. by apply elem_of_nil in Hf. }
  cbn [fmap list_fmap zip zip_with foldl].
  match goal with |- context [foldl _ ?c0 _] => specialize (IH c0) end.
  cbv zeta in IH. destruct IH as (Hi & Hr & Hin & Hout).
  cbn [Cached.internal_nm_cache Cached.nm_runs Cached.uninternal_nm_cache]
    in Hi, Hr, Hout.
  split; [done|]. split; [done|]. split.
  - intros g Hg. destruct (decide (g ∈ files)) as [Hgf|Hgf]; [by apply Hin|].
    apply elem_of_cons in Hg as [->|Hg]; [|done].
    by rewrite (Hout _ Hgf), lookup_insert_eq.
  - intros g Hg. apply not_elem_of_cons in Hg as [Hne Hg].
    by rewrite (Hout _ Hg), lookup_insert_ne.
Qed.

(** [Building.parallel_llvm_nm] returns what [llvm-nm] gives for each file,
    in order, and leaves them in the cache: [Building.llvm_nm] on one of
    the files, given by its absolute path, then answers from the cache
    without a run; caches that held only results of [llvm-nm] still do. *)
Theorem parallel_nm_primes_cache w (files : list string) (c : Cached.Caches)
    (f : string) :
  Cached.coherent w c →
  f ∈ files →
  abspath w (cwd w) f = f →
  ∃ c',
    Cached.parallel_llvm_nm w files c
    = ((λ f, Cached.nm_result w f false) <$> files, c') ∧
    Cached.coherent w c' ∧
    Cached.llvm_nm w f false c' = (llvm_nm_uncached w f, c').
Proof.
  intros [Hci Hcu] Hf Habs. unfold Cached.parallel_llvm_nm.
  rewrite map_llvm_nm_uncached_spec.
  match goal with |- context [foldl _ ?c0 _] =>
    pose proof (store_results_spec w files c0) as Hs; cbv zeta in Hs
  end.
  destruct Hs as (Hi & Hr & Hin & Hout).
  cbn [Cached.internal_nm_cache Cached.nm_runs Cached.uninternal_nm_cache]
    in Hi, Hr, Hout.
  eexists. split; [done|].
  assert (Hcoh : Cached.coherent w (foldl (λ c '(f, info),
             Cached.mkCaches (Cached.internal_nm_cache c)
               (<[f := info]> (Cached.uninternal_nm_cache c))
               (Cached.nm_runs c))
          (Cached.mkCaches (Cached.internal_nm_cache c)
             (Cached.uninternal_nm_cache c)
             (reverse ((λ f, (f, false)) <$> files) ++ Cached.nm_runs c))
          (zip files ((λ f, Cached.nm_result w f false) <$> files)))).
  { split.
    - intros g info. rewrite Hi. apply Hci.
    - intros g info. destruct (decide (g ∈ files)) as [Hg|Hg].
      + rewrite (Hin _ Hg). by intros [= <-].
      + rewrite (Hout _ Hg). apply Hcu. }
  split; [done|].
  destruct (cached_llvm_nm_spec w f false _ Hcoh)
    as (c'' & He & _ & _ & _ & Hsame & _).
  rewrite He, Habs. f_equal. apply Hsame.
  cbn [Cached.cache_of]. rewrite Habs, (Hin _ Hf). done.
Qed.

Lemma parallel_nm_primes_cache_witness :
  Cached.coherent SampleLink.world Cached.no_caches ∧
  "/src/util.o" ∈ ["/src/main.o"; "/src/util.o"] ∧
  abspath SampleLink.world (cwd SampleLink.world) "/src/util.o"
  = "/src/util.o" ∧
  ∃ c',
    Cached.parallel_llvm_nm SampleLink.world ["/src/main.o"; "/src/util.o"]
      Cached.no_caches
    = ((λ f, Cached.nm_result SampleLink.world f false)
         <$> ["/src/main.o"; "/src/util.o"], c') ∧
    Cached.coherent SampleLink.world c' ∧
    Cached.llvm_nm SampleLink.world "/src/util.o" false c'
    = (llvm_nm_uncached SampleLink.world "/src/util.o", c').
Proof.
  assert (H2 : "/src/util.o" ∈ ["/src/main.o"; "/src/util.o"])
    by (apply elem_of_cons; right; apply elem_of_cons; by left).
  assert (H3 : abspath SampleLink.world (cwd SampleLink.world) "/src/util.o"
               = "/src/util.o") by (by vm_compute).
  split; [apply no_caches_coherent|]. split; [exact H2|]. split; [exact H3|].
  exact (parallel_nm_primes_cache SampleLink.world
           ["/src/main.o"; "/src/util.o"] Cached.no_caches "/src/util.o"
           (no_caches_coherent _) H2 H3).
Defined.

(** * Objects that cannot be linked

    What stops a link, and what becomes of an object that the
    symbol-extraction tool rejects or that is not bitcode. *)

Section Stops.

Context (w : World) (force_add_all : bool) (files0 : list string).











End Stops.






Section Warnings.

Context (w : World) (force_add_all : bool).












End Warnings.





